(** * Gitify: the history-mutation engine of [src/extension.ts]

    The extension drives git through [child_process.exec].  The functions
    [makeHead], [deleteCommit], [ensureCleanState], [hasMergesInHistory]
    and [getCommits] are embedded as finite interaction programs: a program
    either returns, or performs one call to its environment and continues
    with the reply.  Programs are run against an arbitrary environment
    ([run]), against a script of replies ([play]) and against a model of a
    git repository ([Git.handle]). *)

From Stdlib Require Import ZArith Ascii String List Lia Bool.
From stdpp Require Import base option list strings gmap.

Local Open Scope string_scope.
Local Open Scope list_scope.

(** ** JavaScript string operations used by the extension *)

Module JS.

(** [\s] of a JavaScript regular expression, restricted to ASCII:
    tab, line feed, vertical tab, form feed, carriage return, space. *)
Definition is_space (a : ascii) : bool :=
  match nat_of_ascii a with
  | 9 | 10 | 11 | 12 | 13 | 32 => true
  | _ => false
  end.

Fixpoint trimStart (s : string) : string :=
  match s with
  | EmptyString => EmptyString
  | String a s' => if is_space a then trimStart s' else s
  end.

Fixpoint trimEnd (s : string) : string :=
  match s with
  | EmptyString => EmptyString
  | String a s' =>
      match trimEnd s' with
      | EmptyString => if is_space a then EmptyString else String a EmptyString
      | t => String a t
      end
  end.

(** [s.trim()] *)
Definition trim (s : string) : string := trimEnd (trimStart s).

(** Prepends a character to the first field of a list of fields. *)
Definition push_char (a : ascii) (fields : list string) : list string :=
  match fields with
  | f :: fs => String a f :: fs
  | [] => [String a EmptyString]
  end.

(** [s.split(/\s+/)]: [in_gap] tells that the previous character was
    whitespace, so that a run of whitespace separates only once. *)
Fixpoint split_spaces_from (in_gap : bool) (s : string) : list string :=
  match s with
  | EmptyString => [EmptyString]
  | String a s' =>
      if is_space a
      then if in_gap then split_spaces_from true s'
           else EmptyString :: split_spaces_from true s'
      else push_char a (split_spaces_from false s')
  end.

Definition split_spaces (s : string) : list string := split_spaces_from false s.

(** [s.split(/\r?\n/)] *)
Fixpoint split_lines (s : string) : list string :=
  match s with
  | EmptyString => [EmptyString]
  | String a s' =>
      if Ascii.eqb a "010" then EmptyString :: split_lines s'
      else
        match s' with
        | String b s'' =>
            if Ascii.eqb a "013" && Ascii.eqb b "010"
            then EmptyString :: split_lines s''
            else push_char a (split_lines s')
        | EmptyString => push_char a (split_lines s')
        end
  end.

(** [s.split(c)] for a one-character separator. *)
Fixpoint split_char (c : ascii) (s : string) : list string :=
  match s with
  | EmptyString => [EmptyString]
  | String a s' =>
      if Ascii.eqb a c then EmptyString :: split_char c s'
      else push_char a (split_char c s')
  end.

(** [Boolean(s)] for a string: the empty string is falsy. *)
Definition truthy (s : string) : bool := negb (String.eqb s EmptyString).

(** [out.split(/\r?\n/).map(s => s.trim()).filter(Boolean)] *)
Definition lines (out : string) : list string :=
  List.filter truthy (List.map trim (split_lines out)).

(** [a || b] on strings. *)
Definition or_else (a b : string) : string := if truthy a then a else b.

(** [list.join(sep)] *)
Fixpoint join (sep : string) (l : list string) : string :=
  match l with
  | [] => EmptyString
  | [x] => x
  | x :: rest => x +:+ sep +:+ join sep rest
  end.

(** [/needle/.test(s)] for a pattern without metacharacters. *)
Fixpoint includes (needle s : string) : bool :=
  if String.prefix needle s then true
  else match s with
       | EmptyString => false
       | String _ s' => includes needle s'
       end.

Definition lower (a : ascii) : ascii :=
  let n := nat_of_ascii a in
  if (65 <=? n)%nat && (n <=? 90)%nat then ascii_of_nat (n + 32) else a.

Fixpoint toLower (s : string) : string :=
  match s with
  | EmptyString => EmptyString
  | String a s' => String (lower a) (toLower s')
  end.

(** [/needle/i.test(s)]: without the [u] flag only ASCII letters fold onto
    ASCII letters. *)
Definition includes_i (needle s : string) : bool :=
  includes (toLower needle) (toLower s).

(** [s.replace(/[:.]/g, '-')] *)
Fixpoint dash_colons_dots (s : string) : string :=
  match s with
  | EmptyString => EmptyString
  | String a s' =>
      String (if Ascii.eqb a ":" || Ascii.eqb a "." then "-"%char else a)
             (dash_colons_dots s')
  end.

(** [s.replace(/"/g, '\\"')] *)
Fixpoint escape_quotes (s : string) : string :=
  match s with
  | EmptyString => EmptyString
  | String a s' =>
      if Ascii.eqb a "034" then String "\" (String "034" (escape_quotes s'))
      else String a (escape_quotes s')
  end.

(** [s.slice(0, n)] *)
Fixpoint take (n : nat) (s : string) : string :=
  match n, s with
  | S n', String a s' => String a (take n' s')
  | _, _ => EmptyString
  end.

End JS.

(** ** Calls to the environment *)

(** The git command lines the extension passes to [exec].  Each constructor
    stands for one template string of the source; its arguments are the
    interpolated values. *)
Inductive Cmd : Type :=
| MergeBaseIsAncestor (commit branch : string)
    (* git merge-base --is-ancestor ${commit} ${branch} *)
| DiffQuiet                 (* git diff --quiet || echo DIRTY *)
| DiffCachedQuiet           (* git diff --cached --quiet || echo DIRTY *)
| InProgressProbe
    (* sh -c "[ -d .git/rebase-merge ] || [ -d .git/rebase-apply ] ||
       [ -f .git/MERGE_HEAD ] || [ -f .git/CHERRY_PICK_HEAD ] ||
       [ -f .git/REVERT_HEAD ] && echo BUSY || true" *)
| UpdateRef (ref value : string)          (* git update-ref ${ref} ${value} *)
| RevParseAbbrevRefHead                   (* git rev-parse --abbrev-ref HEAD *)
| Checkout (branch : string)              (* git checkout ${branch} *)
| RevListParents1 (commit : string)       (* git rev-list --parents -n 1 ${commit} *)
| RevListParentsReverseHead               (* git rev-list --parents --reverse HEAD *)
| RevListReverseHead                      (* git rev-list --reverse HEAD *)
| RevListReverseSince (parent : string)   (* git rev-list --reverse ${parent}..HEAD *)
| RebaseInteractiveRoot (sequence_editor : string)
    (* git rebase -i --root, with GIT_SEQUENCE_EDITOR=${editorScript} *)
| RebaseAbort                             (* git rebase --abort *)
| ResetHard (parent : string)             (* git reset --hard ${parent} *)
| CherryPick (h : string)                 (* git cherry-pick ${h} *)
| CherryPickSkip                          (* git cherry-pick --skip *)
| CherryPickAbort                         (* git cherry-pick --abort *)
| RevParse (branch : string)              (* git rev-parse ${branch} *)
| RebaseOnto (parent commit : string) (branch : option string)
    (* git rebase --onto ${parent} ${commit} [${branch}] *)
| RevParseVerify (name : string)          (* git rev-parse --verify ${name} *)
| GitLog (n : Z) (rangeExpr : string).
    (* git log --no-color --date=short --pretty=format:'...' -n ${n} "${rangeExpr}" -- *)

(** Everything the extension asks of its environment. *)
Inductive Call : Type :=
| Exec (c : Cmd)                          (* child_process.exec *)
| DateNow                                 (* new Date().toISOString() *)
| MkdtempSync (prefix : string)           (* fs.mkdtempSync(path.join(os.tmpdir(), prefix)) *)
| WriteFileSync (path data : string) (executable : bool)
                                          (* fs.writeFileSync, mode 0o755 when executable *)
| RmSync (path : string)                  (* fs.rmSync(path, {recursive, force}) *)
| GetConfiguration (section key : string) (* vscode.workspace.getConfiguration(section).get(key) *).

(** What the environment answers.  For [exec] these are the arguments of
    the callback: [error] is [error.message] when the command failed.  For
    the synchronous calls [error] is the message of the exception thrown
    and [stdout] the value returned. *)
Record Reply : Type := mkReply {
  error : option string;
  stdout : string;
  stderr : string
}.

Definition ok (out : string) : Reply :=
  {| error := None; stdout := out; stderr := EmptyString |}.

Definition failed (msg err : string) : Reply :=
  {| error := Some msg; stdout := EmptyString; stderr := err |}.

(** ** Programs *)

Inductive Prog (A : Type) : Type :=
| Ret (a : A)
| Vis (c : Call) (k : Reply -> Prog A).

Arguments Ret {A} a.
Arguments Vis {A} c k.

Fixpoint pbind {A B : Type} (p : Prog A) (f : A -> Prog B) : Prog B :=
  match p with
  | Ret a => f a
  | Vis c k => Vis c (fun r => pbind (k r) f)
  end.

Definition perform (c : Call) : Prog Reply := Vis c Ret.

(** A settled promise: resolved with a value or rejected with an [Error],
    of which only the message is kept. *)
Inductive Settled (A : Type) : Type :=
| Resolved (a : A)
| Rejected (message : string).

Arguments Resolved {A} a.
Arguments Rejected {A} message.

Definition Promise (A : Type) : Type := Prog (Settled A).

Definition resolve {A : Type} (a : A) : Promise A := Ret (Resolved a).
Definition reject {A : Type} (message : string) : Promise A := Ret (Rejected message).

(** [const x = await p; f x] *)
Definition andThen {A B : Type} (p : Promise A) (f : A -> Promise B) : Promise B :=
  pbind p (fun s => match s with
                    | Resolved a => f a
                    | Rejected e => Ret (Rejected e)
                    end).

(** [try { p } catch (e) { h e }], and [p.catch(h)] *)
Definition catch {A : Type} (p : Promise A) (h : string -> Promise A) : Promise A :=
  pbind p (fun s => match s with
                    | Resolved a => Ret (Resolved a)
                    | Rejected e => h e
                    end).

(** [try { p } finally { f }]: the outcome of [p] stands when [f] completes
    normally; an exception thrown by [f] replaces it. *)
Definition finally {A : Type} (p : Promise A) (f : Promise unit) : Promise A :=
  pbind p (fun s =>
  pbind f (fun t => match t with
                    | Resolved _ => Ret s
                    | Rejected e => Ret (Rejected e)
                    end)).

(** [await p.catch(() => {})], and [try { p } catch {}] *)
Definition swallow {A : Type} (p : Promise A) : Promise unit :=
  pbind p (fun _ => resolve tt).

Declare Scope promise_scope.
Delimit Scope promise_scope with promise.
Notation "'let!' x ':=' p 'in' k" := (andThen p (fun x => k))
  (at level 10, x name, p at level 100, k at level 200) : promise_scope.
Notation "'do!' p 'in' k" := (andThen p (fun _ => k))
  (at level 10, p at level 100, k at level 200) : promise_scope.
Local Open Scope promise_scope.

(** *** Running a program *)

Section Run.
Context {W : Type} (handle : Call -> W -> Reply * W).

  (** Against an environment with state [W]: the value returned, the final
      state and the log of calls and replies. *)
Fixpoint run {A : Type} (p : Prog A) (w : W) : A * W * list (Call * Reply) :=
    match p with
    | Ret a => (a, w, [])
    | Vis c k =>
        let (r, w1) := handle c w in
        let '(a, w2, log) := run (k r) w1 in
        (a, w2, (c, r) :: log)
    end.

Definition outcome {A : Type} (p : Prog A) (w : W) : A := fst (fst (run p w)).
Definition final {A : Type} (p : Prog A) (w : W) : W := snd (fst (run p w)).
Definition calls {A : Type} (p : Prog A) (w : W) : list Call := map fst (snd (run p w)).
End Run.

(** The script world: the state is the list of replies still to come; when
    it is exhausted every call fails. *)
Definition scripted (c : Call) (pending : list Reply) : Reply * list Reply :=
  match pending with
  | [] => (failed "script exhausted" EmptyString, [])
  | r :: rest => (r, rest)
  end.

(** ** The extension *)

(** [execPromise(cmd, cwd, env)]: resolves with [stdout]; rejects with
    [new Error(stderr || error.message)]. *)
Definition execPromise (c : Cmd) : Promise string :=
  pbind (perform (Exec c)) (fun r =>
    match error r with
    | Some message => reject (JS.or_else (stderr r) message)
    | None => resolve (stdout r)
    end).

(** A synchronous [fs] call inside an async function: the exception it
    throws rejects the promise. *)
Definition sync (c : Call) : Promise string :=
  pbind (perform c) (fun r =>
    match error r with
    | Some message => reject message
    | None => resolve (stdout r)
    end).

(** [p.then(s => /needle/.test(s)).catch(() => true)] *)
Definition test_or_true (needle : string) (p : Promise string) : Promise bool :=
  pbind p (fun s => match s with
                    | Resolved out => resolve (JS.includes needle out)
                    | Rejected _ => resolve true
                    end).

Definition dirty_message : string :=
  "Working tree has uncommitted changes. Please commit or stash before proceeding.".
Definition busy_message : string :=
  "Another Git operation is in progress (rebase/merge/cherry-pick). Please abort/finish it first.".

Definition ensureCleanState : Promise unit :=
  let! dirtyWc := test_or_true "DIRTY" (execPromise DiffQuiet) in
  let! dirtyIdx := test_or_true "DIRTY" (execPromise DiffCachedQuiet) in
  if dirtyWc || dirtyIdx then reject dirty_message
  else
    let! inProgress := test_or_true "BUSY" (execPromise InProgressProbe) in
    if inProgress then reject busy_message else resolve tt.

(** [line && line.trim().split(/\s+/).length > 2] *)
Definition lists_two_parents (line : string) : bool :=
  JS.truthy line && (2 <? length (JS.split_spaces (JS.trim line)))%nat.

Definition hasMergesInHistory : Promise bool :=
  let! out := catch (execPromise RevListParentsReverseHead) (fun _ => resolve EmptyString) in
  resolve (existsb lists_two_parents (JS.split_lines out)).

(** [`refs/backup/git-dnd/${branch}-${ts}`] with
    [ts = new Date().toISOString().replace(/[:.]/g, '-')] *)
Definition backup_name (branch iso : string) : string :=
  "refs/backup/git-dnd/" +:+ branch +:+ "-" +:+ JS.dash_colons_dots iso.

Definition head_ref (branch : string) : string := "refs/heads/" +:+ branch.

(** The names of the backup namespace. *)
Definition is_backup (ref : string) : bool := String.prefix "refs/backup/" ref.

(** [h => h !== commit] *)
Definition differs_from (commit h : string) : bool := negb (String.eqb h commit).

(** [list.filter(h => h !== commit).concat([commit])] *)
Definition move_last (commit : string) (hashes : list string) : list string :=
  List.filter (differs_from commit) hashes ++ [commit].

(** [hashes.map(h => `pick ${h}`).join('\n') + '\n'] *)
Definition todo_of (hashes : list string) : string :=
  JS.join (String "010" EmptyString) (List.map (fun h => "pick " +:+ h) hashes)
  +:+ String "010" EmptyString.

(** The body of the editor script
    [`#!/bin/sh\ncat "${todoPath}" > "$1"\n`]. *)
Definition editor_script (todoPath : string) : string :=
  "#!/bin/sh" +:+ String "010" ("cat " +:+ String "034" (todoPath +:+ String "034"
    (" > " +:+ String "034" ("$1" +:+ String "034" (String "010" EmptyString))))).

(** The synthesized root rewrite shared by both operations: write the todo
    list and the editor script into a fresh temporary directory, run
    [git rebase -i --root] with that editor; on failure abort, put the
    branch back on the backup and rethrow; remove the directory in any
    case. *)
Definition rebase_root_with (branch backupRef : string) (picks : list string)
  : Promise unit :=
  let todo := todo_of picks in
  let! tmpDir := sync (MkdtempSync "git-dnd-") in
  let todoPath := tmpDir +:+ "/todo.txt" in
  do! sync (WriteFileSync todoPath todo false) in
  let editorScript := tmpDir +:+ "/editor.sh" in
  do! sync (WriteFileSync editorScript (editor_script todoPath) true) in
  finally
    (catch
       (do! execPromise (RebaseInteractiveRoot editorScript) in resolve tt)
       (fun e =>
          do! swallow (execPromise RebaseAbort) in
          do! swallow (execPromise (UpdateRef (head_ref branch) backupRef)) in
          reject e))
    (swallow (sync (RmSync tmpDir))).

(** [String(e?.message || e || '')] and [`${e?.message || e}`] for a caught
    [Error]: an [Error] with an empty message prints as its name. *)
Definition error_text (message : string) : string := JS.or_else message "Error".

Definition now_empty (msg : string) : bool :=
  JS.includes_i "previous cherry-pick is now empty" msg
  || JS.includes_i "The previous cherry-pick is now empty" msg.

(** The replay loop of [makeHead]: [for (const h of sequence) { ... }]. *)
Fixpoint replay (branch backupRef : string) (sequence : list string) : Promise unit :=
  match sequence with
  | [] => resolve tt
  | h :: rest =>
      pbind (execPromise (CherryPick h)) (fun s =>
        match s with
        | Resolved _ => replay branch backupRef rest
        | Rejected e =>
            if now_empty (error_text e)
            then
              do! swallow (execPromise CherryPickSkip) in
              replay branch backupRef rest
            else
              do! swallow (execPromise CherryPickAbort) in
              do! swallow (execPromise (UpdateRef (head_ref branch) backupRef)) in
              reject e
        end)
  end.

Definition root_reorder_message : string :=
  "Reordering from root across merge commits is not supported.".
Definition merge_reorder_message : string :=
  "Reordering merge commits is not supported.".

(** The [try] block of [makeHead]. *)
Definition makeHead_body (branch commit backupRef : string) : Promise unit :=
  let! parentsLine := execPromise (RevListParents1 commit) in
  let parts := JS.split_spaces (JS.trim parentsLine) in
  if (length parts <? 2)%nat then
    let! merges := hasMergesInHistory in
    if merges then reject root_reorder_message
    else
      let! out := execPromise RevListReverseHead in
      let hashes := JS.lines out in
      if (length hashes <=? 1)%nat then resolve tt
      else rebase_root_with branch backupRef (move_last commit hashes)
  else if (2 <? length parts)%nat then reject merge_reorder_message
  else
    let parent := nth 1 parts EmptyString in
    let! out := execPromise (RevListReverseSince parent) in
    let range := JS.lines out in
    let sequence := move_last commit range in
    do! execPromise (ResetHard parent) in
    replay branch backupRef sequence.

Definition not_reachable_message (commit branch : string) : string :=
  "Commit " +:+ commit +:+ " is not reachable from " +:+ branch +:+ ".".

Definition makeHead (branch commit : string) : Promise unit :=
  do! catch (execPromise (MergeBaseIsAncestor commit branch))
            (fun _ => reject (not_reachable_message commit branch)) in
  do! ensureCleanState in
  pbind (perform DateNow) (fun now =>
  let backupRef := backup_name branch (stdout now) in
  do! swallow (execPromise (UpdateRef backupRef branch)) in
  let! head := execPromise RevParseAbbrevRefHead in
  let currentBranch := JS.trim head in
  let switchBack := negb (String.eqb currentBranch branch) in
  do! (if switchBack then do! execPromise (Checkout branch) in resolve tt
       else resolve tt) in
  finally
    (makeHead_body branch commit backupRef)
    (if switchBack
     then do! execPromise (Checkout currentBranch) in resolve tt
     else resolve tt)).

Definition root_delete_message : string :=
  "Deleting the root across merge commits is not supported.".
Definition only_commit_message : string :=
  "Cannot delete the only commit on the branch. Delete the branch instead.".
Definition merge_delete_message : string :=
  "Deleting merge commits is not supported.".

(** The root branch of [deleteCommit], from the read of the current
    checkout on; the merge scan has already been done. *)
Definition deleteCommit_root (branch backupRef : string) : Promise unit :=
  let! head := execPromise RevParseAbbrevRefHead in
  let currentBranch := JS.trim head in
  let switchBack := negb (String.eqb currentBranch branch) in
  do! (if switchBack then do! execPromise (Checkout branch) in resolve tt
       else resolve tt) in
  finally
    (let! out := execPromise RevListReverseHead in
     let hashes := JS.lines out in
     if (length hashes <=? 1)%nat then reject only_commit_message
     else rebase_root_with branch backupRef (List.tl hashes))
    (let! head' := execPromise RevParseAbbrevRefHead in
     let headNow := JS.trim head' in
     if negb (String.eqb headNow currentBranch)
     then swallow (execPromise (Checkout currentBranch))
     else resolve tt).

Definition deleteCommit (branch commit : string) : Promise unit :=
  do! catch (execPromise (MergeBaseIsAncestor commit branch))
            (fun _ => reject (not_reachable_message commit branch)) in
  do! ensureCleanState in
  let! parentsLine := execPromise (RevListParents1 commit) in
  let parts := JS.split_spaces (JS.trim parentsLine) in
  pbind (perform DateNow) (fun now =>
  let backupRef := backup_name branch (stdout now) in
  do! swallow (execPromise (UpdateRef backupRef branch)) in
  if (length parts <? 2)%nat then
    let! merges := hasMergesInHistory in
    if merges then reject root_delete_message
    else deleteCommit_root branch backupRef
  else if (2 <? length parts)%nat then reject merge_delete_message
  else
    let parent := nth 1 parts EmptyString in
    let! tipOut := execPromise (RevParse branch) in
    let tip := JS.trim tipOut in
    let! head := execPromise RevParseAbbrevRefHead in
    let currentBranch := JS.trim head in
    let isCurrent := String.eqb currentBranch branch in
    if String.eqb tip commit then
      if isCurrent
      then do! execPromise (ResetHard parent) in resolve tt
      else do! execPromise (UpdateRef (head_ref branch) parent) in resolve tt
    else
      let rebaseCmd :=
        if isCurrent then RebaseOnto parent commit None
        else RebaseOnto parent commit (Some branch) in
      catch (do! execPromise rebaseCmd in resolve tt)
            (fun e =>
               do! swallow (execPromise RebaseAbort) in
               reject ("Rebase failed while deleting commit. " +:+ error_text e))).

(** One entry of the list [getCommits] returns; a field missing from a
    record is [undefined]. *)
Record CommitInfo : Type := mkCommitInfo {
  hash : string;
  fullHash : string;
  subject : option string;
  author : option string;
  date : option string
}.

Definition parse_record (r : string) : CommitInfo :=
  let fields := JS.split_char "031" r in
  let full := nth 0 fields EmptyString in
  {| hash := JS.take 7 full;
     fullHash := full;
     subject := nth_error fields 1;
     author := nth_error fields 2;
     date := nth_error fields 3 |}.

(** [stdout.split('\x1e').map(r => r.trim()).filter(Boolean).map(...)] *)
Definition parse_log (out : string) : list CommitInfo :=
  List.map parse_record
    (List.filter JS.truthy (List.map JS.trim (JS.split_char "030" out))).

(** The loop over [['main', 'master']]: a candidate is verified only while
    no base has been found; the first one that verifies is taken. *)
Fixpoint fallback_base (base : option string) (candidates : list string)
  : Prog (option string) :=
  match candidates with
  | [] => Ret base
  | candidate :: rest =>
      match base with
      | Some _ => fallback_base base rest
      | None =>
          pbind (execPromise (RevParseVerify candidate)) (fun s =>
            match s with
            | Resolved _ => Ret (Some candidate)
            | Rejected _ => fallback_base None rest
            end)
      end
  end.

(** The configured comparison base, when it is set and verifies. *)
Definition configured_base : Prog (option string) :=
  pbind (sync (GetConfiguration "gitify" "compareBase")) (fun s =>
    match s with
    | Rejected _ => Ret None
    | Resolved value =>
        let configured := JS.trim value in
        if JS.truthy configured then
          pbind (execPromise (RevParseVerify configured)) (fun v =>
            match v with
            | Resolved _ => Ret (Some configured)
            | Rejected _ => Ret None
            end)
        else Ret None
    end).

Definition getCommits (ref : string) (limit : Z) : Promise (list CommitInfo) :=
  let n := Z.max 1 (Z.min 500 limit) in
  pbind configured_base (fun base0 =>
  pbind (fallback_base base0 ["main"; "master"]) (fun base =>
  let rangeExpr :=
    match base with
    | Some b =>
        if negb (String.eqb b ref)
        then JS.escape_quotes b +:+ ".." +:+ JS.escape_quotes ref
        else JS.escape_quotes ref
    | None => JS.escape_quotes ref
    end in
  let! out := execPromise (GitLog n rangeExpr) in
  resolve (parse_log out))).

(** ** A model of the repository the commands act on

    Git itself is not part of the extension.  [Git.handle] gives the
    commands above the meaning they have on a repository whose [HEAD] is
    attached to a branch: commits with parents and a change, references,
    the checked-out snapshot with its dirty flags, the marker of an
    operation in progress, and the host's clock, files and configuration.
    Replaying a commit makes a new commit carrying the same change; it is
    empty when that change is already in the history replayed onto, and it
    conflicts for the commits listed in [conflicting].

    The model is one of well-behaved use, and a statement about it holds
    within these limits.  Each argument of a command reaches git as one
    word, although the source pastes names unquoted into a shell line.  A
    bare name is looked up among the branches before the tags, whereas git
    prefers the tag and prints [heads/<name>] for [HEAD] when the name is
    shared.  The directory the probe looks into is the top of the main
    work tree.  Switching to an existing branch succeeds; git refuses it
    when an untracked file is in the way.  A listing is delivered whole;
    [exec] fails beyond its [maxBuffer] of one mebibyte.  A merge is
    replayed like any other commit; [git cherry-pick] refuses one.
    Statements that are not to depend on these limits are made over every
    environment [handle], of which [Git.handle] is one. *)

Module Git.

Definition nl : string := String "010" EmptyString.

Record Commit : Type := mkCommit {
  parents : list string;
  change : string
}.

Inductive Pending : Type :=
| Idle
| Picking (h : string)                    (* .git/CHERRY_PICK_HEAD *)
| Rebasing (branch original : string)     (* .git/rebase-merge *)
| Merging                                 (* .git/MERGE_HEAD *)
| Reverting.                              (* .git/REVERT_HEAD *)

Record Repo : Type := mkRepo {
  commits : gmap string Commit;
  refs : gmap string string;      (* full reference name to commit *)
  HEAD : string;                  (* the branch checked out *)
  checked_out : string;           (* the commit in the index and the working files *)
  dirtyWc : bool;                 (* unstaged modifications *)
  dirtyIdx : bool;                (* staged modifications *)
  pending : Pending;
  conflicting : list string;      (* commits whose replay stops on a conflict *)
  clock : list string;            (* what the clock is going to show *)
  files : gmap string string;     (* files of the temporary directory *)
  compareBase : string            (* the setting gitify.compareBase *)
}.

Definition with_commits (cs : gmap string Commit) (r : Repo) : Repo :=
  mkRepo cs (refs r) (HEAD r) (checked_out r) (dirtyWc r) (dirtyIdx r)
         (pending r) (conflicting r) (clock r) (files r) (compareBase r).
Definition with_refs (rs : gmap string string) (r : Repo) : Repo :=
  mkRepo (commits r) rs (HEAD r) (checked_out r) (dirtyWc r) (dirtyIdx r)
         (pending r) (conflicting r) (clock r) (files r) (compareBase r).
Definition with_HEAD (b : string) (r : Repo) : Repo :=
  mkRepo (commits r) (refs r) b (checked_out r) (dirtyWc r) (dirtyIdx r)
         (pending r) (conflicting r) (clock r) (files r) (compareBase r).
Definition with_tree (h : string) (wc idx : bool) (r : Repo) : Repo :=
  mkRepo (commits r) (refs r) (HEAD r) h wc idx
         (pending r) (conflicting r) (clock r) (files r) (compareBase r).
Definition with_pending (p : Pending) (r : Repo) : Repo :=
  mkRepo (commits r) (refs r) (HEAD r) (checked_out r) (dirtyWc r) (dirtyIdx r)
         p (conflicting r) (clock r) (files r) (compareBase r).
Definition with_clock (c : list string) (r : Repo) : Repo :=
  mkRepo (commits r) (refs r) (HEAD r) (checked_out r) (dirtyWc r) (dirtyIdx r)
         (pending r) (conflicting r) c (files r) (compareBase r).
Definition with_files (fs : gmap string string) (r : Repo) : Repo :=
  mkRepo (commits r) (refs r) (HEAD r) (checked_out r) (dirtyWc r) (dirtyIdx r)
         (pending r) (conflicting r) (clock r) fs (compareBase r).

(** The tip of a branch. *)
Definition tip (r : Repo) (branch : string) : option string :=
  refs r !! head_ref branch.

(** Moves a branch. *)
Definition set_tip (branch h : string) (r : Repo) : Repo :=
  with_refs (<[head_ref branch := h]> (refs r)) r.

(** What a revision argument names: a branch, a full reference name or a
    commit. *)
Definition rev_parse (r : Repo) (name : string) : option string :=
  match refs r !! head_ref name with
  | Some h => Some h
  | None =>
      match refs r !! name with
      | Some h => Some h
      | None => match commits r !! name with
                | Some _ => Some name
                | None => None
                end
      end
  end.

Fixpoint reach (fuel : nat) (cs : gmap string Commit) (h : string) : list string :=
  match fuel with
  | O => []
  | S fuel' =>
      match cs !! h with
      | None => []
      | Some c => h :: flat_map (reach fuel' cs) (parents c)
      end
  end.

(** The commits reachable from [h], newest first, each once. *)
Definition log (r : Repo) (h : string) : list string :=
  nodup string_dec (reach (S (size (commits r))) (commits r) h).

Definition mem (h : string) (l : list string) : bool := existsb (String.eqb h) l.

(** [a..b], oldest first. *)
Definition since (r : Repo) (a b : string) : list string :=
  rev (List.filter (fun h => negb (mem h (log r a))) (log r b)).

Definition is_ancestor (r : Repo) (a d : string) : bool := mem a (log r d).

(** The changes contained in the history of [t]. *)
Definition changes_in (r : Repo) (t : string) : list string :=
  flat_map (fun h => match commits r !! h with
                     | Some c => [change c]
                     | None => []
                     end) (log r t).

Fixpoint fresh_from (fuel : nat) (cs : gmap string Commit) (name : string) : string :=
  match fuel with
  | O => name
  | S fuel' =>
      match cs !! name with
      | None => name
      | Some _ => fresh_from fuel' cs (name +:+ "'")
      end
  end.

(** The identity of the replayed copy of [h]. *)
Definition primed (cs : gmap string Commit) (h : string) : string :=
  fresh_from (S (size cs)) cs (h +:+ "'").

Inductive Picked : Type :=
| PickOk (r : Repo) (h' : string)
| PickEmpty
| PickConflict
| PickBad.

(** Replays [h] onto [base] ([None]: as a new root). *)
Definition pick (r : Repo) (base : option string) (h : string) : Picked :=
  match rev_parse r h with
  | None => PickBad
  | Some h0 =>
      match commits r !! h0 with
      | None => PickBad
      | Some c =>
          if mem h0 (conflicting r) then PickConflict
          else if match base with
                  | Some t => mem (change c) (changes_in r t)
                  | None => false
                  end then PickEmpty
          else
            let h' := primed (commits r) h0 in
            let c' := {| parents := match base with Some t => [t] | None => [] end;
                         change := change c |} in
            PickOk (with_commits (<[h' := c']> (commits r)) r) h'
      end
  end.

(** A rebase replays its list in order; a commit that became empty is
    dropped. The result is the repository with the new commits and the new
    tip, or the hash the replay stopped at. *)
Fixpoint replay_all (r : Repo) (base : option string) (hs : list string)
  : Repo * option string * option string :=
  match hs with
  | [] => (r, base, None)
  | h :: rest =>
      match pick r base h with
      | PickOk r' h' => replay_all r' (Some h') rest
      | PickEmpty => replay_all r base rest
      | PickConflict | PickBad => (r, base, Some h)
      end
  end.

Definition command_failed : string := "Command failed".

Definition conflict_text (h : string) : string :=
  "error: could not apply " +:+ h +:+ nl +:+
  "hint: After resolving the conflicts, mark them and continue" +:+ nl.

Definition empty_pick_text : string :=
  "The previous cherry-pick is now empty, possibly due to conflict resolution." +:+ nl +:+
  "If you wish to commit it anyway, use:" +:+ nl +:+ nl +:+
  "    git commit --allow-empty" +:+ nl +:+ nl +:+
  "Otherwise, please use 'git cherry-pick --skip'" +:+ nl.

Definition bad_revision (name : string) : Reply :=
  failed command_failed ("fatal: bad revision '" +:+ name +:+ "'" +:+ nl).

Definition git_merge_base (commit branch : string) (r : Repo) : Reply * Repo :=
  match rev_parse r commit, rev_parse r branch with
  | Some a, Some d =>
      if is_ancestor r a d then (ok EmptyString, r)
      else (failed command_failed EmptyString, r)
  | _, _ => (failed command_failed ("fatal: Not a valid object name" +:+ nl), r)
  end.

Definition git_diff (r : Repo) : Reply * Repo :=
  (ok (if dirtyWc r then "DIRTY" +:+ nl else EmptyString), r).

Definition git_diff_cached (r : Repo) : Reply * Repo :=
  (ok (if dirtyIdx r then "DIRTY" +:+ nl else EmptyString), r).

Definition probe (r : Repo) : Reply * Repo :=
  (ok (match pending r with Idle => EmptyString | _ => "BUSY" +:+ nl end), r).

Definition git_update_ref (ref value : string) (r : Repo) : Reply * Repo :=
  match rev_parse r value with
  | Some h => (ok EmptyString, with_refs (<[ref := h]> (refs r)) r)
  | None => (failed command_failed ("fatal: " +:+ value +:+ ": not a valid SHA1" +:+ nl), r)
  end.

Definition git_checkout (branch : string) (r : Repo) : Reply * Repo :=
  match tip r branch with
  | Some t => (ok EmptyString, with_tree t (dirtyWc r) (dirtyIdx r) (with_HEAD branch r))
  | None =>
      (failed command_failed
         ("error: pathspec '" +:+ branch +:+ "' did not match any file(s) known to git" +:+ nl), r)
  end.

Definition line_of (r : Repo) (h : string) : string :=
  match commits r !! h with
  | Some c => JS.join " " (h :: parents c) +:+ nl
  | None => EmptyString
  end.

Definition git_rev_list_parents1 (commit : string) (r : Repo) : Reply * Repo :=
  match rev_parse r commit with
  | Some h =>
      match commits r !! h with
      | Some _ => (ok (line_of r h), r)
      | None => (bad_revision commit, r)
      end
  | None => (bad_revision commit, r)
  end.

Definition unlines (l : list string) : string :=
  fold_right (fun h out => h +:+ nl +:+ out) EmptyString l.

Definition git_rev_list_head (with_parents : bool) (r : Repo) : Reply * Repo :=
  match tip r (HEAD r) with
  | Some t =>
      let hs := rev (log r t) in
      (ok (if with_parents
           then fold_right (fun h out => line_of r h +:+ out) EmptyString hs
           else unlines hs), r)
  | None => (bad_revision "HEAD", r)
  end.

Definition git_rev_list_since (parent : string) (r : Repo) : Reply * Repo :=
  match rev_parse r parent, tip r (HEAD r) with
  | Some p, Some t => (ok (unlines (since r p t)), r)
  | _, _ => (bad_revision parent, r)
  end.

(** [reset --hard] clears the markers of a merge, cherry-pick or revert. *)
Definition git_reset_hard (parent : string) (r : Repo) : Reply * Repo :=
  match rev_parse r parent with
  | Some p =>
      let after := match pending r with
                   | Rebasing b o => Rebasing b o
                   | _ => Idle
                   end in
      (ok ("HEAD is now at " +:+ p +:+ nl),
       with_pending after (with_tree p false false (set_tip (HEAD r) p r)))
  | None => (bad_revision parent, r)
  end.

Definition git_cherry_pick (h : string) (r : Repo) : Reply * Repo :=
  match pending r, tip r (HEAD r) with
  | Idle, Some t =>
      match pick r (Some t) h with
      | PickOk r' h' => (ok EmptyString, with_tree h' (dirtyWc r) (dirtyIdx r) (set_tip (HEAD r) h' r'))
      | PickEmpty => (failed command_failed empty_pick_text, with_pending (Picking h) r)
      | PickConflict =>
          (failed command_failed (conflict_text h),
           with_pending (Picking h) (with_tree (checked_out r) true true r))
      | PickBad => (bad_revision h, r)
      end
  | _, _ =>
      (failed command_failed ("error: cherry-pick is not possible now" +:+ nl), r)
  end.

(** [cherry-pick --skip] and [cherry-pick --abort] of a single pick both
    drop the pick and restore the files of [HEAD]. *)
Definition git_cherry_pick_drop (r : Repo) : Reply * Repo :=
  match pending r with
  | Picking _ =>
      (ok EmptyString, with_pending Idle (with_tree (checked_out r) false false r))
  | _ =>
      (failed command_failed ("error: no cherry-pick or revert in progress" +:+ nl), r)
  end.

Definition finish_rebase (branch original : string) (hs : list string)
    (base : option string) (r : Repo) : Reply * Repo :=
  match replay_all r base hs with
  | (r', Some t', None) =>
      (ok EmptyString, with_tree t' false false (with_HEAD branch (set_tip branch t' r')))
  | (r', None, None) =>
      (failed command_failed ("error: nothing to do" +:+ nl), r)
  | (r', _, Some h) =>
      (failed command_failed (conflict_text h),
       with_pending (Rebasing branch original)
         (with_tree (checked_out r) true true (with_HEAD branch r')))
  end.

Definition git_rebase_onto (parent commit : string) (branch : option string)
    (r : Repo) : Reply * Repo :=
  let b := match branch with Some b => b | None => HEAD r end in
  match pending r, tip r b, rev_parse r parent, rev_parse r commit with
  | Idle, Some t, Some p, Some c => finish_rebase b t (since r c t) (Some p) r
  | _, _, _, _ => (failed command_failed ("fatal: invalid upstream" +:+ nl), r)
  end.

(** The path between the first pair of double quotes of the editor
    script, and the hashes of the [pick] lines of a todo list. *)
Definition quoted (script : string) : string :=
  nth 1 (JS.split_char "034" script) EmptyString.

Definition picks_of (todo : string) : list string :=
  flat_map (fun l => match JS.split_spaces l with
                     | [verb; h] => if String.eqb verb "pick" then [h] else []
                     | _ => []
                     end) (JS.lines todo).

Definition git_rebase_root (editor : string) (r : Repo) : Reply * Repo :=
  match pending r, tip r (HEAD r), files r !! editor with
  | Idle, Some t, Some script =>
      match files r !! quoted script with
      | Some todo => finish_rebase (HEAD r) t (picks_of todo) None r
      | None => (failed command_failed ("error: there was a problem with the editor" +:+ nl), r)
      end
  | _, _, _ => (failed command_failed ("error: there was a problem with the editor" +:+ nl), r)
  end.

Definition git_rebase_abort (r : Repo) : Reply * Repo :=
  match pending r with
  | Rebasing b original =>
      (ok EmptyString,
       with_pending Idle (with_tree original false false (with_HEAD b (set_tip b original r))))
  | _ => (failed command_failed ("fatal: No rebase in progress?" +:+ nl), r)
  end.

Definition git_rev_parse (name : string) (r : Repo) : Reply * Repo :=
  match rev_parse r name with
  | Some h => (ok (h +:+ nl), r)
  | None => (bad_revision name, r)
  end.

(** Splits [a..b] at the first pair of dots. *)
Fixpoint split_range (s : string) : option (string * string) :=
  match s with
  | EmptyString => None
  | String a s' =>
      match s' with
      | String b rest =>
          if Ascii.eqb a "." && Ascii.eqb b "." then Some (EmptyString, rest)
          else match split_range s' with
               | Some (l, u) => Some (String a l, u)
               | None => None
               end
      | EmptyString => None
      end
  end.

(** One record of [git log]: hash, subject, author and date separated by
    [\x1f] and closed by [\x1e]; the model keeps the change as subject and
    no author or date. *)
Definition log_record (r : Repo) (h : string) : string :=
  let unit_sep := String "031" EmptyString in
  h +:+ unit_sep +:+
  match commits r !! h with Some c => change c | None => EmptyString end
  +:+ unit_sep +:+ unit_sep +:+ String "030" EmptyString.

Definition git_log (n : Z) (rangeExpr : string) (r : Repo) : Reply * Repo :=
  let listed :=
    match split_range rangeExpr with
    | Some (a, b) =>
        match rev_parse r a, rev_parse r b with
        | Some a', Some b' => Some (rev (since r a' b'))
        | _, _ => None
        end
    | None =>
        match rev_parse r rangeExpr with
        | Some b' => Some (log r b')
        | None => None
        end
    end in
  match listed with
  | Some hs => (ok (JS.join nl (List.map (log_record r) (firstn (Z.to_nat n) hs))), r)
  | None => (bad_revision rangeExpr, r)
  end.

Definition exec (c : Cmd) (r : Repo) : Reply * Repo :=
  match c with
  | MergeBaseIsAncestor commit branch => git_merge_base commit branch r
  | DiffQuiet => git_diff r
  | DiffCachedQuiet => git_diff_cached r
  | InProgressProbe => probe r
  | UpdateRef ref value => git_update_ref ref value r
  | RevParseAbbrevRefHead => (ok (HEAD r +:+ nl), r)
  | Checkout branch => git_checkout branch r
  | RevListParents1 commit => git_rev_list_parents1 commit r
  | RevListParentsReverseHead => git_rev_list_head true r
  | RevListReverseHead => git_rev_list_head false r
  | RevListReverseSince parent => git_rev_list_since parent r
  | RebaseInteractiveRoot editor => git_rebase_root editor r
  | RebaseAbort => git_rebase_abort r
  | ResetHard parent => git_reset_hard parent r
  | CherryPick h => git_cherry_pick h r
  | CherryPickSkip => git_cherry_pick_drop r
  | CherryPickAbort => git_cherry_pick_drop r
  | RevParse name => git_rev_parse name r
  | RebaseOnto parent commit branch => git_rebase_onto parent commit branch r
  | RevParseVerify name => git_rev_parse name r
  | GitLog n rangeExpr => git_log n rangeExpr r
  end.

Definition epoch : string := "1970-01-01T00:00:00.000Z".

(** What the clock shows next. *)
Definition now (r : Repo) : string :=
  match clock r with
  | [] => epoch
  | t :: _ => t
  end.

Definition handle (c : Call) (r : Repo) : Reply * Repo :=
  match c with
  | Exec g => exec g r
  | DateNow => (ok (now r), with_clock (List.tl (clock r)) r)
  | MkdtempSync prefix => (ok ("/tmp/" +:+ prefix +:+ "XXXXXX"), r)
  | WriteFileSync path data _ => (ok EmptyString, with_files (<[path := data]> (files r)) r)
  | RmSync path =>
      (ok EmptyString,
       with_files (filter (fun kv => String.prefix path (fst kv) = false) (files r)) r)
  | GetConfiguration _ _ => (ok (compareBase r), r)
  end.

(** The first-parent chain from [h], newest first, as (hash, change). *)
Fixpoint lineage (fuel : nat) (r : Repo) (h : string) : list (string * string) :=
  match fuel with
  | O => []
  | S fuel' =>
      match commits r !! h with
      | None => []
      | Some c =>
          (h, change c) :: match parents c with
                           | p :: _ => lineage fuel' r p
                           | [] => []
                           end
      end
  end.

(** The history of a branch, oldest first. *)
Definition history (r : Repo) (branch : string) : list (string * string) :=
  match tip r branch with
  | Some t => rev (lineage (S (size (commits r))) r t)
  | None => []
  end.

(** A linear history given oldest first as (hash, change). *)
Fixpoint chain (parent : list string) (l : list (string * string))
  : list (string * Commit) :=
  match l with
  | [] => []
  | (h, c) :: rest => (h, mkCommit parent c) :: chain [h] rest
  end.

(** A name git can print on a line of its own: not empty, no whitespace. *)
Fixpoint spaceless (s : string) : bool :=
  match s with
  | EmptyString => true
  | String a s' => negb (JS.is_space a) && spaceless s'
  end.

Definition tidy (s : string) : bool := JS.truthy s && spaceless s.

(** No branch and no reference is named like the commit [h]. *)
Definition unshadowed (r : Repo) (h : string) : bool :=
  match refs r !! head_ref h, refs r !! h with
  | None, None => true
  | _, _ => false
  end.

Definition present (r : Repo) (h : string) : bool :=
  match commits r !! h with Some _ => true | None => false end.

(** A name a commit can have: tidy, outside the backup namespace and not
    taken by a reference. *)
Definition commit_name (r : Repo) (h : string) : bool :=
  tidy h && negb (is_backup h) && unshadowed r h.

Definition sane_commit (r : Repo) (hc : string * Commit) : bool :=
  commit_name r (fst hc)
  && forallb (fun p => commit_name r p && present r p) (parents (snd hc)).

(** Well-formed repositories: the branch checked out has a tidy name and
    a tip, every commit has the name of a commit, and the parents of a
    commit are commits. *)
Definition sane (r : Repo) : bool :=
  tidy (HEAD r)
  && match tip r (HEAD r) with Some _ => true | None => false end
  && forallb (sane_commit r) (map_to_list (commits r)).

(** What the ancestry test of the operations asks. *)
Definition reachable (r : Repo) (commit branch : string) : bool :=
  match rev_parse r commit, rev_parse r branch with
  | Some a, Some d => is_ancestor r a d
  | _, _ => false
  end.

Definition idle (r : Repo) : bool :=
  match pending r with Idle => true | _ => false end.

(** What [ensureCleanState] asks. *)
Definition mutation_safe (r : Repo) : bool :=
  negb (dirtyWc r) && negb (dirtyIdx r) && idle r.

End Git.

(** ** Vocabulary of the statements *)

(** The two public operations. *)
Inductive Operation : Type := Reposition | Remove.

Definition engine (o : Operation) : string -> string -> Promise unit :=
  match o with
  | Reposition => makeHead
  | Remove => deleteCommit
  end.

(** Calls that only read the repository. *)
Definition observes (c : Call) : bool :=
  match c with
  | Exec (MergeBaseIsAncestor _ _) | Exec DiffQuiet | Exec DiffCachedQuiet
  | Exec InProgressProbe | Exec RevParseAbbrevRefHead | Exec (RevListParents1 _)
  | Exec RevListParentsReverseHead | Exec RevListReverseHead
  | Exec (RevListReverseSince _) | Exec (RevParse _) | Exec (RevParseVerify _)
  | Exec (GitLog _ _) | GetConfiguration _ _ => true
  | _ => false
  end.

(** Replay steps: a cherry-pick or a rebase. *)
Definition replays (c : Call) : bool :=
  match c with
  | Exec (CherryPick _) | Exec (RebaseOnto _ _ _) | Exec (RebaseInteractiveRoot _) => true
  | _ => false
  end.

(** Calls that move the checkout or rewrite the checked-out files. *)
Definition touches_checkout (c : Call) : bool :=
  match c with
  | Exec (Checkout _) | Exec (ResetHard _) => true
  | c => replays c
  end.

(** The commits cherry-picked, in the order of the calls. *)
Definition picks (cs : list Call) : list string :=
  flat_map (fun c => match c with Exec (CherryPick h) => [h] | _ => [] end) cs.

(** The numbers of commits asked of [git log]. *)
Definition requested (cs : list Call) : list Z :=
  flat_map (fun c => match c with Exec (GitLog n _) => [n] | _ => [] end) cs.

(** Calls that write a reference of the backup namespace. *)
Definition writes_backup (c : Call) : bool :=
  match c with
  | Exec (UpdateRef ref _) => is_backup ref
  | _ => false
  end.

(** A property of every call a program can make, whatever the replies. *)
Fixpoint AllCalls {A : Type} (P : Call -> Prop) (p : Prog A) : Prop :=
  match p with
  | Ret _ => True
  | Vis c k => P c /\ forall r, AllCalls P (k r)
  end.

(** Puts a word in front of the first field. *)
Definition prepend (x : string) (fields : list string) : list string :=
  match fields with
  | f :: fs => (x +:+ f) :: fs
  | [] => [x]
  end.

(** The postcondition [Q] holds of the value, the final state and the log
    of the run of [p] from [w]. *)
Definition wp {W A : Type} (handle : Call -> W -> Reply * W) (p : Prog A) (w : W)
    (Q : A -> W -> list (Call * Reply) -> Prop) : Prop :=
  let '(a, w', log) := run handle p w in Q a w' log.

(** "No operation ever deletes or overwrites an existing backup
    reference": whatever a backup name points at before an operation, it
    points at afterwards. *)
Definition never_overwrites_backups : Prop :=
  forall (o : Operation) (b c : string) (r : Git.Repo) (name h : string),
    is_backup name = true -> Git.refs r !! name = Some h ->
    Git.refs (final Git.handle (engine o b c) r) !! name = Some h.

(** What an operation on [b] started in [r] may have done to the backup
    names by the time it is in [r']: only the name it makes for its own
    backup can have changed, and then it points at what [b] named in
    [r]. *)
Definition backups_kept (r : Git.Repo) (b : string) (r' : Git.Repo) : Prop :=
  (forall name, is_backup name = true -> name <> backup_name b (Git.now r) ->
                Git.refs r' !! name = Git.refs r !! name)
  /\ (Git.refs r' !! backup_name b (Git.now r) = Git.refs r !! backup_name b (Git.now r)
      \/ exists t, Git.rev_parse r b = Some t
                   /\ Git.refs r' !! backup_name b (Git.now r) = Some t).

(** ** The branch listing *)

(** [s.split('||')] *)
Fixpoint split_bars (s : string) : list string :=
  match s with
  | EmptyString => [EmptyString]
  | String a s' =>
      match s' with
      | String b rest =>
          if Ascii.eqb a "|" && Ascii.eqb b "|"
          then EmptyString :: split_bars rest
          else JS.push_char a (split_bars s')
      | EmptyString => JS.push_char a (split_bars s')
      end
  end.

(** One entry of the list [getLocalBranches] returns. *)
Record BranchInfo : Type := mkBranchInfo {
  name : string;
  current : bool
}.

(** [line => { const [name, headMarker] = line.split('||');
               return { name, current: headMarker === '*' }; }] *)
Definition parse_branch (line : string) : BranchInfo :=
  let fields := split_bars line in
  {| name := nth 0 fields EmptyString;
     current := match nth_error fields 1 with
                | Some marker => String.eqb marker "*"
                | None => false
                end |}.

(** The callback [getLocalBranches] passes to [exec] for
    [git branch --format="%(refname:short)||%(HEAD)"]: what the promise
    settles to for a reply. *)
Definition getLocalBranches_settled (r : Reply) : Settled (list BranchInfo) :=
  match error r with
  | Some message => Rejected (JS.or_else (stderr r) message)
  | None => Resolved (List.map parse_branch (JS.lines (stdout r)))
  end.

(** What [git branch] prints for the format above: a line per branch, the
    marker being a star for the branch checked out and a space for the
    others. *)
Definition branch_line (b : BranchInfo) : string :=
  name b +:+ "||" +:+ (if current b then "*" else " ") +:+ Git.nl.

Definition branch_listing (bs : list BranchInfo) : string :=
  fold_right (fun b out => branch_line b +:+ out) EmptyString bs.

(** A string without a vertical bar. *)
Fixpoint barless (s : string) : bool :=
  match s with
  | EmptyString => true
  | String a s' => negb (Ascii.eqb a "|") && barless s'
  end.

(** ** The records of [git log] *)

(** A string without the separators [\x1e] and [\x1f]. *)
Fixpoint plain (s : string) : bool :=
  match s with
  | EmptyString => true
  | String a s' => negb (Ascii.eqb a "030") && negb (Ascii.eqb a "031") && plain s'
  end.

(** What [git log --pretty=format:'%H%x1f%s%x1f%an%x1f%ad%x1e'] prints for
    a commit, and for a list of commits: the format is a separator, so a
    line feed stands between two records. *)
Definition log_entry (c : CommitInfo) : string :=
  fullHash c +:+ String "031" (default EmptyString (subject c)
  +:+ String "031" (default EmptyString (author c)
  +:+ String "031" (default EmptyString (date c)
  +:+ String "030" EmptyString))).

Definition log_output (cs : list CommitInfo) : string :=
  JS.join Git.nl (List.map log_entry cs).

(** The entries [git log] can print and [getCommits] reads back as they
    are: a tidy full hash, fields without separators, a date without
    whitespace, and the short hash being the first seven characters. *)
Definition well_formed_entry (c : CommitInfo) : bool :=
  Git.tidy (fullHash c) && plain (fullHash c)
  && String.eqb (hash c) (JS.take 7 (fullHash c))
  && match subject c, author c, date c with
     | Some s, Some a, Some d => plain s && plain a && plain d && Git.spaceless d
     | _, _, _ => false
     end.

(** ** Merges in a history *)

(** A string without a line feed or carriage return. *)
Fixpoint unbroken (s : string) : bool :=
  match s with
  | EmptyString => true
  | String a s' => negb (Ascii.eqb a "010") && negb (Ascii.eqb a "013") && unbroken s'
  end.


(** ** Orders of calls *)

(** On every path the program makes only [P] calls until it stops or makes
    an [M] call. *)
Fixpoint Until {A : Type} (P M : Call -> Prop) (p : Prog A) : Prop :=
  match p with
  | Ret _ => True
  | Vis c k => M c \/ (P c /\ forall r, Until P M (k r))
  end.

(** The references an operation on [branch] may write. *)
Definition own_ref (branch : string) (c : Call) : Prop :=
  forall ref value, c = Exec (UpdateRef ref value) ->
    ref = head_ref branch \/ exists iso, ref = backup_name branch iso.

(** Reading the repository or the clock. *)
Definition harmless (c : Call) : Prop := observes c = true \/ c = DateNow.

(** The attempt to back up [branch]. *)
Definition backs_up (branch : string) (c : Call) : Prop :=
  exists iso, c = Exec (UpdateRef (backup_name branch iso) branch).

(** A record without its closing [\x1e]. *)
Definition entry_body (c : CommitInfo) : string :=
  fullHash c +:+ String "031" (default EmptyString (subject c)
  +:+ String "031" (default EmptyString (author c)
  +:+ String "031" (default EmptyString (date c)))).


(** ** The comparison base of the commit listing *)




(** The bases in their order of preference: the configured one when it is
    set, then [main], then [master]. *)
Definition candidates (configured : string) : list string :=
  (if JS.truthy configured then [configured] else []) ++ ["main"; "master"].


(** ** Names *)

(** Letters, digits, and [-], [.], [/], [_]: characters that are not white
    space and mean nothing to the shell. *)
Definition word_char (a : ascii) : bool :=
  let n := nat_of_ascii a in
  ((48 <=? n) && (n <=? 57) || (65 <=? n) && (n <=? 90) || (97 <=? n) && (n <=? 122)
   || (n =? 45) || (n =? 46) || (n =? 47) || (n =? 95))%nat.

Fixpoint word_chars (s : string) : bool :=
  match s with
  | EmptyString => true
  | String a s' => word_char a && word_chars s'
  end.

(** A name that reaches git as the one argument it is meant to be when it
    is pasted into a command line: not empty, not starting like an
    option, made of the characters above. *)
Definition shell_word (s : string) : bool :=
  match s with
  | EmptyString => false
  | String a _ => negb (Ascii.eqb a "-") && word_chars s
  end.

(** The references other than the branch [refs/heads/<name>] that git
    finds for a bare [name]; a tag comes before the branch. *)
Definition homonyms (name : string) : list string :=
  [ name; "refs/" +:+ name; "refs/tags/" +:+ name; "refs/remotes/" +:+ name;
    "refs/remotes/" +:+ name +:+ "/HEAD" ].

(** Nothing but the branch is called [name]. *)
Definition only_branch (r : Git.Repo) (name : string) : bool :=
  forallb (fun ref => match Git.refs r !! ref with
                      | None => true
                      | Some _ => false
                      end) (homonyms name).

(** Characters of ASCII. *)
Fixpoint ascii_only (s : string) : bool :=
  match s with
  | EmptyString => true
  | String a s' => (nat_of_ascii a <? 128)%nat && ascii_only s'
  end.

(** The answers that the operations trim and split are in ASCII, as
    hashes are and most names: there the white space of JavaScript is the
    six characters of [JS.is_space]. *)
Definition answers_in_ascii (log : list (Call * Reply)) : bool :=
  forallb (fun answered => implb (observes (fst answered))
                                 (ascii_only (stdout (snd answered)))) log.

(** The operations on which the model answers as git does: the branch and
    the commit are named by shell words, the branch names, of the
    operation and of the checkout, are the names of nothing else, and the
    name of the checkout is in ASCII. *)
Definition plainly_named (r : Git.Repo) (branch commit : string) : bool :=
  shell_word branch && shell_word commit
  && only_branch r branch && only_branch r (Git.HEAD r)
  && ascii_only (Git.HEAD r).

(** ** The statements in the words of the specification *)

(** In the words of the specification: "every commit in that range except
    the target, in original order, with the target appended last". *)
Definition target_last (target : string) (range : list string) : list string :=
  List.remove string_dec target range ++ [target].

(** ** Calls by kind *)

(** The checks both operations start with. *)
Definition is_check (branch commit : string) (c : Call) : Prop :=
  c = Exec (MergeBaseIsAncestor commit branch) \/ c = Exec DiffQuiet
  \/ c = Exec DiffCachedQuiet \/ c = Exec InProgressProbe.

(** The last command of the fast path of [deleteCommit]. *)
Definition drop_tip (branch parent : string) (headRead : Reply) : Cmd :=
  if String.eqb (JS.trim (stdout headRead)) branch
  then ResetHard parent
  else UpdateRef (head_ref branch) parent.

(** Calls that move no branch: reading, the clock, writing a backup
    reference, switching the checkout. *)
Definition moves_no_branch (c : Call) : Prop :=
  observes c = true \/ c = DateNow \/ writes_backup c = true
  \/ exists name, c = Exec (Checkout name).

(** Calls that leave the checkout, the working files and the index alone:
    reading, the clock, writing a reference. *)
Definition leaves_checkout (c : Call) : Prop :=
  observes c = true \/ c = DateNow \/ exists ref value, c = Exec (UpdateRef ref value).

(** A reset or a replay step. *)
Definition resets_or_replays (c : Call) : bool :=
  match c with
  | Exec (ResetHard _) => true
  | c => replays c
  end.

(** Every switch of the checkout made in a run succeeded. *)
Definition switches_succeeded (log : list (Call * Reply)) : Prop :=
  forall name reply, In (Exec (Checkout name), reply) log -> error reply = None.

(** A test command ran and printed no [needle]. *)
Definition silent (needle : string) (reply : Reply) : bool :=
  match error reply with
  | None => negb (JS.includes needle (stdout reply))
  | Some _ => false
  end.

(** What [git rev-list --parents] prints: a line per commit with its hash
    and the hashes of its parents. *)
Definition parents_line (entry : string * list string) : string :=
  JS.join " " (fst entry :: snd entry) +:+ Git.nl.

Definition parents_listing (entries : list (string * list string)) : string :=
  fold_right (fun e out => parents_line e +:+ out) EmptyString entries.

(** ** Scenarios *)

Module Scenario.
Import Git.

Definition stamp : string := "2026-11-02T15:44:00.123Z".

(** Branch [feature] = A(root) -> B -> C -> D(tip); branch [main] at A. *)
Definition feature_repo (head : string) : Repo :=
  {| commits := list_to_map (chain [] [("A", "a"); ("B", "b"); ("C", "c"); ("D", "d")]);
     refs := list_to_map [("refs/heads/feature", "D"); ("refs/heads/main", "A")];
     HEAD := head;
     checked_out := if String.eqb head "main" then "A" else "D";
     dirtyWc := false; dirtyIdx := false; pending := Idle; conflicting := [];
     clock := [stamp]; files := ∅; compareBase := EmptyString |}.

(** The same with an unstaged modification in the working files. *)
Definition dirty_repo : Repo := with_tree "D" true false (feature_repo "feature").

(** Branch [feature] = A(root) -> B -> R -> B2(tip), where B2 carries the
    change of B once more; it is checked out. *)
Definition twice_repo : Repo :=
  {| commits := list_to_map (chain [] [("A", "a"); ("B", "b"); ("R", "r"); ("B2", "b")]);
     refs := list_to_map [("refs/heads/feature", "B2")];
     HEAD := "feature"; checked_out := "B2";
     dirtyWc := false; dirtyIdx := false; pending := Idle; conflicting := [];
     clock := [stamp]; files := ∅; compareBase := EmptyString |}.

(** The replies of a replay whose first step finds nothing left to apply,
    and of one whose first step stops on a conflict. *)
Definition empty_then_fine : list Reply :=
  [failed command_failed empty_pick_text; ok EmptyString; ok EmptyString].

Definition conflict_then_fine : list Reply :=
  [failed command_failed (conflict_text "C"); ok EmptyString; ok EmptyString].

(** Branch [main], checked out, ends in the merge M of B and X, both
    children of the root A; branch [solo] consists of the single root
    commit S. *)
Definition merge_repo : Repo :=
  {| commits := list_to_map [ ("A", mkCommit [] "a"); ("B", mkCommit ["A"] "b");
                              ("X", mkCommit ["A"] "x"); ("M", mkCommit ["B"; "X"] "m");
                              ("S", mkCommit [] "s") ];
     refs := list_to_map [("refs/heads/main", "M"); ("refs/heads/solo", "S")];
     HEAD := "main"; checked_out := "M";
     dirtyWc := false; dirtyIdx := false; pending := Idle; conflicting := [];
     clock := [stamp]; files := ∅; compareBase := EmptyString |}.

(** The same with [solo] checked out. *)
Definition merge_repo_on_solo : Repo :=
  with_tree "S" false false (with_HEAD "solo" merge_repo).

(** The feature scenario with a clock that shows the same time twice. *)
Definition stalled_clock_repo : Repo :=
  with_clock [stamp; stamp] (feature_repo "feature").

Definition checkout_refused : string :=
  "error: Your local changes to the following files would be overwritten by checkout" +:+ nl.

(** [makeHead feature B] asked while [main] is checked out: replaying C
    stops on a conflict, and switching back to [main] is refused. *)
Definition masking_replies : list Reply :=
  [ ok EmptyString;                              (* merge-base --is-ancestor B feature *)
    ok EmptyString; ok EmptyString; ok EmptyString;   (* diff, diff --cached, markers *)
    ok stamp;                                    (* the clock *)
    ok EmptyString;                              (* update-ref <backup> feature *)
    ok ("main" +:+ nl);                          (* rev-parse --abbrev-ref HEAD *)
    ok EmptyString;                              (* checkout feature *)
    ok ("B A" +:+ nl);                           (* rev-list --parents -n 1 B *)
    ok ("B" +:+ nl +:+ "C" +:+ nl +:+ "D" +:+ nl);   (* rev-list --reverse A..HEAD *)
    ok EmptyString;                              (* reset --hard A *)
    failed command_failed (conflict_text "C");   (* cherry-pick C *)
    ok EmptyString;                              (* cherry-pick --abort *)
    ok EmptyString;                              (* update-ref refs/heads/feature <backup> *)
    failed command_failed checkout_refused ].    (* checkout main *)

(** [deleteCommit feature A] asked while [main] is checked out: the root
    rewrite stops on a conflict, and switching back to [main] is refused. *)
Definition swallowing_replies : list Reply :=
  [ ok EmptyString;                              (* merge-base --is-ancestor A feature *)
    ok EmptyString; ok EmptyString; ok EmptyString;   (* diff, diff --cached, markers *)
    ok ("A" +:+ nl);                             (* rev-list --parents -n 1 A *)
    ok stamp;                                    (* the clock *)
    ok EmptyString;                              (* update-ref <backup> feature *)
    ok ("A" +:+ nl);                             (* rev-list --parents --reverse HEAD *)
    ok ("main" +:+ nl);                          (* rev-parse --abbrev-ref HEAD *)
    ok EmptyString;                              (* checkout feature *)
    ok ("A" +:+ nl +:+ "B" +:+ nl +:+ "C" +:+ nl +:+ "D" +:+ nl);   (* rev-list --reverse HEAD *)
    ok "/tmp/git-dnd-k3Xw9a";                    (* mkdtemp *)
    ok EmptyString; ok EmptyString;              (* todo.txt, editor.sh *)
    failed command_failed (conflict_text "C");   (* rebase -i --root *)
    ok EmptyString;                              (* rebase --abort *)
    ok EmptyString;                              (* update-ref refs/heads/feature <backup> *)
    ok EmptyString;                              (* rm *)
    ok ("feature" +:+ nl);                       (* rev-parse --abbrev-ref HEAD *)
    failed command_failed checkout_refused ].    (* checkout main *)

(** The feature scenario with tags on B and on D. *)
Definition tagged_repo (head : string) : Repo :=
  with_refs (<["refs/tags/vB" := "B"]> (<["refs/tags/vD" := "D"]> (refs (feature_repo head))))
            (feature_repo head).

(** Full hashes for A, B, C and D, and the abbreviations of B and D. *)
Definition hash_A : string := "6dcd4ce23d88e2ee9568ba546c007c63d9131c1b".
Definition hash_B : string := "ae4f281df5a5d0ff3cad6371f76d5c29b6d953ec".
Definition hash_C : string := "32096c2e0eff33d844ee6d675407ace18289357d".
Definition hash_D : string := "50c9e8d5fc98727b4bbc93cf5d64a68db647f04f".
Definition short_B : string := JS.take 7 hash_B.
Definition short_D : string := JS.take 7 hash_D.

(** [makeHead feature <short_B>] with [feature] checked out, as git
    answers it: the abbreviation passes the ancestry test, the listings
    print full hashes, and the last cherry-pick, of B once more, finds
    nothing left to apply. *)
Definition abbreviated_reposition_replies : list Reply :=
  [ ok EmptyString;                              (* merge-base --is-ancestor <short_B> feature *)
    ok EmptyString; ok EmptyString; ok EmptyString;   (* diff, diff --cached, markers *)
    ok stamp;                                    (* the clock *)
    ok EmptyString;                              (* update-ref <backup> feature *)
    ok ("feature" +:+ nl);                       (* rev-parse --abbrev-ref HEAD *)
    ok (hash_B +:+ " " +:+ hash_A +:+ nl);       (* rev-list --parents -n 1 <short_B> *)
    ok (hash_B +:+ nl +:+ hash_C +:+ nl +:+ hash_D +:+ nl);   (* rev-list --reverse <hash_A>..HEAD *)
    ok ("HEAD is now at " +:+ JS.take 7 hash_A +:+ " a" +:+ nl);   (* reset --hard <hash_A> *)
    ok EmptyString; ok EmptyString; ok EmptyString;   (* cherry-pick B, C, D *)
    failed command_failed empty_pick_text;       (* cherry-pick <short_B> *)
    ok EmptyString ].                            (* cherry-pick --skip *)

(** [deleteCommit feature <short_D>] with the branch [head] checked out,
    as git answers it. *)
Definition abbreviated_removal_replies (head : string) : list Reply :=
  [ ok EmptyString;                              (* merge-base --is-ancestor <short_D> feature *)
    ok EmptyString; ok EmptyString; ok EmptyString;   (* diff, diff --cached, markers *)
    ok (hash_D +:+ " " +:+ hash_C +:+ nl);       (* rev-list --parents -n 1 <short_D> *)
    ok stamp;                                    (* the clock *)
    ok EmptyString;                              (* update-ref <backup> feature *)
    ok (hash_D +:+ nl);                          (* rev-parse feature *)
    ok (head +:+ nl);                            (* rev-parse --abbrev-ref HEAD *)
    ok EmptyString ].                            (* rebase --onto <hash_C> <short_D> [feature] *)

Definition untracked_in_the_way : string :=
  "error: The following untracked working tree files would be overwritten by checkout:" +:+ nl.

(** [makeHead feature M] asked while [main] is checked out, the switch to
    [feature] being refused. *)
Definition refused_switch_replies : list Reply :=
  [ ok EmptyString;                              (* merge-base --is-ancestor M feature *)
    ok EmptyString; ok EmptyString; ok EmptyString;   (* diff, diff --cached, markers *)
    ok stamp;                                    (* the clock *)
    ok EmptyString;                              (* update-ref <backup> feature *)
    ok ("main" +:+ nl);                          (* rev-parse --abbrev-ref HEAD *)
    failed command_failed untracked_in_the_way ].   (* checkout feature *)

(** [makeHead feature B] asked with [feature] checked out: replaying C
    stops on a conflict. *)
Definition conflict_replies : list Reply :=
  [ ok EmptyString;                              (* merge-base --is-ancestor B feature *)
    ok EmptyString; ok EmptyString; ok EmptyString;   (* diff, diff --cached, markers *)
    ok stamp;                                    (* the clock *)
    ok EmptyString;                              (* update-ref <backup> feature *)
    ok ("feature" +:+ nl);                       (* rev-parse --abbrev-ref HEAD *)
    ok ("B A" +:+ nl);                           (* rev-list --parents -n 1 B *)
    ok ("B" +:+ nl +:+ "C" +:+ nl +:+ "D" +:+ nl);   (* rev-list --reverse A..HEAD *)
    ok EmptyString;                              (* reset --hard A *)
    failed command_failed (conflict_text "C");   (* cherry-pick C *)
    ok EmptyString;                              (* cherry-pick --abort *)
    ok EmptyString ].                            (* update-ref refs/heads/feature <backup> *)

End Scenario.

(** * Properties *)

(** ** Running programs *)

Section RunFacts.
Context {W : Type} (handle : Call -> W -> Reply * W).

Lemma run_pbind {A B : Type} (p : Prog A) (f : A -> Prog B) (w : W) :
    run handle (pbind p f) w =
    let '(a, w1, l1) := run handle p w in
    let '(b, w2, l2) := run handle (f a) w1 in
    (b, w2, l1 ++ l2).
Proof.
    revert w. induction p as [a | c k IH]; intros w; simpl.
    - destruct (run handle (f a) w) as [[b w2] l2]. reflexivity.
    - destruct (handle c w) as [r w1]. rewrite IH.
      destruct (run handle (k r) w1) as [[a w2] l1].
      destruct (run handle (f a) w2) as [[b w3] l2]. reflexivity.
Qed.

Lemma run_step {A : Type} (c : Call) (k : Reply -> Prog A) (w w1 w2 : W)
      (r : Reply) (a : A) (l : list (Call * Reply)) :
    handle c w = (r, w1) ->
    run handle (k r) w1 = (a, w2, l) ->
    run handle (Vis c k) w = (a, w2, (c, r) :: l).
Proof. intros H1 H2. simpl. rewrite H1, H2. reflexivity. Qed.

Lemma outcome_pbind {A B : Type} (p : Prog A) (f : A -> Prog B) (w : W) :
    outcome handle (pbind p f) w =
    outcome handle (f (outcome handle p w)) (final handle p w).
Proof.
    unfold outcome, final. rewrite run_pbind.
    destruct (run handle p w) as [[a w1] l1]. simpl.
    destruct (run handle (f a) w1) as [[b w2] l2]. reflexivity.
Qed.

Lemma final_pbind {A B : Type} (p : Prog A) (f : A -> Prog B) (w : W) :
    final handle (pbind p f) w =
    final handle (f (outcome handle p w)) (final handle p w).
Proof.
    unfold outcome, final. rewrite run_pbind.
    destruct (run handle p w) as [[a w1] l1]. simpl.
    destruct (run handle (f a) w1) as [[b w2] l2]. reflexivity.
Qed.

Lemma calls_pbind {A B : Type} (p : Prog A) (f : A -> Prog B) (w : W) :
    calls handle (pbind p f) w =
    calls handle p w ++ calls handle (f (outcome handle p w)) (final handle p w).
Proof.
    unfold calls, outcome, final. rewrite run_pbind.
    destruct (run handle p w) as [[a w1] l1]. simpl.
    destruct (run handle (f a) w1) as [[b w2] l2]. simpl.
    apply map_app.
Qed.

Lemma run_andThen_rejected {A B : Type} (p : Promise A) (f : A -> Promise B)
    (w : W) (e : string) :
  outcome handle p w = Rejected e ->
  run handle (andThen p f) w = (Rejected e, final handle p w, snd (run handle p w)).
Proof.
  unfold outcome, final, andThen. rewrite run_pbind.
  destruct (run handle p w) as [[s w1] l]. simpl. intros ->. simpl.
  rewrite app_nil_r. reflexivity.
Qed.

Lemma run_andThen_resolved {A B : Type} (p : Promise A) (f : A -> Promise B)
    (w w1 : W) (a : A) (l : list (Call * Reply)) :
  run handle p w = (Resolved a, w1, l) ->
  run handle (andThen p f) w =
  let '(b, w2, l2) := run handle (f a) w1 in (b, w2, l ++ l2).
Proof. intros H. unfold andThen. rewrite run_pbind, H. reflexivity. Qed.

Lemma AllCalls_calls {A : Type} (P : Call -> Prop) (p : Prog A) (w : W) :
    AllCalls P p -> Forall P (calls handle p w).
Proof.
    revert w. induction p as [a | c k IH]; intros w HP; unfold calls; simpl.
    - constructor.
    - destruct HP as [Hc Hk]. destruct (handle c w) as [r w1].
      specialize (IH r w1 (Hk r)). unfold calls in IH.
      destruct (run handle (k r) w1) as [[a w2] l]. simpl in *.
      constructor; assumption.
Qed.

  (** An invariant kept by every call a program can make is kept by its
      runs. *)
Lemma AllCalls_invariant {A : Type} (P : Call -> Prop) (I : W -> Prop)
      (p : Prog A) (w : W) :
    (forall c v, P c -> I v -> I (snd (handle c v))) ->
    AllCalls P p -> I w -> I (final handle p w).
Proof.
    intros Hstep. revert w. induction p as [a | c k IH]; intros w HP Hw.
    - exact Hw.
    - destruct HP as [Hc Hk]. unfold final. simpl.
      specialize (Hstep c w Hc Hw).
      destruct (handle c w) as [r w1]. simpl in Hstep.
      specialize (IH r w1 (Hk r) Hstep). unfold final in IH.
      destruct (run handle (k r) w1) as [[a w2] l]. exact IH.
Qed.
Lemma wp_ret {A : Type} (a : A) (w : W) (Q : A -> W -> list (Call * Reply) -> Prop) :
  Q a w [] -> wp handle (Ret a) w Q.
Proof. intros H. exact H. Qed.

Lemma wp_vis {A : Type} (c : Call) (k : Reply -> Prog A) (w w1 : W) (r : Reply)
    (Q : A -> W -> list (Call * Reply) -> Prop) :
  handle c w = (r, w1) ->
  wp handle (k r) w1 (fun a w' log => Q a w' ((c, r) :: log)) ->
  wp handle (Vis c k) w Q.
Proof.
  unfold wp. intros H1 H2. simpl. rewrite H1.
  destruct (run handle (k r) w1) as [[a w2] log]. exact H2.
Qed.

Lemma wp_pbind {A B : Type} (p : Prog A) (f : A -> Prog B) (w : W)
    (Q : B -> W -> list (Call * Reply) -> Prop) :
  wp handle p w (fun a w1 l1 =>
    wp handle (f a) w1 (fun b w2 l2 => Q b w2 (l1 ++ l2))) ->
  wp handle (pbind p f) w Q.
Proof.
  unfold wp. rewrite run_pbind.
  destruct (run handle p w) as [[a w1] l1].
  destruct (run handle (f a) w1) as [[b w2] l2]. trivial.
Qed.

Lemma wp_elim {A : Type} (p : Prog A) (w : W)
    (Q : A -> W -> list (Call * Reply) -> Prop) :
  wp handle p w Q ->
  Q (outcome handle p w) (final handle p w) (snd (run handle p w)).
Proof.
  unfold wp, outcome, final.
  destruct (run handle p w) as [[a w1] l]. trivial.
Qed.

Lemma wp_intro {A : Type} (p : Prog A) (w : W)
    (Q : A -> W -> list (Call * Reply) -> Prop) :
  Q (outcome handle p w) (final handle p w) (snd (run handle p w)) ->
  wp handle p w Q.
Proof.
  unfold wp, outcome, final.
  destruct (run handle p w) as [[a w1] l]. trivial.
Qed.

(** Whatever the environment answers to the first call. *)
Lemma wp_ask {A : Type} (c : Call) (k : Reply -> Prog A) (w : W)
    (Q : A -> W -> list (Call * Reply) -> Prop) :
  (forall reply w1,
      wp handle (k reply) w1 (fun a w' log => Q a w' ((c, reply) :: log))) ->
  wp handle (Vis c k) w Q.
Proof.
  intros H. destruct (handle c w) as [reply w1] eqn:E.
  eapply wp_vis; [exact E | apply H].
Qed.

Lemma wp_any {A : Type} (p : Prog A) (w : W)
    (Q : A -> W -> list (Call * Reply) -> Prop) :
  (forall a w' log, Q a w' log) -> wp handle p w Q.
Proof. intros H. apply wp_intro, H. Qed.

(** A run of a program that can only make [P] calls. *)
Lemma wp_without {A : Type} (P : Call -> Prop) (p : Prog A) (w : W)
    (Q : A -> W -> list (Call * Reply) -> Prop) :
  AllCalls P p ->
  (forall a w' log, List.Forall (fun cr => P (fst cr)) log -> Q a w' log) ->
  wp handle p w Q.
Proof.
  intros Hp HQ. apply wp_intro, HQ.
  apply Forall_map. apply AllCalls_calls, Hp.
Qed.

(** What every call made in a run leaves unchanged is unchanged by the
    run. *)
Lemma run_frame {A X : Type} (f : W -> X) (P : Call -> Prop) (p : Prog A) (w : W) :
  (forall c v, P c -> f (snd (handle c v)) = f v) ->
  List.Forall P (calls handle p w) -> f (final handle p w) = f w.
Proof.
  intros Hstep. revert w. induction p as [a | c k IH]; intros w; [reflexivity |].
  unfold calls, final. simpl. specialize (Hstep c w).
  destruct (handle c w) as [reply w1]. specialize (IH reply w1).
  unfold calls, final in IH.
  destruct (run handle (k reply) w1) as [[a w2] l]. simpl in *.
  intros H. inversion H as [| ? ? Hc Hl]; subst.
  rewrite (IH Hl). apply Hstep, Hc.
Qed.
End RunFacts.

(** ** What the programs can call *)

Lemma AllCalls_pbind {A B : Type} (P : Call -> Prop) (p : Prog A) (f : A -> Prog B) :
  AllCalls P p -> (forall a, AllCalls P (f a)) -> AllCalls P (pbind p f).
Proof.
  intros Hp Hf. induction p as [a | c k IH]; simpl.
  - apply Hf.
  - destruct Hp as [Hc Hk]. split; [exact Hc |]. intros r. apply IH, Hk.
Qed.

Lemma AllCalls_weaken {A : Type} (P Q : Call -> Prop) (p : Prog A) :
  (forall c, P c -> Q c) -> AllCalls P p -> AllCalls Q p.
Proof.
  intros HPQ. induction p as [a | c k IH]; simpl; [trivial |].
  intros [Hc Hk]. split; [auto |]. intros r. apply IH, Hk.
Qed.

Lemma AllCalls_andThen {A B : Type} (P : Call -> Prop) (p : Promise A)
    (f : A -> Promise B) :
  AllCalls P p -> (forall a, AllCalls P (f a)) -> AllCalls P (andThen p f).
Proof.
  intros Hp Hf. apply AllCalls_pbind; [exact Hp |].
  intros [a | e]; [apply Hf | exact I].
Qed.

Lemma AllCalls_catch {A : Type} (P : Call -> Prop) (p : Promise A)
    (h : string -> Promise A) :
  AllCalls P p -> (forall e, AllCalls P (h e)) -> AllCalls P (catch p h).
Proof.
  intros Hp Hh. apply AllCalls_pbind; [exact Hp |].
  intros [a | e]; [exact I | apply Hh].
Qed.

Lemma AllCalls_finally {A : Type} (P : Call -> Prop) (p : Promise A)
    (f : Promise unit) :
  AllCalls P p -> AllCalls P f -> AllCalls P (finally p f).
Proof.
  intros Hp Hf. apply AllCalls_pbind; [exact Hp |].
  intros s. apply AllCalls_pbind; [exact Hf |].
  intros [u | e]; exact I.
Qed.

Lemma AllCalls_swallow {A : Type} (P : Call -> Prop) (p : Promise A) :
  AllCalls P p -> AllCalls P (swallow p).
Proof. intros Hp. apply AllCalls_pbind; [exact Hp | intros; exact I]. Qed.

Lemma AllCalls_execPromise (P : Call -> Prop) (c : Cmd) :
  P (Exec c) -> AllCalls P (execPromise c).
Proof.
  intros Hc. split; [exact Hc |]. intros r. simpl.
  destruct (error r); exact I.
Qed.

Lemma AllCalls_sync (P : Call -> Prop) (c : Call) :
  P c -> AllCalls P (sync c).
Proof.
  intros Hc. split; [exact Hc |]. intros r. simpl.
  destruct (error r); exact I.
Qed.

Lemma AllCalls_test_or_true (P : Call -> Prop) (needle : string) (p : Promise string) :
  AllCalls P p -> AllCalls P (test_or_true needle p).
Proof.
  intros Hp. apply AllCalls_pbind; [exact Hp |]. intros [out | e]; exact I.
Qed.

(** Breaks a program down to its calls. *)
Ltac footprint :=
  repeat match goal with
    | |- AllCalls _ (andThen _ _) => apply AllCalls_andThen; [| intros ?]
    | |- AllCalls _ (catch _ _) => apply AllCalls_catch; [| intros ?]
    | |- AllCalls _ (finally _ _) => apply AllCalls_finally
    | |- AllCalls _ (swallow _) => apply AllCalls_swallow
    | |- AllCalls _ (test_or_true _ _) => apply AllCalls_test_or_true
    | |- AllCalls _ (execPromise _) => apply AllCalls_execPromise
    | |- AllCalls _ (sync _) => apply AllCalls_sync
    | |- AllCalls _ (pbind _ _) => apply AllCalls_pbind; [| intros ?]
    | |- AllCalls _ (Vis _ _) => split; [| intros ?]
    | |- AllCalls _ (Ret _) => exact I
    | |- AllCalls _ (resolve _) => exact I
    | |- AllCalls _ (reject _) => exact I
    | |- AllCalls _ (perform _) => split; [| intros ?; exact I]
    | |- AllCalls _ (if ?b then _ else _) => destruct b
    | |- AllCalls _ (match ?x with _ => _ end) => destruct x
    | |- AllCalls _ (let _ := _ in _) => cbv zeta
    end.

(** ** The commit listing *)

Lemma requested_none (cs : list Call) :
  Forall (fun c => forall n range, c <> Exec (GitLog n range)) cs -> requested cs = [].
Proof.
  induction 1 as [| c cs Hc _ IH]; [reflexivity |].
  unfold requested in *. simpl. rewrite IH.
  destruct c as [[] | | | | |]; try reflexivity.
  exfalso. eapply Hc. reflexivity.
Qed.

Lemma requested_app (a b : list Call) :
  requested (a ++ b) = requested a ++ requested b.
Proof. apply flat_map_app. Qed.

Lemma configured_base_calls :
  AllCalls (fun c => forall n range, c <> Exec (GitLog n range)) configured_base.
Proof. unfold configured_base. footprint; intros; discriminate. Qed.

Lemma fallback_base_calls (base : option string) (candidates : list string) :
  AllCalls (fun c => forall n range, c <> Exec (GitLog n range))
           (fallback_base base candidates).
Proof.
  revert base. induction candidates as [| c cs IH]; intros base;
    cbn [fallback_base].
  - exact I.
  - destruct base; [apply IH |]. footprint; try apply IH. intros; discriminate.
Qed.

(** C9: whatever the environment answers and whatever integer [limit] is,
    [getCommits] asks [git log] exactly once, for
    [max(1, min(500, limit))] commits, a number between 1 and 500. *)
Theorem getCommits_requests_clamped_limit :
  forall (W : Type) (handle : Call -> W -> Reply * W) (w : W)
         (ref : string) (limit : Z),
    requested (calls handle (getCommits ref limit) w) = [Z.max 1 (Z.min 500 limit)]
    /\ (1 <= Z.max 1 (Z.min 500 limit) <= 500)%Z.
Proof.
  intros W handle w ref limit. split; [| lia].
  unfold getCommits. rewrite !calls_pbind, !requested_app.
  rewrite (requested_none (calls handle configured_base w))
    by (apply AllCalls_calls, configured_base_calls).
  rewrite (requested_none (calls handle (fallback_base _ _) _))
    by (apply AllCalls_calls, fallback_base_calls).
  unfold calls. simpl.
  destruct (handle _ _) as [r w1]. simpl.
  destruct (error r); reflexivity.
Qed.

(** ** The checks come first *)

Lemma ensureCleanState_observes :
  AllCalls (fun c => observes c = true) ensureCleanState.
Proof. unfold ensureCleanState. footprint; reflexivity. Qed.

(** In the model, a call that only reads leaves the repository as it is. *)
Lemma observes_frame (c : Call) (r : Git.Repo) :
  observes c = true -> snd (Git.handle c r) = r.
Proof.
  destruct c as [g | | | | |]; try discriminate; [| reflexivity].
  destruct g; try discriminate; intros _; simpl;
    unfold Git.git_merge_base, Git.git_diff, Git.git_diff_cached, Git.probe,
      Git.git_rev_list_parents1, Git.git_rev_list_head, Git.git_rev_list_since,
      Git.git_rev_parse, Git.git_log;
    repeat case_match; reflexivity.
Qed.

Lemma observing_run_frame {A : Type} (p : Prog A) (r : Git.Repo) :
  AllCalls (fun c => observes c = true) p -> final Git.handle p r = r.
Proof.
  intros Hp.
  apply (AllCalls_invariant Git.handle (fun c => observes c = true) (fun v => v = r));
    [| exact Hp | reflexivity].
  intros c v Hc ->. apply observes_frame, Hc.
Qed.

Section ChecksFirst.
Context {W : Type} (handle : Call -> W -> Reply * W).
Variables (o : Operation) (b c : string) (w w1 : W) (r : Reply).
Hypothesis asked : handle (Exec (MergeBaseIsAncestor c b)) w = (r, w1).

Lemma ancestry_failure_stops :
  error r <> None ->
  run handle (engine o b c) w =
  (Rejected (not_reachable_message c b), w1, [(Exec (MergeBaseIsAncestor c b), r)]).
Proof.
  intros Herr. destruct (error r) as [m |] eqn:E; [| congruence].
  destruct o; simpl; rewrite asked, E; reflexivity.
Qed.

Lemma precondition_failure_stops (e : string) :
  error r = None ->
  outcome handle ensureCleanState w1 = Rejected e ->
  run handle (engine o b c) w =
  (Rejected e, final handle ensureCleanState w1,
   (Exec (MergeBaseIsAncestor c b), r) :: snd (run handle ensureCleanState w1)).
Proof.
  intros E Hfail.
  assert (Hfirst : run handle
            (catch (execPromise (MergeBaseIsAncestor c b))
                   (fun _ => reject (not_reachable_message c b))) w
          = (Resolved (stdout r), w1, [(Exec (MergeBaseIsAncestor c b), r)])).
  { simpl. rewrite asked, E. reflexivity. }
  destruct o; unfold engine, makeHead, deleteCommit;
    rewrite (run_andThen_resolved handle _ _ _ _ _ _ Hfirst);
    rewrite (run_andThen_rejected handle _ _ _ _ Hfail); reflexivity.
Qed.
End ChecksFirst.

Lemma model_precondition_failure (r : Git.Repo) :
  Git.mutation_safe r = false ->
  exists e, outcome Git.handle ensureCleanState r = Rejected e.
Proof.
  unfold Git.mutation_safe, Git.idle, outcome. intros H. simpl.
  destruct (Git.dirtyWc r); simpl.
  - destruct (Git.dirtyIdx r); simpl; eauto.
  - destruct (Git.dirtyIdx r); simpl; [eauto |].
    destruct (Git.pending r); simpl in *; eauto; discriminate.
Qed.

Lemma model_ancestry (r : Git.Repo) (c b : string) :
  Git.handle (Exec (MergeBaseIsAncestor c b)) r =
  (if Git.reachable r c b then ok EmptyString
   else fst (Git.handle (Exec (MergeBaseIsAncestor c b)) r), r)
  /\ (Git.reachable r c b = false ->
      error (fst (Git.handle (Exec (MergeBaseIsAncestor c b)) r)) <> None).
Proof.
  simpl. unfold Git.git_merge_base, Git.reachable.
  destruct (Git.rev_parse r c), (Git.rev_parse r b); simpl;
    try (split; [reflexivity | discriminate]).
  destruct (Git.is_ancestor r s s0); split; try reflexivity; discriminate.
Qed.

(** C4: when the ancestry test fails (the commit is not reachable, or the
    test command itself errors) or [ensureCleanState] fails (dirty working
    tree or index, or an operation in progress), [makeHead] and
    [deleteCommit] fail at once.  For every environment the run stops
    there, having made only the read-only test calls; on the repository
    model the repository is left exactly as it was: no backup reference,
    no checkout switch, no branch moved. *)
Theorem checks_fail_before_any_side_effect :
  (forall (W : Type) (handle : Call -> W -> Reply * W) (o : Operation)
          (b c : string) (w w1 : W) (r : Reply),
      handle (Exec (MergeBaseIsAncestor c b)) w = (r, w1) ->
      (error r <> None ->
       run handle (engine o b c) w =
       (Rejected (not_reachable_message c b), w1,
        [(Exec (MergeBaseIsAncestor c b), r)]))
      /\ (forall e, error r = None ->
          outcome handle ensureCleanState w1 = Rejected e ->
          run handle (engine o b c) w =
          (Rejected e, final handle ensureCleanState w1,
           (Exec (MergeBaseIsAncestor c b), r) :: snd (run handle ensureCleanState w1))
          /\ Forall (fun c => observes c = true) (calls handle ensureCleanState w1)))
  /\ (forall (o : Operation) (b c : string) (r : Git.Repo),
      Git.reachable r c b = false \/ Git.mutation_safe r = false ->
      (exists e, outcome Git.handle (engine o b c) r = Rejected e)
      /\ final Git.handle (engine o b c) r = r
      /\ Forall (fun c => observes c = true) (calls Git.handle (engine o b c) r)).
Proof.
  split.
  - intros W handle o b c w w1 r Hask. split.
    + apply ancestry_failure_stops, Hask.
    + intros e E Hfail. split.
      * apply precondition_failure_stops; assumption.
      * apply AllCalls_calls, ensureCleanState_observes.
  - intros o b c r Hfail.
    destruct (model_ancestry r c b) as [Hask Herr].
    destruct (Git.reachable r c b) eqn:Hreach.
    + destruct Hfail as [Hfail | Hfail]; [discriminate |].
      destruct (model_precondition_failure r Hfail) as [e He].
      pose proof (precondition_failure_stops Git.handle o b c r r _ Hask e
                    eq_refl He) as Hrun.
      split; [| split].
      * exists e. unfold outcome. rewrite Hrun. reflexivity.
      * unfold final at 1. rewrite Hrun. cbn [fst snd].
        apply observing_run_frame, ensureCleanState_observes.
      * unfold calls. rewrite Hrun. cbn [fst snd map].
        constructor; [reflexivity |].
        apply (AllCalls_calls Git.handle), ensureCleanState_observes.
    + pose proof (ancestry_failure_stops Git.handle o b c r r _ Hask
                    (Herr eq_refl)) as Hrun.
      split; [| split].
      * eexists. unfold outcome. rewrite Hrun. reflexivity.
      * unfold final. rewrite Hrun. reflexivity.
      * unfold calls. rewrite Hrun. cbn [fst snd map].
        constructor; [reflexivity | constructor].
Qed.

(** On a dirty working tree [deleteCommit] changes nothing; asked about a
    commit the repository does not have, the ancestry test itself errors
    and [makeHead] stops after that one call. *)
Lemma checks_fail_witness :
  Git.mutation_safe Scenario.dirty_repo = false
  /\ final Git.handle (deleteCommit "feature" "D") Scenario.dirty_repo
     = Scenario.dirty_repo
  /\ calls Git.handle (makeHead "feature" "Z") (Scenario.feature_repo "main")
     = [Exec (MergeBaseIsAncestor "Z" "feature")].
Proof.
  split; [reflexivity |]. split.
  - apply (proj2 checks_fail_before_any_side_effect Remove "feature" "D"
             Scenario.dirty_repo).
    right. reflexivity.
  - pose proof (proj1 (proj1 checks_fail_before_any_side_effect
             Git.Repo Git.handle Reposition "feature" "Z"
             (Scenario.feature_repo "main") (Scenario.feature_repo "main")
             (fst (Git.handle (Exec (MergeBaseIsAncestor "Z" "feature"))
                              (Scenario.feature_repo "main")))
             eq_refl)) as H.
    cbn [engine] in H. unfold calls. rewrite H; [reflexivity |]. discriminate.
Defined.

(** ** The replay loop *)

Section ReplayStep.
Context {W : Type} (handle : Call -> W -> Reply * W).
Variables (branch backupRef h : string) (rest : list string).
Variables (w w1 : W) (r : Reply) (message : string).
Hypothesis picked : handle (Exec (CherryPick h)) w = (r, w1).
Hypothesis refused : error r = Some message.

Lemma replay_skips_empty :
  now_empty (error_text (JS.or_else (stderr r) message)) = true ->
  run handle (replay branch backupRef (h :: rest)) w =
  let '(r2, w2) := handle (Exec CherryPickSkip) w1 in
  let '(res, w3, log) := run handle (replay branch backupRef rest) w2 in
  (res, w3, (Exec (CherryPick h), r) :: (Exec CherryPickSkip, r2) :: log).
Proof.
  intros Hempty. simpl. rewrite picked, refused. simpl. rewrite Hempty. simpl.
  destruct (handle (Exec CherryPickSkip) w1) as [r2 w2].
  destruct (error r2); simpl;
    destruct (run handle (replay branch backupRef rest) w2) as [[res w3] log];
    reflexivity.
Qed.

Lemma replay_rolls_back :
  now_empty (error_text (JS.or_else (stderr r) message)) = false ->
  run handle (replay branch backupRef (h :: rest)) w =
  let '(ra, wa) := handle (Exec CherryPickAbort) w1 in
  let '(ru, wu) := handle (Exec (UpdateRef (head_ref branch) backupRef)) wa in
  (Rejected (JS.or_else (stderr r) message), wu,
   [(Exec (CherryPick h), r); (Exec CherryPickAbort, ra);
    (Exec (UpdateRef (head_ref branch) backupRef), ru)]).
Proof.
  intros Hother. simpl. rewrite picked, refused. simpl. rewrite Hother. simpl.
  destruct (handle (Exec CherryPickAbort) w1) as [ra wa].
  destruct (error ra); simpl;
    destruct (handle (Exec (UpdateRef (head_ref branch) backupRef)) wa) as [ru wu];
    destruct (error ru); reflexivity.
Qed.
End ReplayStep.

(** In the model, replaying a commit whose change is already in the history
    of the branch fails with the text the loop recognises. *)
Lemma model_empty_pick_is_recognised (r : Git.Repo) (h t : string) :
  Git.pending r = Git.Idle ->
  Git.tip r (Git.HEAD r) = Some t ->
  Git.pick r (Some t) h = Git.PickEmpty ->
  exists e, outcome Git.handle (execPromise (CherryPick h)) r = Rejected e
            /\ now_empty (error_text e) = true.
Proof.
  intros Hp Ht Hk. eexists. unfold outcome. simpl.
  unfold Git.git_cherry_pick. rewrite Hp, Ht, Hk. simpl.
  split; reflexivity.
Qed.

(** C3 (evaluated at a failing input): [makeHead feature B] is run while
    [main] is checked out, and replaying C stops on a conflict, a failure
    for another reason than the commit having become empty.  The replay is
    aborted and the branch put back on the backup, as the claim says, and
    the loop rethrows the conflict; but the [git checkout main] of the
    [finally] block is not guarded, and when it fails too its error is
    what the caller gets: the underlying error is not re-raised.  With
    [feature] checked out, where no checkout is to be restored, the same
    conflict does reach the caller.  The other half of the claim holds:
    repositioning R in A -> B -> R -> B2, where B2 repeats the change of B,
    finds B2 empty, skips it, goes on with R and succeeds. *)
Theorem makeHead_rollback_error_lost_when_restore_fails :
  (let backup := "refs/backup/git-dnd/feature-2026-11-02T15-44-00-123Z" in
   let conflict := failed Git.command_failed (Git.conflict_text "C") in
   In (Exec (CherryPick "C"), conflict)
      (snd (run scripted (makeHead "feature" "B") Scenario.masking_replies))
   /\ now_empty (error_text (JS.or_else (stderr conflict) Git.command_failed)) = false
   /\ skipn 11 (calls scripted (makeHead "feature" "B") Scenario.masking_replies)
      = [ Exec (CherryPick "C"); Exec CherryPickAbort;
          Exec (UpdateRef "refs/heads/feature" backup); Exec (Checkout "main") ]
   /\ outcome scripted (replay "feature" backup ["C"; "D"; "B"])
                       (skipn 11 Scenario.masking_replies)
      = Rejected (Git.conflict_text "C")
   /\ outcome scripted (makeHead "feature" "B") Scenario.masking_replies
      = Rejected Scenario.checkout_refused
   /\ Scenario.checkout_refused <> Git.conflict_text "C")
  /\ outcome scripted (makeHead "feature" "B") Scenario.conflict_replies
     = Rejected (Git.conflict_text "C")
  /\ (let r := Scenario.twice_repo in
      Git.history r "feature" = [("A", "a"); ("B", "b"); ("R", "r"); ("B2", "b")]
      /\ skipn 8 (calls Git.handle (makeHead "feature" "R") r)
         = [ Exec (RevListReverseSince "B"); Exec (ResetHard "B");
             Exec (CherryPick "B2"); Exec CherryPickSkip; Exec (CherryPick "R") ]
      /\ outcome Git.handle (makeHead "feature" "R") r = Resolved tt
      /\ Git.history (final Git.handle (makeHead "feature" "R") r) "feature"
         = [("A", "a"); ("B", "b"); ("R'", "r")]).
Proof.
  split; [| split].
  - cbv zeta. split; [vm_compute; repeat (first [left; reflexivity | right]) |].
    repeat split; try (vm_compute; reflexivity). discriminate.
  - vm_compute. reflexivity.
  - vm_compute. repeat split.
Qed.

(** ** Restoring the checkout *)

(** C5 (evaluated at a failing input): [makeHead feature B] is run while
    [main] is checked out; replaying C stops on a conflict, which the loop
    rethrows after rolling back, and the [git checkout main] of the
    [finally] block fails too.  The operation then rejects with the error
    of the checkout: the conflict, the primary error, is lost.  In
    [deleteCommit] the same failure of the restoring checkout is swallowed
    and the primary error reaches the caller. *)
Theorem makeHead_restore_failure_masks_the_error :
  outcome scripted (makeHead "feature" "B") Scenario.masking_replies
  = Rejected Scenario.checkout_refused
  /\ calls scripted (makeHead "feature" "B") Scenario.masking_replies
     = [ Exec (MergeBaseIsAncestor "B" "feature");
         Exec DiffQuiet; Exec DiffCachedQuiet; Exec InProgressProbe; DateNow;
         Exec (UpdateRef "refs/backup/git-dnd/feature-2026-11-02T15-44-00-123Z" "feature");
         Exec RevParseAbbrevRefHead; Exec (Checkout "feature");
         Exec (RevListParents1 "B"); Exec (RevListReverseSince "A");
         Exec (ResetHard "A"); Exec (CherryPick "C"); Exec CherryPickAbort;
         Exec (UpdateRef "refs/heads/feature"
                 "refs/backup/git-dnd/feature-2026-11-02T15-44-00-123Z");
         Exec (Checkout "main") ]
  /\ outcome scripted
       (makeHead_body "feature" "B" "refs/backup/git-dnd/feature-2026-11-02T15-44-00-123Z")
       (skipn 8 Scenario.masking_replies)
     = Rejected (Git.conflict_text "C")
  /\ Scenario.checkout_refused <> Git.conflict_text "C"
  /\ outcome scripted (deleteCommit "feature" "A") Scenario.swallowing_replies
     = Rejected (Git.conflict_text "C").
Proof.
  split; [reflexivity |]. split; [reflexivity |]. split; [reflexivity |].
  split; [discriminate | reflexivity].
Qed.

(** ** What the extension reads back from the lines git prints *)

#[local] Arguments String.append : simpl nomatch.

Lemma append_empty (s : string) : s +:+ EmptyString = s.
Proof.
  induction s as [| a s IH]; [reflexivity |].
  change (String a (s +:+ EmptyString) = String a s). rewrite IH. reflexivity.
Qed.

Lemma append_assoc (a b c : string) : (a +:+ b) +:+ c = a +:+ (b +:+ c).
Proof.
  induction a as [| x a IH]; [reflexivity |].
  change (String x ((a +:+ b) +:+ c) = String x (a +:+ (b +:+ c))).
  rewrite IH. reflexivity.
Qed.

Lemma not_space_not_newline (a : ascii) :
  JS.is_space a = false -> Ascii.eqb a "010" = false /\ Ascii.eqb a "013" = false.
Proof.
  intros H. split.
  - destruct (Ascii.eqb_spec a "010"); [subst; discriminate | reflexivity].
  - destruct (Ascii.eqb_spec a "013"); [subst; discriminate | reflexivity].
Qed.

Lemma tidy_inv (s : string) :
  Git.tidy s = true ->
  exists a s', s = String a s' /\ JS.is_space a = false /\ Git.spaceless s' = true.
Proof.
  unfold Git.tidy. destruct s as [| a s']; simpl; [discriminate |].
  intros H. exists a, s'. destruct (JS.is_space a); simpl in H; [discriminate |].
  auto.
Qed.

Lemma tidy_spaceless (s : string) : Git.tidy s = true -> Git.spaceless s = true.
Proof. unfold Git.tidy. intros H. apply andb_prop in H. apply H. Qed.

Lemma trimStart_tidy (x s : string) :
  Git.tidy x = true -> JS.trimStart (x +:+ s) = x +:+ s.
Proof.
  intros H. destruct (tidy_inv x H) as (a & x' & -> & Ha & _).
  simpl. rewrite Ha. reflexivity.
Qed.

Lemma trimEnd_newline (a : string) : JS.trimEnd (a +:+ Git.nl) = JS.trimEnd a.
Proof.
  induction a as [| x a IH]; simpl; [reflexivity |]. rewrite IH. reflexivity.
Qed.

Lemma trimEnd_spaceless (x : string) :
  Git.spaceless x = true -> JS.trimEnd x = x.
Proof.
  induction x as [| a x IH]; simpl; [reflexivity |].
  intros H. apply andb_prop in H. destruct H as [Ha Hx].
  apply negb_true_iff in Ha. rewrite (IH Hx), Ha. destruct x; reflexivity.
Qed.

Lemma trimEnd_solid (a x : string) :
  Git.tidy x = true -> JS.trimEnd (a +:+ x) = a +:+ x.
Proof.
  intros H. induction a as [| c a IH]; simpl.
  - apply trimEnd_spaceless, tidy_spaceless, H.
  - rewrite IH. destruct (tidy_inv x H) as (y & x' & -> & _).
    destruct a; reflexivity.
Qed.

(** A joined line of tidy names starts with the first and ends with a tidy
    name. *)
Lemma join_shape (x : string) (xs : list string) :
  Forall (fun s => Git.tidy s = true) (x :: xs) ->
  (exists s, JS.join " " (x :: xs) = x +:+ s)
  /\ (exists a z, JS.join " " (x :: xs) = a +:+ z /\ Git.tidy z = true).
Proof.
  revert x. induction xs as [| y ys IH]; intros x H.
  - inversion H; subst. split.
    + exists EmptyString. simpl. symmetry. apply append_empty.
    + exists EmptyString, x. split; [reflexivity | assumption].
  - inversion H as [| ? ? Hx Hrest]; subst.
    destruct (IH y Hrest) as [_ (a & z & Hj & Hz)]. split.
    + eexists. reflexivity.
    + exists (x +:+ " " +:+ a), z. split; [| exact Hz].
      change (JS.join " " (x :: y :: ys)) with (x +:+ " " +:+ JS.join " " (y :: ys)).
      rewrite Hj, !append_assoc. reflexivity.
Qed.

Lemma trim_line (x : string) (xs : list string) :
  Forall (fun s => Git.tidy s = true) (x :: xs) ->
  JS.trim (JS.join " " (x :: xs) +:+ Git.nl) = JS.join " " (x :: xs).
Proof.
  intros H. destruct (join_shape x xs H) as [[s Hs] (a & z & Hj & Hz)].
  unfold JS.trim.
  replace (JS.trimStart (JS.join " " (x :: xs) +:+ Git.nl))
    with (JS.join " " (x :: xs) +:+ Git.nl).
  - rewrite trimEnd_newline, Hj. apply trimEnd_solid, Hz.
  - rewrite Hs, append_assoc. symmetry. apply trimStart_tidy.
    inversion H; assumption.
Qed.

Lemma trim_name (x : string) :
  Git.tidy x = true -> JS.trim (x +:+ Git.nl) = x.
Proof. intros H. apply (trim_line x []). constructor; [exact H | constructor]. Qed.


Lemma split_spaces_from_cons (g : bool) (s : string) :
  exists f fs, JS.split_spaces_from g s = f :: fs.
Proof.
  revert g. induction s as [| a s IH]; intros g; simpl; [eauto |].
  destruct (JS.is_space a).
  - destruct g; [apply IH | eauto].
  - destruct (IH false) as (f & fs & ->). simpl. eauto.
Qed.

Lemma split_spaces_word (x s : string) :
  Git.spaceless x = true ->
  JS.split_spaces_from false (x +:+ s) = prepend x (JS.split_spaces_from false s).
Proof.
  induction x as [| a x IH]; simpl; intros H.
  - destruct (split_spaces_from_cons false s) as (f & fs & ->). reflexivity.
  - apply andb_prop in H. destruct H as [Ha Hx]. apply negb_true_iff in Ha.
    rewrite Ha, (IH Hx).
    destruct (split_spaces_from_cons false s) as (f & fs & ->). reflexivity.
Qed.

Lemma split_spaces_gap (x s : string) :
  Git.tidy x = true ->
  JS.split_spaces_from true (x +:+ s) = JS.split_spaces_from false (x +:+ s).
Proof.
  intros H. destruct (tidy_inv x H) as (a & x' & -> & Ha & _).
  simpl. rewrite Ha. reflexivity.
Qed.

Lemma split_spaces_join (x : string) (xs : list string) :
  Forall (fun s => Git.tidy s = true) (x :: xs) ->
  JS.split_spaces (JS.join " " (x :: xs)) = x :: xs.
Proof.
  unfold JS.split_spaces. revert x. induction xs as [| y ys IH]; intros x H.
  - inversion H; subst. simpl. rewrite <- (append_empty x) at 1.
    rewrite split_spaces_word by (apply tidy_spaceless; assumption).
    simpl. rewrite append_empty. reflexivity.
  - inversion H as [| ? ? Hx Hrest]; subst.
    change (JS.join " " (x :: y :: ys)) with (x +:+ " " +:+ JS.join " " (y :: ys)).
    rewrite split_spaces_word by (apply tidy_spaceless; assumption).
    destruct (join_shape y ys Hrest) as [[s Hs] _].
    change (JS.split_spaces_from false (" " +:+ JS.join " " (y :: ys)))
      with (EmptyString :: JS.split_spaces_from true (JS.join " " (y :: ys))).
    rewrite Hs, split_spaces_gap by (inversion Hrest; assumption).
    rewrite <- Hs, (IH y Hrest). simpl. rewrite append_empty. reflexivity.
Qed.

(** A line [h p1 ... pn] is read back as its fields. *)
Lemma parts_of_line (x : string) (xs : list string) :
  Forall (fun s => Git.tidy s = true) (x :: xs) ->
  JS.split_spaces (JS.trim (JS.join " " (x :: xs) +:+ Git.nl)) = x :: xs.
Proof. intros H. rewrite trim_line by exact H. apply split_spaces_join, H. Qed.



#[local] Arguments String.append : simpl never.

(** ** Facts about the repository model *)

Lemma sane_head (r : Git.Repo) : Git.sane r = true -> Git.tidy (Git.HEAD r) = true.
Proof.
  unfold Git.sane. intros H. apply andb_prop in H. destruct H as [H _].
  apply andb_prop in H. apply H.
Qed.


Lemma sane_lookup (r : Git.Repo) (h : string) (m : Git.Commit) :
  Git.sane r = true -> Git.commits r !! h = Some m ->
  Git.commit_name r h = true
  /\ Forall (fun p => Git.commit_name r p = true /\ Git.present r p = true)
            (Git.parents m).
Proof.
  unfold Git.sane. intros H Hm. apply andb_prop in H. destruct H as [_ H].
  rewrite forallb_forall in H.
  specialize (H (h, m)). unfold Git.sane_commit in H. simpl in H.
  assert (Hin : In (h, m) (map_to_list (Git.commits r))).
  { apply list_elem_of_In, elem_of_map_to_list, Hm. }
  apply H in Hin. apply andb_prop in Hin. destruct Hin as [Hh Hps].
  split; [exact Hh |]. apply Forall_forall. intros p Hp.
  rewrite forallb_forall in Hps. apply list_elem_of_In in Hp.
  apply Hps in Hp. apply andb_prop in Hp. exact Hp.
Qed.

Lemma commit_name_facts (r : Git.Repo) (h : string) :
  Git.commit_name r h = true ->
  Git.tidy h = true /\ is_backup h = false
  /\ Git.refs r !! head_ref h = None /\ Git.refs r !! h = None.
Proof.
  unfold Git.commit_name, Git.unshadowed. intros H.
  apply andb_prop in H. destruct H as [H Hu].
  apply andb_prop in H. destruct H as [Ht Hb].
  apply negb_true_iff in Hb.
  destruct (Git.refs r !! head_ref h); [discriminate |].
  destruct (Git.refs r !! h); [discriminate |]. auto.
Qed.

Lemma present_lookup (r : Git.Repo) (h : string) :
  Git.present r h = true -> exists m, Git.commits r !! h = Some m.
Proof. unfold Git.present. destruct (Git.commits r !! h); [eauto | discriminate]. Qed.

(** A commit name names that commit. *)
Lemma rev_parse_commit (r : Git.Repo) (h : string) :
  Git.commit_name r h = true -> Git.present r h = true ->
  Git.rev_parse r h = Some h.
Proof.
  intros Hn Hp. destruct (commit_name_facts r h Hn) as (_ & _ & H1 & H2).
  destruct (present_lookup r h Hp) as [m Hm].
  unfold Git.rev_parse. rewrite H1, H2, Hm. reflexivity.
Qed.

(** A branch name names the tip of the branch. *)
Lemma rev_parse_branch (r : Git.Repo) (b t : string) :
  Git.tip r b = Some t -> Git.rev_parse r b = Some t.
Proof. unfold Git.tip, Git.rev_parse. intros ->. reflexivity. Qed.

Lemma mem_In (h : string) (l : list string) : Git.mem h l = true <-> In h l.
Proof.
  unfold Git.mem. rewrite existsb_exists. split.
  - intros (x & Hx & E). apply String.eqb_eq in E. subst. exact Hx.
  - intros H. exists h. split; [exact H | apply String.eqb_refl].
Qed.

(** Every commit is in its own history. *)
Lemma is_ancestor_self (r : Git.Repo) (h : string) (m : Git.Commit) :
  Git.commits r !! h = Some m -> Git.is_ancestor r h h = true.
Proof.
  intros Hm. unfold Git.is_ancestor, Git.log. apply mem_In, nodup_In.
  simpl. rewrite Hm. left. reflexivity.
Qed.

Lemma backup_not_head (b x : string) : is_backup (head_ref x) = false.
Proof. reflexivity. Qed.

Lemma backup_name_is_backup (b iso : string) : is_backup (backup_name b iso) = true.
Proof. reflexivity. Qed.

Lemma mutation_safe_facts (r : Git.Repo) :
  Git.mutation_safe r = true ->
  Git.dirtyWc r = false /\ Git.dirtyIdx r = false /\ Git.pending r = Git.Idle.
Proof.
  unfold Git.mutation_safe, Git.idle. intros H.
  apply andb_prop in H. destruct H as [H Hp].
  apply andb_prop in H. destruct H as [Hw Hi].
  apply negb_true_iff in Hw, Hi.
  destruct (Git.pending r); try discriminate. auto.
Qed.

(** ** Running the operations on the model *)

(** Brings the program of a [wp] goal to its first call. *)
Ltac head_normal :=
  lazymatch goal with
  | |- wp ?h ?p ?w ?Q => let p' := eval hnf in p in change (wp h p' w Q)
  end.

(** Performs the first call, given the equation of its reply. *)
Ltac step_with E :=
  head_normal; eapply wp_vis; [exact E | cbv beta].

(** Passes the reply just received to the continuation, leaving what is
    computed from it untouched. *)
Ltac settle :=
  cbn [pbind andThen catch finally swallow execPromise perform resolve reject
       error stdout stderr ok failed].

Section ModelCalls.
Variable r : Git.Repo.

Lemma handle_merge_base (c b : string) :
  Git.reachable r c b = true ->
  Git.handle (Exec (MergeBaseIsAncestor c b)) r = (ok EmptyString, r).
Proof.
  intros H. simpl. unfold Git.git_merge_base. unfold Git.reachable in H.
  destruct (Git.rev_parse r c); [| discriminate].
  destruct (Git.rev_parse r b); [| discriminate]. rewrite H. reflexivity.
Qed.

Lemma handle_diff :
  Git.dirtyWc r = false -> Git.handle (Exec DiffQuiet) r = (ok EmptyString, r).
Proof. intros H. simpl. unfold Git.git_diff. rewrite H. reflexivity. Qed.

Lemma handle_diff_cached :
  Git.dirtyIdx r = false -> Git.handle (Exec DiffCachedQuiet) r = (ok EmptyString, r).
Proof. intros H. simpl. unfold Git.git_diff_cached. rewrite H. reflexivity. Qed.

Lemma handle_probe :
  Git.pending r = Git.Idle -> Git.handle (Exec InProgressProbe) r = (ok EmptyString, r).
Proof. intros H. simpl. unfold Git.probe. rewrite H. reflexivity. Qed.

Lemma handle_parents (c h : string) (m : Git.Commit) :
  Git.rev_parse r c = Some h -> Git.commits r !! h = Some m ->
  Git.handle (Exec (RevListParents1 c)) r
  = (ok (JS.join " " (h :: Git.parents m) +:+ Git.nl), r).
Proof.
  intros H1 H2. simpl. unfold Git.git_rev_list_parents1, Git.line_of.
  rewrite H1, H2. reflexivity.
Qed.

Lemma handle_update_ref (ref value h : string) :
  Git.rev_parse r value = Some h ->
  Git.handle (Exec (UpdateRef ref value)) r
  = (ok EmptyString, Git.with_refs (<[ref := h]> (Git.refs r)) r).
Proof. intros H. simpl. unfold Git.git_update_ref. rewrite H. reflexivity. Qed.

Lemma handle_rev_parse (name h : string) :
  Git.rev_parse r name = Some h ->
  Git.handle (Exec (RevParse name)) r = (ok (h +:+ Git.nl), r).
Proof. intros H. simpl. unfold Git.git_rev_parse. rewrite H. reflexivity. Qed.


Lemma handle_reset_hard (parent p : string) :
  Git.rev_parse r parent = Some p -> Git.pending r = Git.Idle ->
  Git.handle (Exec (ResetHard parent)) r
  = (ok ("HEAD is now at " +:+ p +:+ Git.nl),
     Git.with_pending Git.Idle
       (Git.with_tree p false false (Git.set_tip (Git.HEAD r) p r))).
Proof.
  intros H Hp. simpl. unfold Git.git_reset_hard. rewrite H, Hp. reflexivity.
Qed.
End ModelCalls.

(** ** Runs in an arbitrary environment *)

(** Performs the first call, whatever the reply, and splits on whether the
    command failed. *)
Ltac ask handle reply w :=
  head_normal; apply (wp_ask handle); intros reply w; settle;
  destruct (error reply) eqn:?; settle.

(** The run has ended. *)
Ltac stop := head_normal; apply wp_ret.

(** Reads the hypotheses on the log of a run that has ended. *)
Ltac in_log :=
  repeat match goal with
    | H : In _ (_ :: _) |- _ => destruct H as [H | H]; [simplify_eq |]
    | H : In _ [] |- _ => destruct H
    | H : In ?x ?l, HF : List.Forall _ ?l |- _ =>
        apply (proj1 (List.Forall_forall _ _) HF) in H; cbn [fst] in H;
        first [ congruence | discriminate H | simpl in H; discriminate H
              | simpl in H; congruence
              | unfold is_check in H; intuition discriminate ]
    end.

(** Shows that an entry is in a log. *)
Ltac logged := cbn [In]; repeat (first [left; reflexivity | right]).

Section AnyEnvironment.
Context {W : Type} (handle : Call -> W -> Reply * W).

(** The shared opening of both operations: the ancestry test and
    [ensureCleanState].  Either the run stops there, rejected, or the four
    checks have been made and the rest is run. *)
Lemma wp_checks {B : Type} (branch commit : string) (rest : Promise B) (w : W)
    (Q : Settled B -> W -> list (Call * Reply) -> Prop) :
  (forall e w' log, List.Forall (fun cr => is_check branch commit (fst cr)) log ->
                    Q (Rejected e) w' log) ->
  (forall r1 r2 r3 r4 w1,
      wp handle rest w1 (fun a w' log =>
        Q a w' ((Exec (MergeBaseIsAncestor commit branch), r1)
                :: (Exec DiffQuiet, r2) :: (Exec DiffCachedQuiet, r3)
                :: (Exec InProgressProbe, r4) :: log))) ->
  wp handle
     (do! catch (execPromise (MergeBaseIsAncestor commit branch))
                (fun _ => reject (not_reachable_message commit branch)) in
      do! ensureCleanState in rest) w Q.
Proof.
  intros Hstop Hgo. unfold ensureCleanState.
  ask handle r1 w1.
  { stop. apply Hstop. unfold is_check. repeat constructor. }
  ask handle r2 w2; ask handle r3 w3; rewrite ?orb_true_r; cbn [orb]; settle;
    try (stop; apply Hstop; unfold is_check; repeat constructor; cbn [fst]; tauto).
  destruct (JS.includes "DIRTY" (stdout r2) || JS.includes "DIRTY" (stdout r3)); settle.
  { stop; apply Hstop; unfold is_check; repeat constructor; cbn [fst]; tauto. }
  ask handle r4 w4.
  { stop; apply Hstop; unfold is_check; repeat constructor; cbn [fst]; tauto. }
  destruct (JS.includes "BUSY" (stdout r4)); settle.
  { stop; apply Hstop; unfold is_check; repeat constructor; cbn [fst]; tauto. }
  apply Hgo.
Qed.
End AnyEnvironment.

(** ** Removing the tip *)

(** The run of [deleteCommit] on the tip [c] of [b], whose only parent is
    [p]: the calls made, and the repository it leaves. *)
Lemma deleteCommit_tip_run (r : Git.Repo) (b c p : string) (m : Git.Commit) :
  Git.sane r = true -> Git.mutation_safe r = true ->
  Git.tip r b = Some c -> Git.commits r !! c = Some m -> Git.parents m = [p] ->
  let backup := backup_name b (Git.now r) in
  let saved := Git.with_refs (<[backup := c]> (Git.refs r))
                 (Git.with_clock (List.tl (Git.clock r)) r) in
  wp Git.handle (deleteCommit b c) r (fun a r' log =>
    a = Resolved tt
    /\ map fst log =
       [ Exec (MergeBaseIsAncestor c b); Exec DiffQuiet; Exec DiffCachedQuiet;
         Exec InProgressProbe; Exec (RevListParents1 c); DateNow;
         Exec (UpdateRef backup b); Exec (RevParse b); Exec RevParseAbbrevRefHead;
         if String.eqb (Git.HEAD r) b then Exec (ResetHard p)
         else Exec (UpdateRef (head_ref b) p) ]
    /\ r' = if String.eqb (Git.HEAD r) b
            then Git.with_pending Git.Idle
                   (Git.with_tree p false false (Git.set_tip b p saved))
            else Git.set_tip b p saved).
Proof.
  intros Hsane Hsafe Htip Hm Hp backup saved.
  destruct (sane_lookup r c m Hsane Hm) as [Hc Hps]. rewrite Hp in Hps.
  inversion Hps as [| ? ? [Hpn Hpp] _]; subst.
  destruct (mutation_safe_facts r Hsafe) as (Hw & Hi & Hidle).
  destruct (commit_name_facts r c Hc) as (Hct & Hcb & Hc1 & Hc2).
  destruct (commit_name_facts r p Hpn) as (Hpt & Hpb & Hp1 & Hp2).
  assert (Hrc : Git.rev_parse r c = Some c).
  { apply rev_parse_commit; [exact Hc |]. unfold Git.present. rewrite Hm. reflexivity. }
  assert (Hrb : Git.rev_parse r b = Some c) by (apply rev_parse_branch, Htip).
  assert (Hreach : Git.reachable r c b = true).
  { unfold Git.reachable. rewrite Hrc, Hrb. eapply is_ancestor_self, Hm. }
  unfold deleteCommit.
  step_with (handle_merge_base r c b Hreach).
  step_with (handle_diff r Hw).
  step_with (handle_diff_cached r Hi).
  step_with (handle_probe r Hidle).
  step_with (handle_parents r c c m Hrc Hm).
  rewrite Hp. head_normal. cbn [stdout ok].
  rewrite !parts_of_line by (repeat constructor; assumption).
  cbn [length Nat.ltb Nat.leb nth].
  step_with (eq_refl : Git.handle DateNow r
                       = (ok (Git.now r), Git.with_clock (List.tl (Git.clock r)) r)).
  cbn [stdout ok]. fold backup.
  step_with (handle_update_ref (Git.with_clock (List.tl (Git.clock r)) r) backup b c Hrb).
  fold saved.
  assert (Hrb2 : Git.rev_parse saved b = Some c).
  { apply rev_parse_branch. unfold Git.tip, saved. cbn.
    rewrite lookup_insert_ne; [exact Htip | discriminate]. }
  assert (Hrp2 : Git.rev_parse saved p = Some p).
  { unfold Git.rev_parse, saved. cbn.
    rewrite lookup_insert_ne by discriminate. rewrite Hp1.
    rewrite lookup_insert_ne by (intros E; rewrite <- E in Hpb; discriminate).
    rewrite Hp2. destruct (present_lookup r p Hpp) as [mp ->]. reflexivity. }
  step_with (handle_rev_parse saved b c Hrb2).
  step_with (eq_refl : Git.handle (Exec RevParseAbbrevRefHead) saved
                       = (ok (Git.HEAD r +:+ Git.nl), saved)).
  head_normal. cbn [stdout ok].
  rewrite !trim_name by (first [assumption | apply sane_head; assumption]).
  rewrite String.eqb_refl.
  destruct (String.eqb (Git.HEAD r) b) eqn:Hcur.
  - apply String.eqb_eq in Hcur.
    step_with (handle_reset_hard saved p p Hrp2 Hidle).
    head_normal. apply wp_ret.
    replace (Git.HEAD saved) with b by (symmetry; exact Hcur).
    repeat split.
  - step_with (handle_update_ref saved (head_ref b) p p Hrp2).
    head_normal. apply wp_ret. repeat split.
Qed.

Section TipInAnyEnvironment.
Context {W : Type} (handle : Call -> W -> Reply * W).

(** The fast path in an arbitrary environment: when git lists [commit]
    under this very name with the one parent [parent], and prints
    [commit] as what [branch] points at, the run is the ten calls below
    and its outcome is that of the last one. *)
Lemma deleteCommit_tip_calls (branch commit : string) (w : W) :
  wp handle (deleteCommit branch commit) w (fun a _ log =>
    forall (listed tipRead headRead : Reply) (parent : string),
      In (Exec (RevListParents1 commit), listed) log ->
      error listed = None ->
      JS.split_spaces (JS.trim (stdout listed)) = [commit; parent] ->
      In (Exec (RevParse branch), tipRead) log ->
      error tipRead = None ->
      JS.trim (stdout tipRead) = commit ->
      In (Exec RevParseAbbrevRefHead, headRead) log ->
      error headRead = None ->
      exists (now final : Reply),
        map fst log =
          [ Exec (MergeBaseIsAncestor commit branch); Exec DiffQuiet;
            Exec DiffCachedQuiet; Exec InProgressProbe;
            Exec (RevListParents1 commit); DateNow;
            Exec (UpdateRef (backup_name branch (stdout now)) branch);
            Exec (RevParse branch); Exec RevParseAbbrevRefHead;
            Exec (drop_tip branch parent headRead) ]
        /\ In (DateNow, now) log
        /\ In (Exec (drop_tip branch parent headRead), final) log
        /\ a = match error final with
               | Some message => Rejected (JS.or_else (stderr final) message)
               | None => Resolved tt
               end).
Proof.
  unfold deleteCommit. apply wp_checks.
  { intros e w' log Hlog listed tipRead headRead parent Hin. exfalso. in_log. }
  intros r1 r2 r3 r4 w1.
  ask handle r5 w5.
  { stop. intros. in_log. }
  head_normal. apply (wp_ask handle). intros now w6. settle.
  ask handle r7 w7.
  all: destruct (JS.split_spaces (JS.trim (stdout r5))) as [| x [| p [| y more]]] eqn:Hparts;
    cbn [length Nat.ltb Nat.leb nth].
  all: try (apply (wp_without handle (fun c => c <> Exec (RevListParents1 commit)));
            [ unfold hasMergesInHistory, deleteCommit_root, rebase_root_with;
              footprint; discriminate
            | intros; in_log; congruence ]).
  all: try (stop; intros; in_log; congruence).
  all: ask handle r8 w8; [stop; intros; in_log; congruence |].
  all: ask handle r9 w9; [stop; intros; in_log; congruence |].
  all: destruct (String.eqb (JS.trim (stdout r8)) commit) eqn:Htip;
    [| apply (wp_without handle (fun c => c <> Exec (RevParse branch)));
       [ footprint; try discriminate; destruct (String.eqb _ branch); discriminate
       | intros; in_log; apply String.eqb_neq in Htip; congruence ] ].
  all: destruct (String.eqb (JS.trim (stdout r9)) branch) eqn:Hcur.
  all: ask handle r10 w10; stop; intros; in_log.
  all: match goal with
       | H1 : JS.split_spaces ?s = _, H2 : JS.split_spaces ?s = _ |- _ =>
           rewrite H2 in H1; injection H1 as ? ?; subst
       end.
  all: unfold drop_tip; rewrite ?Hcur.
  all: exists now, r10.
  all: repeat split;
    try solve [ reflexivity | logged
              | match goal with
                | |- _ = match error ?r with _ => _ end =>
                    match goal with H : error r = _ |- _ => rewrite H; reflexivity end
                end ].
Qed.
End TipInAnyEnvironment.




Lemma leaves_checkout_quiet (c : Call) :
  leaves_checkout c -> touches_checkout c = false.
Proof.
  intros [H | [-> | (ref & value & ->)]]; [| reflexivity | reflexivity].
  destruct c as [g | | | | |]; try discriminate; [| reflexivity].
  destruct g; try discriminate; reflexivity.
Qed.

(** C10, for a tip passed under the name git prints for it.  In every
    environment that answers the reading commands in ASCII: when moreover
    [git rev-parse --abbrev-ref HEAD] prints another branch than the one
    operated on, the run is seven reading calls, the clock and the backup,
    followed by [git update-ref refs/heads/<branch> <parent>]: no checkout
    switch, no reset, no replay; so whatever reading commands, the clock
    and [update-ref] leave unchanged (the current checkout, the working
    tree and the index among it) is unchanged by the operation.  On the
    repository model, for plainly named branch and commit, [HEAD], the
    checked-out snapshot, the dirty flags, the marker of an operation in
    progress and the commits are what they were, and the references differ
    only by the new backup and by the branch, which points at the
    parent. *)
Theorem deleteCommit_of_other_tip_moves_only_the_branch :
  (forall (W : Type) (handle : Call -> W -> Reply * W) (w : W)
          (branch commit parent : string) (listed tipRead headRead : Reply),
      let log := snd (run handle (deleteCommit branch commit) w) in
      answers_in_ascii log = true ->
      In (Exec (RevListParents1 commit), listed) log -> error listed = None ->
      JS.split_spaces (JS.trim (stdout listed)) = [commit; parent] ->
      In (Exec (RevParse branch), tipRead) log -> error tipRead = None ->
      JS.trim (stdout tipRead) = commit ->
      In (Exec RevParseAbbrevRefHead, headRead) log -> error headRead = None ->
      JS.trim (stdout headRead) <> branch ->
      (exists now : Reply,
          calls handle (deleteCommit branch commit) w =
            [ Exec (MergeBaseIsAncestor commit branch); Exec DiffQuiet;
              Exec DiffCachedQuiet; Exec InProgressProbe;
              Exec (RevListParents1 commit); DateNow;
              Exec (UpdateRef (backup_name branch (stdout now)) branch);
              Exec (RevParse branch); Exec RevParseAbbrevRefHead;
              Exec (UpdateRef (head_ref branch) parent) ])
      /\ Forall (fun c => touches_checkout c = false)
                (calls handle (deleteCommit branch commit) w)
      /\ forall (X : Type) (f : W -> X),
           (forall c v, leaves_checkout c -> f (snd (handle c v)) = f v) ->
           f (final handle (deleteCommit branch commit) w) = f w)
  /\ (forall (r : Git.Repo) (b c p : string) (m : Git.Commit),
      Git.sane r = true -> Git.mutation_safe r = true ->
      plainly_named r b c = true ->
      Git.tip r b = Some c -> Git.commits r !! c = Some m -> Git.parents m = [p] ->
      Git.HEAD r <> b ->
      let r' := final Git.handle (deleteCommit b c) r in
      Git.HEAD r' = Git.HEAD r
      /\ Git.checked_out r' = Git.checked_out r
      /\ Git.dirtyWc r' = Git.dirtyWc r
      /\ Git.dirtyIdx r' = Git.dirtyIdx r
      /\ Git.pending r' = Git.pending r
      /\ Git.commits r' = Git.commits r
      /\ Git.refs r' = <[head_ref b := p]> (<[backup_name b (Git.now r) := c]> (Git.refs r))).
Proof.
  split.
  - intros W handle w branch commit parent listed tipRead headRead log
           _ H1 H2 H3 H4 H5 H6 H7 H8 Hother.
    destruct (wp_elim _ _ _ _ (deleteCommit_tip_calls handle branch commit w)
                listed tipRead headRead parent H1 H2 H3 H4 H5 H6 H7 H8)
      as (now & final & Hcalls & _).
    unfold drop_tip in Hcalls. apply String.eqb_neq in Hother.
    rewrite Hother in Hcalls.
    assert (Hquiet : Forall leaves_checkout
                       (calls handle (deleteCommit branch commit) w)).
    { unfold calls. rewrite Hcalls. unfold leaves_checkout.
      repeat (apply List.Forall_cons;
              [ first [ left; reflexivity | right; left; reflexivity
                      | right; right; eexists _, _; reflexivity ] |]).
      apply List.Forall_nil. }
    split; [exists now; exact Hcalls |]. split.
    + eapply Forall_impl; [exact Hquiet |]. apply leaves_checkout_quiet.
    + intros X f Hf. apply (run_frame handle f leaves_checkout); [exact Hf |].
      apply Forall_forall. intros c Hc.
      apply (proj1 (Forall_forall _ _) Hquiet c Hc).
  - intros r b c p m Hsane Hsafe _ Htip Hm Hp Hother r'.
    pose proof (wp_elim _ _ _ _ (deleteCommit_tip_run r b c p m Hsane Hsafe Htip Hm Hp))
      as (Hout & Hcalls & Hfinal).
    cbv zeta in Hcalls, Hfinal. subst r'.
    apply String.eqb_neq in Hother. rewrite Hother in Hfinal.
    rewrite Hfinal. repeat split.
Qed.

(** Removing D, the tip of [feature], while [main] is checked out. *)
Lemma deleteCommit_of_other_tip_witness :
  Forall (fun c => touches_checkout c = false)
         (calls Git.handle (deleteCommit "feature" "D") (Scenario.feature_repo "main"))
  /\ Git.HEAD (final Git.handle (deleteCommit "feature" "D")
                 (Scenario.feature_repo "main")) = "main".
Proof.
  split.
  - apply (proj1 deleteCommit_of_other_tip_moves_only_the_branch Git.Repo Git.handle
             (Scenario.feature_repo "main") "feature" "D" "C"
             (ok ("D C" +:+ Git.nl)) (ok ("D" +:+ Git.nl)) (ok ("main" +:+ Git.nl)));
      try (vm_compute; first [reflexivity | logged]). discriminate.
  - apply (proj2 deleteCommit_of_other_tip_moves_only_the_branch
             (Scenario.feature_repo "main") "feature" "D" "C" (Git.mkCommit ["C"] "d"));
      try reflexivity.
    discriminate.
Defined.

(** C10 as stated fails for a tip that is passed under another name than
    the one git prints.  In the scenario with a tag [vD] on the tip D of
    [feature] and [main] checked out, the commit named is the tip of
    [feature] and has exactly one parent, and [deleteCommit] runs [git
    rebase --onto C refs/tags/vD feature], which leaves [feature] checked
    out with the files of C.  For an abbreviated hash of the tip, as git
    answers it, the last call is that rebase as well. *)
Lemma deleteCommit_of_other_tip_under_another_name_switches :
  (let r := Scenario.tagged_repo "main" in
   let r' := final Git.handle (deleteCommit "feature" "refs/tags/vD") r in
   Git.rev_parse r "refs/tags/vD" = Git.tip r "feature"
   /\ Git.commits r !! "D" = Some (Git.mkCommit ["C"] "d")
   /\ Git.HEAD r = "main" /\ Git.checked_out r = "A"
   /\ List.last (calls Git.handle (deleteCommit "feature" "refs/tags/vD") r) DateNow
      = Exec (RebaseOnto "C" "refs/tags/vD" (Some "feature"))
   /\ Git.HEAD r' = "feature" /\ Git.checked_out r' = "C")
  /\ List.last (calls scripted (deleteCommit "feature" Scenario.short_D)
                      (Scenario.abbreviated_removal_replies "main")) DateNow
     = Exec (RebaseOnto Scenario.hash_C Scenario.short_D (Some "feature"))
  /\ touches_checkout (Exec (RebaseOnto Scenario.hash_C Scenario.short_D (Some "feature")))
     = true.
Proof.
  split; [| split]; [| reflexivity | reflexivity].
  cbv zeta. repeat split.
Qed.

(** ** Merge commits are refused *)

Lemma checks_move_nothing (branch commit : string) (log : list (Call * Reply)) :
  List.Forall (fun cr => is_check branch commit (fst cr)) log ->
  Forall moves_no_branch (map fst log)
  /\ Forall (fun c => resets_or_replays c = false) (map fst log).
Proof.
  intros H. split; apply (proj2 (List.Forall_map fst _ _));
    (eapply List.Forall_impl; [| exact H]); intros [c reply] Hc; cbn [fst] in *;
    destruct Hc as [-> | [-> | [-> | ->]]]; first [reflexivity | left; reflexivity].
Qed.

(** Shows of the calls of a log that none moves a branch, resets or
    replays. *)
Ltac quiet_calls :=
  cbn [map fst];
  repeat (apply List.Forall_cons;
          [ first [ reflexivity | left; reflexivity | right; left; reflexivity
                  | right; right; left; reflexivity
                  | right; right; right; eexists; reflexivity ] |]);
  apply List.Forall_nil.

Section MergeInAnyEnvironment.
Context {W : Type} (handle : Call -> W -> Reply * W).

Lemma makeHead_merge_calls (branch commit : string) (w : W) :
  wp handle (makeHead branch commit) w (fun a _ log =>
    (forall listed : Reply,
        In (Exec (RevListParents1 commit), listed) log -> error listed = None ->
        (2 < length (JS.split_spaces (JS.trim (stdout listed))))%nat) ->
    (exists e, a = Rejected e)
    /\ Forall moves_no_branch (map fst log)
    /\ Forall (fun c => resets_or_replays c = false) (map fst log)
    /\ (forall listed : Reply,
          In (Exec (RevListParents1 commit), listed) log -> error listed = None ->
          switches_succeeded log -> a = Rejected merge_reorder_message)).
Proof.
  unfold makeHead. apply wp_checks.
  { intros e w' log Hlog _. split; [eexists; reflexivity |].
    destruct (checks_move_nothing branch commit log Hlog) as [H1 H2].
    split; [exact H1 |]. split; [exact H2 |]. intros. exfalso. in_log. }
  intros r1 r2 r3 r4 w1.
  head_normal. apply (wp_ask handle). intros now w5. settle.
  ask handle r6 w6.
  all: ask handle r7 w7;
    [ stop; intros _; (split; [eexists; reflexivity |]);
      (split; [quiet_calls |]); (split; [quiet_calls |]); intros; exfalso; in_log |].
  all: destruct (String.eqb (JS.trim (stdout r7)) branch) eqn:Hcur; cbn [negb]; settle.
  2, 4: ask handle r8 w8;
    [ stop; intros _; (split; [eexists; reflexivity |]);
      (split; [quiet_calls |]); (split; [quiet_calls |]); intros; exfalso; in_log |].
  all: unfold makeHead_body.
  all: ask handle r9 w9.
  all: try (destruct (JS.split_spaces (JS.trim (stdout r9)))
              as [| x [| p [| y more]]] eqn:Hparts;
            cbn [length Nat.ltb Nat.leb nth];
            try (apply wp_any; intros a w' log H; exfalso;
                 match goal with
                 | Hok : error ?r = None,
                   Hp : JS.split_spaces (JS.trim (stdout ?r)) = _ |- _ =>
                     specialize (H r ltac:(logged) Hok); rewrite Hp in H;
                     cbn [length] in H; lia
                 end)).
  all: try (ask handle r12 w12);
    (stop; intros _; (split; [eexists; reflexivity |]);
     (split; [quiet_calls |]); (split; [quiet_calls |]);
     intros listed Hin Hok Hsw;
     first [ reflexivity
           | exfalso; in_log; congruence
           | exfalso;
             match goal with
             | Hf : error ?r = Some _ |- _ =>
                 pose proof (Hsw _ r ltac:(logged)); congruence
             end ]).
Qed.
End MergeInAnyEnvironment.

(** C6, as the code keeps it.  In every environment that answers the
    reading commands in ASCII and in which git lists two or more parents
    for [commit] whenever it lists them: [makeHead] fails; the calls it
    makes only read, read the clock, write the backup reference and switch
    the checkout, so there is no reset and no replay step and whatever
    such calls leave unchanged, the reference of the branch among it, is
    unchanged by the operation; and it fails with the merge-commit error
    once the parents have been listed, provided every switch of the
    checkout that was made succeeded (none is made when the branch is the
    one checked out). *)
Theorem makeHead_refuses_merge_commit :
  forall (W : Type) (handle : Call -> W -> Reply * W) (w : W) (branch commit : string),
    let log := snd (run handle (makeHead branch commit) w) in
    answers_in_ascii log = true ->
    (forall listed : Reply,
        In (Exec (RevListParents1 commit), listed) log -> error listed = None ->
        (2 < length (JS.split_spaces (JS.trim (stdout listed))))%nat) ->
    (exists e, outcome handle (makeHead branch commit) w = Rejected e)
    /\ Forall (fun c => resets_or_replays c = false)
              (calls handle (makeHead branch commit) w)
    /\ Forall moves_no_branch (calls handle (makeHead branch commit) w)
    /\ (forall (X : Type) (f : W -> X),
          (forall c v, moves_no_branch c -> f (snd (handle c v)) = f v) ->
          f (final handle (makeHead branch commit) w) = f w)
    /\ (forall listed : Reply,
          In (Exec (RevListParents1 commit), listed) log -> error listed = None ->
          switches_succeeded log ->
          outcome handle (makeHead branch commit) w = Rejected merge_reorder_message).
Proof.
  intros W handle w branch commit log _ Hmerge.
  destruct (wp_elim _ _ _ _ (makeHead_merge_calls handle branch commit w) Hmerge)
    as (Hfails & Hquiet & Hnone & Hmessage).
  split; [exact Hfails |]. split; [exact Hnone |]. split; [exact Hquiet |].
  split; [| exact Hmessage].
  intros X f Hf. apply (run_frame handle f moves_no_branch); [exact Hf |].
  exact Hquiet.
Qed.

(** The merge M of the merge scenario, on the branch checked out: the
    operation is refused with the merge-commit error and [main] stays on
    M. *)
Lemma makeHead_refuses_merge_witness :
  outcome Git.handle (makeHead "main" "M") Scenario.merge_repo
  = Rejected merge_reorder_message
  /\ Git.tip (final Git.handle (makeHead "main" "M") Scenario.merge_repo) "main"
     = Git.tip Scenario.merge_repo "main".
Proof.
  assert (Hmerge : forall listed : Reply,
             In (Exec (RevListParents1 "M"), listed)
                (snd (run Git.handle (makeHead "main" "M") Scenario.merge_repo)) ->
             error listed = None ->
             (2 < length (JS.split_spaces (JS.trim (stdout listed))))%nat).
  { intros listed Hin _. vm_compute in Hin.
    repeat (destruct Hin as [Hin | Hin]; [try discriminate Hin |]);
      [| destruct Hin].
    injection Hin as <-. vm_compute. lia. }
  destruct (makeHead_refuses_merge_commit Git.Repo Git.handle Scenario.merge_repo
              "main" "M" eq_refl Hmerge) as (_ & _ & _ & Hframe & Hmessage).
  split.
  - apply (Hmessage (ok ("M B X" +:+ Git.nl))).
    + vm_compute. logged.
    + reflexivity.
    + intros name reply Hin. vm_compute in Hin.
      repeat (destruct Hin as [Hin | Hin]; [discriminate Hin |]). destruct Hin.
  - apply (Hframe _ (fun r => Git.tip r "main")).
    intros c v [Hc | [-> | [Hc | [name ->]]]].
    + rewrite observes_frame by exact Hc. reflexivity.
    + reflexivity.
    + destruct c as [g | | | | |]; try discriminate Hc.
      destruct g; try discriminate Hc. cbn [writes_backup] in Hc.
      simpl. unfold Git.git_update_ref. destruct (Git.rev_parse v value); [| reflexivity].
      unfold Git.tip. cbn. apply lookup_insert_ne.
      intros E. rewrite E in Hc. discriminate Hc.
    + simpl. unfold Git.git_checkout. destruct (Git.tip v name); reflexivity.
Defined.

(** C6 as stated fails when the checkout cannot be switched to the
    branch: the switch comes before the parents of the commit are looked
    at, so [makeHead feature M] asked while [main] is checked out, with an
    untracked file in the way of the switch, fails with the error of [git
    checkout], whatever the parents of M. *)
Lemma makeHead_of_merge_fails_on_the_switch :
  outcome scripted (makeHead "feature" "M") Scenario.refused_switch_replies
  = Rejected Scenario.untracked_in_the_way
  /\ Scenario.untracked_in_the_way <> merge_reorder_message
  /\ calls scripted (makeHead "feature" "M") Scenario.refused_switch_replies
     = [ Exec (MergeBaseIsAncestor "M" "feature"); Exec DiffQuiet;
         Exec DiffCachedQuiet; Exec InProgressProbe; DateNow;
         Exec (UpdateRef (backup_name "feature" Scenario.stamp) "feature");
         Exec RevParseAbbrevRefHead; Exec (Checkout "feature") ].
Proof.
  split; [vm_compute; reflexivity |]. split; [discriminate |].
  vm_compute. reflexivity.
Qed.
(** ** Deleting the only commit *)

(** C7 (evaluated at a failing input): branch [solo] consists of the single
    root commit S, while [main], which is checked out, has a merge in its
    history.  [deleteCommit solo S] scans the history of the checkout, not
    of [solo], before it switches to [solo], and rejects with the
    root-across-merges error instead of the only-commit error.  The branch
    is left unchanged.  With [solo] checked out the same call rejects with
    the only-commit error, and [makeHead], which scans after its switch,
    is not misled. *)
Theorem deleteCommit_only_commit_scans_wrong_history :
  Git.history Scenario.merge_repo "solo" = [("S", "s")]
  /\ outcome Git.handle (deleteCommit "solo" "S") Scenario.merge_repo
     = Rejected root_delete_message
  /\ root_delete_message <> only_commit_message
  /\ Git.tip (final Git.handle (deleteCommit "solo" "S") Scenario.merge_repo) "solo"
     = Some "S"
  /\ outcome Git.handle (deleteCommit "solo" "S") Scenario.merge_repo_on_solo
     = Rejected only_commit_message
  /\ outcome Git.handle (makeHead "solo" "S") Scenario.merge_repo = Resolved tt.
Proof.
  split; [reflexivity |]. split; [reflexivity |]. split; [discriminate |].
  split; [reflexivity |]. split; reflexivity.
Qed.

(** ** Backup references *)

Lemma pick_refs (r r' : Git.Repo) (base : option string) (h h' : string) :
  Git.pick r base h = Git.PickOk r' h' -> Git.refs r' = Git.refs r.
Proof.
  unfold Git.pick. intros H.
  repeat case_match; try discriminate.
  all: injection H as <- _; reflexivity.
Qed.

Lemma replay_all_refs (hs : list string) (r : Git.Repo) (base : option string) :
  Git.refs (fst (fst (Git.replay_all r base hs))) = Git.refs r.
Proof.
  revert r base. induction hs as [| h hs IH]; intros r base; simpl; [reflexivity |].
  destruct (Git.pick r base h) as [r' h' | | |] eqn:Hpick;
    try reflexivity; [| apply IH].
  rewrite IH. eapply pick_refs, Hpick.
Qed.

Lemma set_tip_frame (b h name : string) (r : Git.Repo) :
  is_backup name = true ->
  Git.refs (Git.set_tip b h r) !! name = Git.refs r !! name.
Proof.
  intros Hn. unfold Git.set_tip. cbn. apply lookup_insert_ne.
  intros E. rewrite <- E in Hn. discriminate.
Qed.

Lemma finish_rebase_frame (b o name : string) (hs : list string)
    (base : option string) (r : Git.Repo) :
  is_backup name = true ->
  Git.refs (snd (Git.finish_rebase b o hs base r)) !! name = Git.refs r !! name.
Proof.
  intros Hn. unfold Git.finish_rebase.
  pose proof (replay_all_refs hs r base) as Hrefs.
  destruct (Git.replay_all r base hs) as [[r' t'] stop]. simpl in Hrefs.
  destruct t' as [t' |], stop as [h |]; cbn;
    try reflexivity; try (rewrite Hrefs; reflexivity).
  fold (Git.refs (Git.set_tip b t' r')).
  change (Git.refs (Git.set_tip b t' r') !! name = Git.refs r !! name).
  rewrite set_tip_frame by exact Hn. rewrite Hrefs. reflexivity.
Qed.

(** In the model, only [update-ref] on a backup name changes what a backup
    name points at. *)
Lemma backup_frame (c : Call) (r : Git.Repo) (name : string) :
  writes_backup c = false -> is_backup name = true ->
  Git.refs (snd (Git.handle c r)) !! name = Git.refs r !! name.
Proof.
  intros Hc Hn. destruct c as [g | | | | |]; try reflexivity.
  destruct g; simpl in Hc; simpl Git.handle;
    try (rewrite observes_frame by reflexivity; reflexivity);
    try reflexivity.
  - unfold Git.git_merge_base. repeat case_match; reflexivity.
  - unfold Git.git_update_ref.
    destruct (Git.rev_parse r value); [| reflexivity]. cbn.
    apply lookup_insert_ne. intros E. rewrite E, Hn in Hc. discriminate.
  - unfold Git.git_checkout. destruct (Git.tip r branch); reflexivity.
  - unfold Git.git_rev_list_parents1. repeat case_match; reflexivity.
  - unfold Git.git_rev_list_head. repeat case_match; reflexivity.
  - unfold Git.git_rev_list_head. repeat case_match; reflexivity.
  - unfold Git.git_rev_list_since. repeat case_match; reflexivity.
  - unfold Git.git_rebase_root.
    repeat case_match; try reflexivity. apply finish_rebase_frame, Hn.
  - unfold Git.git_rebase_abort. destruct (Git.pending r); try reflexivity.
    cbn. apply lookup_insert_ne. intros E. rewrite <- E in Hn. discriminate.
  - unfold Git.git_reset_hard. destruct (Git.rev_parse r parent); [| reflexivity].
    cbn. apply lookup_insert_ne. intros E. rewrite <- E in Hn. discriminate.
  - unfold Git.git_cherry_pick.
    destruct (Git.pending r); try reflexivity.
    destruct (Git.tip r (Git.HEAD r)) as [t |]; [| reflexivity].
    destruct (Git.pick r (Some t) h) as [r' h' | | |] eqn:Hpick; try reflexivity.
    cbn. rewrite lookup_insert_ne by (intros E; rewrite <- E in Hn; discriminate).
    rewrite (pick_refs _ _ _ _ _ Hpick). reflexivity.
  - unfold Git.git_cherry_pick_drop. destruct (Git.pending r); reflexivity.
  - unfold Git.git_cherry_pick_drop. destruct (Git.pending r); reflexivity.
  - unfold Git.git_rev_parse. repeat case_match; reflexivity.
  - unfold Git.git_rebase_onto.
    repeat case_match; try reflexivity; apply finish_rebase_frame, Hn.
  - unfold Git.git_rev_parse. repeat case_match; reflexivity.
  - unfold Git.git_log. repeat case_match; reflexivity.
Qed.

Lemma replay_keeps_backups (branch backupRef : string) (sequence : list string) :
  AllCalls (fun c => writes_backup c = false) (replay branch backupRef sequence).
Proof.
  induction sequence as [| h rest IH]; cbn [replay]; [exact I |].
  footprint; try reflexivity; exact IH.
Qed.

Lemma rebase_root_keeps_backups (branch backupRef : string) (picked : list string) :
  AllCalls (fun c => writes_backup c = false) (rebase_root_with branch backupRef picked).
Proof. unfold rebase_root_with. footprint; reflexivity. Qed.

Lemma hasMerges_keeps_backups :
  AllCalls (fun c => writes_backup c = false) hasMergesInHistory.
Proof. unfold hasMergesInHistory. footprint; reflexivity. Qed.

Lemma makeHead_body_keeps_backups (branch commit backupRef : string) :
  AllCalls (fun c => writes_backup c = false) (makeHead_body branch commit backupRef).
Proof.
  unfold makeHead_body. footprint;
    try reflexivity;
    first [apply hasMerges_keeps_backups | apply rebase_root_keeps_backups
          | apply replay_keeps_backups].
Qed.

Lemma deleteCommit_root_keeps_backups (branch backupRef : string) :
  AllCalls (fun c => writes_backup c = false) (deleteCommit_root branch backupRef).
Proof.
  unfold deleteCommit_root. footprint;
    try reflexivity; apply rebase_root_keeps_backups.
Qed.

(** A program that only reads leaves the repository as it is, whatever it
    returns. *)
Lemma wp_observing {A B : Type} (p : Prog A) (f : A -> Prog B) (r : Git.Repo)
    (Q : B -> Git.Repo -> list (Call * Reply) -> Prop) :
  AllCalls (fun c => observes c = true) p ->
  (forall a log, wp Git.handle (f a) r (fun b r' l2 => Q b r' (log ++ l2))) ->
  wp Git.handle (pbind p f) r Q.
Proof.
  intros Hp Hf. apply wp_pbind. apply wp_intro.
  rewrite (observing_run_frame p r Hp). apply Hf.
Qed.

(** A program that writes no backup name leaves the backup names as they
    are. *)
Lemma wp_keeps_backups {A : Type} (p : Prog A) (r : Git.Repo)
    (Q : A -> Git.Repo -> list (Call * Reply) -> Prop) :
  AllCalls (fun c => writes_backup c = false) p ->
  (forall a r' log,
      (forall name, is_backup name = true ->
                    Git.refs r' !! name = Git.refs r !! name) ->
      Q a r' log) ->
  wp Git.handle p r Q.
Proof.
  intros Hp HQ. apply wp_intro. apply HQ.
  apply (AllCalls_invariant Git.handle (fun c => writes_backup c = false)
           (fun v => forall name, is_backup name = true ->
                                  Git.refs v !! name = Git.refs r !! name));
    [| exact Hp | reflexivity].
  intros c v Hc Hv name Hn. rewrite backup_frame by assumption. apply Hv, Hn.
Qed.

Lemma handle_update_ref_failed (r : Git.Repo) (ref value : string) :
  Git.rev_parse r value = None ->
  Git.handle (Exec (UpdateRef ref value)) r
  = (fst (Git.handle (Exec (UpdateRef ref value)) r), r).
Proof. intros H. simpl. unfold Git.git_update_ref. rewrite H. reflexivity. Qed.

Section Backups.
Variables (r : Git.Repo) (b : string).

Lemma kept_unchanged (r' : Git.Repo) :
  (forall name, is_backup name = true -> Git.refs r' !! name = Git.refs r !! name) ->
  backups_kept r b r'.
Proof. intros H. split; [intros; apply H; assumption |]. left. apply H. reflexivity. Qed.

(** From the backup on: the backup is attempted, and what follows writes
    no backup name. *)
Lemma kept_after_backup {A : Type} (k : Reply -> Prog A)
    (Q : A -> Git.Repo -> list (Call * Reply) -> Prop) :
  (forall reply, AllCalls (fun c => writes_backup c = false) (k reply)) ->
  (forall a r' log, backups_kept r b r' -> Q a r' log) ->
  wp Git.handle
     (Vis (Exec (UpdateRef (backup_name b (Git.now r)) b)) k)
     (Git.with_clock (List.tl (Git.clock r)) r) Q.
Proof.
  intros Hk HQ.
  destruct (Git.rev_parse r b) as [t |] eqn:Hrb.
  - eapply wp_vis;
      [exact (handle_update_ref (Git.with_clock (List.tl (Git.clock r)) r) _ b t Hrb) |].
    apply wp_keeps_backups; [apply Hk |].
    intros a r' log Hframe. apply HQ. split.
    + intros name Hn Hne. rewrite Hframe by exact Hn. cbn.
      apply lookup_insert_ne. congruence.
    + right. exists t. split; [exact Hrb |].
      rewrite Hframe by reflexivity. cbn. apply lookup_insert_eq.
  - eapply wp_vis;
      [exact (handle_update_ref_failed (Git.with_clock (List.tl (Git.clock r)) r) _ b Hrb) |].
    apply wp_keeps_backups; [apply Hk |].
    intros a r' log Hframe. apply HQ, kept_unchanged. exact Hframe.
Qed.

Lemma makeHead_keeps_backups (c : string) :
  wp Git.handle (makeHead b c) r (fun _ r' _ => backups_kept r b r').
Proof.
  assert (Hhere : backups_kept r b r) by (apply kept_unchanged; reflexivity).
  unfold makeHead.
  unfold andThen at 1. apply wp_observing; [footprint; reflexivity |].
  intros [a | e] log; [| apply wp_ret, Hhere].
  unfold andThen at 1. apply wp_observing; [apply ensureCleanState_observes |].
  intros [u | e] log'; [| apply wp_ret, Hhere].
  step_with (eq_refl : Git.handle DateNow r
                       = (ok (Git.now r), Git.with_clock (List.tl (Git.clock r)) r)).
  cbn [stdout ok]. head_normal.
  apply kept_after_backup; [| intros; assumption].
  intros reply. footprint; try reflexivity. apply makeHead_body_keeps_backups.
Qed.

Lemma deleteCommit_keeps_backups (c : string) :
  wp Git.handle (deleteCommit b c) r (fun _ r' _ => backups_kept r b r').
Proof.
  assert (Hhere : backups_kept r b r) by (apply kept_unchanged; reflexivity).
  unfold deleteCommit.
  unfold andThen at 1. apply wp_observing; [footprint; reflexivity |].
  intros [a | e] log; [| apply wp_ret, Hhere].
  unfold andThen at 1. apply wp_observing; [apply ensureCleanState_observes |].
  intros [u | e] log'; [| apply wp_ret, Hhere].
  unfold andThen at 1. apply wp_observing; [footprint; reflexivity |].
  intros [line | e] log''; [| apply wp_ret, Hhere].
  step_with (eq_refl : Git.handle DateNow r
                       = (ok (Git.now r), Git.with_clock (List.tl (Git.clock r)) r)).
  cbn [stdout ok]. head_normal.
  apply kept_after_backup; [| intros; assumption].
  intros reply. footprint; try reflexivity.
  - apply hasMerges_keeps_backups.
  - apply deleteCommit_root_keeps_backups.
  - destruct (String.eqb _ b); reflexivity.
Qed.
End Backups.

Section BackupInAnyEnvironment.
Context {W : Type} (handle : Call -> W -> Reply * W).

(** The one write to the backup namespace, in an arbitrary environment. *)
Lemma engine_backup_calls (o : Operation) (branch commit : string) (w : W) :
  wp handle (engine o branch commit) w (fun _ _ log =>
    forall (ref value : string) (reply : Reply),
      In (Exec (UpdateRef ref value), reply) log -> is_backup ref = true ->
      value = branch
      /\ (exists now : Reply,
             In (DateNow, now) log /\ ref = backup_name branch (stdout now))
      /\ exists before after : list Call,
           map fst log = before ++ Exec (UpdateRef ref value) :: after
           /\ Forall harmless before
           /\ Forall (fun c => writes_backup c = false) after).
Proof.
  destruct o; unfold engine, makeHead, deleteCommit; apply wp_checks;
    try (intros e w' log Hlog ref value reply Hin; exfalso; in_log);
    intros r1 r2 r3 r4 w1.
  - head_normal. apply (wp_ask handle). intros now w5. settle.
    head_normal. apply (wp_ask handle). intros r6 w6.
    apply (wp_without handle (fun c => writes_backup c = false)).
    { footprint; try reflexivity. apply makeHead_body_keeps_backups. }
    intros a w' log HF ref value reply Hin Hb. in_log.
    split; [reflexivity |]. split; [eexists; split; [logged | reflexivity] |].
    exists [ Exec (MergeBaseIsAncestor commit value); Exec DiffQuiet;
             Exec DiffCachedQuiet; Exec InProgressProbe; DateNow ], (map fst log).
    split; [reflexivity |]. split.
    + repeat (apply List.Forall_cons; [first [left; reflexivity | right; reflexivity] |]).
      apply List.Forall_nil.
    + apply (proj2 (List.Forall_map fst (fun c => writes_backup c = false) log)), HF.
  - ask handle r5 w5; [stop; intros; exfalso; in_log |].
    head_normal. apply (wp_ask handle). intros now w6. settle.
    head_normal. apply (wp_ask handle). intros r7 w7.
    apply (wp_without handle (fun c => writes_backup c = false)).
    { footprint; try reflexivity.
      - apply hasMerges_keeps_backups.
      - apply deleteCommit_root_keeps_backups.
      - destruct (String.eqb _ branch); reflexivity. }
    intros a w' log HF ref value reply Hin Hb. in_log.
    split; [reflexivity |]. split; [eexists; split; [logged | reflexivity] |].
    exists [ Exec (MergeBaseIsAncestor commit value); Exec DiffQuiet;
             Exec DiffCachedQuiet; Exec InProgressProbe;
             Exec (RevListParents1 commit); DateNow ], (map fst log).
    split; [reflexivity |]. split.
    + repeat (apply List.Forall_cons; [first [left; reflexivity | right; reflexivity] |]).
      apply List.Forall_nil.
    + apply (proj2 (List.Forall_map fst (fun c => writes_backup c = false) log)), HF.
Qed.
End BackupInAnyEnvironment.

(** C8, as the code keeps it.  In every environment, [makeHead] and
    [deleteCommit] write the backup namespace once at most: by [git
    update-ref refs/backup/git-dnd/<branch>-<timestamp> <branch>], the
    timestamp being the reading of the clock of this run, after calls that
    only read the repository or the clock, so before any mutation; no
    call after it writes a backup name, and the extension has no command
    that deletes a reference.  On the repository model, for plainly named
    branch and commit: a backup reference under any other name is what it
    was, and the reference of that name either stays as it was or points
    at the commit that was the tip of the branch when the operation
    began.  Only a backup of the same branch made at the same clock
    reading is overwritten. *)
Theorem backups_are_additive_across_names :
  (forall (W : Type) (handle : Call -> W -> Reply * W) (w : W)
          (o : Operation) (branch commit ref value : string) (reply : Reply),
      let log := snd (run handle (engine o branch commit) w) in
      In (Exec (UpdateRef ref value), reply) log -> is_backup ref = true ->
      value = branch
      /\ (exists now : Reply,
             In (DateNow, now) log /\ ref = backup_name branch (stdout now))
      /\ exists before after : list Call,
           calls handle (engine o branch commit) w
           = before ++ Exec (UpdateRef ref value) :: after
           /\ Forall harmless before
           /\ Forall (fun c => writes_backup c = false) after)
  /\ (forall (o : Operation) (b c : string) (r : Git.Repo),
      plainly_named r b c = true ->
      let r' := final Git.handle (engine o b c) r in
      let backup := backup_name b (Git.now r) in
      (forall name, is_backup name = true -> name <> backup ->
                    Git.refs r' !! name = Git.refs r !! name)
      /\ (forall t, Git.tip r b = Some t ->
                    Git.refs r' !! backup = Some t
                    \/ Git.refs r' !! backup = Git.refs r !! backup)).
Proof.
  split.
  - intros W handle w o branch commit ref value reply log Hin Hb.
    exact (wp_elim _ _ _ _ (engine_backup_calls handle o branch commit w)
             ref value reply Hin Hb).
  - intros o b c r _ r' backup.
    assert (H : backups_kept r b r').
    { subst r'. destruct o.
      - exact (wp_elim _ _ _ _ (makeHead_keeps_backups r b c)).
      - exact (wp_elim _ _ _ _ (deleteCommit_keeps_backups r b c)). }
    destruct H as [Hothers Hown]. split; [exact Hothers |].
    intros t Htip. destruct Hown as [Hsame | (t' & Ht' & Hnew)].
    + right. exact Hsame.
    + left. rewrite (rev_parse_branch r b t Htip) in Ht'.
      injection Ht' as <-. exact Hnew.
Qed.

(** In the feature scenario, removing the tip D writes the backup from the
    name of the branch, under the name made from the clock reading; it
    points at D, and a backup made earlier under another name is kept. *)
Lemma backups_are_additive_witness :
  let r := Git.with_refs (<["refs/backup/git-dnd/feature-old" := "B"]>
                            (Git.refs (Scenario.feature_repo "feature")))
             (Scenario.feature_repo "feature") in
  let r' := final Git.handle (deleteCommit "feature" "D") r in
  (exists now : Reply,
      In (DateNow, now) (snd (run Git.handle (deleteCommit "feature" "D") r))
      /\ backup_name "feature" Scenario.stamp = backup_name "feature" (stdout now))
  /\ Git.refs r' !! "refs/backup/git-dnd/feature-old" = Some "B"
  /\ Git.refs r' !! backup_name "feature" Scenario.stamp = Some "D".
Proof.
  intros r r'. split; [| split].
  - apply (proj1 backups_are_additive_across_names Git.Repo Git.handle r Remove
             "feature" "D" (backup_name "feature" Scenario.stamp) "feature"
             (ok EmptyString)).
    + vm_compute. logged.
    + reflexivity.
  - pose proof (proj2 backups_are_additive_across_names Remove "feature" "D" r eq_refl)
      as [Hothers _].
    transitivity (Git.refs r !! "refs/backup/git-dnd/feature-old");
      [| reflexivity].
    apply (Hothers "refs/backup/git-dnd/feature-old" eq_refl). discriminate.
  - pose proof (proj2 backups_are_additive_across_names Remove "feature" "D" r eq_refl)
      as [_ Hown].
    destruct (Hown "D" eq_refl) as [H | H]; [exact H | reflexivity].
Defined.

(** C8 as stated fails: a backup name is only as unique as the reading of
    the clock, and [git update-ref] overwrites.  When the clock shows to a
    second operation on the branch the millisecond it showed to the first
    (a wall clock can be set back between two operations), the second
    backup replaces the first: removing the tip D of [feature] makes a
    backup pointing at D, and removing the new tip C overwrites that same
    reference with C. *)
Lemma backup_overwritten_at_same_clock_reading : ~ never_overwrites_backups.
Proof.
  intros H.
  set (r1 := final Git.handle (deleteCommit "feature" "D") Scenario.stalled_clock_repo).
  specialize (H Remove "feature" "C" r1 (backup_name "feature" Scenario.stamp) "D"
                eq_refl eq_refl).
  vm_compute in H. discriminate.
Qed.

(** ** Repositioning a commit *)

Section ReplayOrder.
Context {W : Type} (handle : Call -> W -> Reply * W).

(** The loop cherry-picks its sequence in order: the commits picked are a
    prefix of the sequence, and the whole of it when the loop succeeds. *)
Lemma replay_picks_in_order (branch backupRef : string) (sequence : list string) (w : W) :
  picks (calls handle (replay branch backupRef sequence) w) `prefix_of` sequence
  /\ (outcome handle (replay branch backupRef sequence) w = Resolved tt ->
      picks (calls handle (replay branch backupRef sequence) w) = sequence).
Proof.
  revert w. induction sequence as [| h rest IH]; intros w.
  - split; [apply prefix_nil | reflexivity].
  - unfold calls, outcome. simpl.
    destruct (handle (Exec (CherryPick h)) w) as [r w1].
    destruct (error r) as [msg |]; simpl.
    + destruct (now_empty (error_text (JS.or_else (stderr r) msg))); simpl.
      * destruct (handle (Exec CherryPickSkip) w1) as [r2 w2].
        destruct (IH w2) as [Hpre Hall]. unfold calls, outcome in Hpre, Hall.
        destruct (error r2); simpl;
          destruct (run handle (replay branch backupRef rest) w2) as [[res w3] l];
          simpl in *; (split; [apply prefix_cons, Hpre | intros E; f_equal; auto]).
      * destruct (handle (Exec CherryPickAbort) w1) as [ra wa].
        destruct (error ra); simpl;
          destruct (handle (Exec (UpdateRef (head_ref branch) backupRef)) wa) as [ru wu];
          destruct (error ru); simpl;
          (split; [apply prefix_cons, prefix_nil | discriminate]).
    + destruct (IH w1) as [Hpre Hall]. unfold calls, outcome in Hpre, Hall.
      destruct (run handle (replay branch backupRef rest) w1) as [[res w3] l];
        simpl in *. split; [apply prefix_cons, Hpre | intros E; f_equal; auto].
Qed.
Lemma picks_app (a b : list Call) : picks (a ++ b) = picks a ++ picks b.
Proof. apply flat_map_app. Qed.

Lemma picks_none (cs : list Call) :
  Forall (fun c => forall h, c <> Exec (CherryPick h)) cs -> picks cs = [].
Proof.
  induction 1 as [| c cs Hc _ IH]; [reflexivity |].
  unfold picks in *. simpl. rewrite IH.
  destruct c as [[] | | | | |]; try reflexivity.
  exfalso. eapply Hc. reflexivity.
Qed.

(** The same for the loop inside [try { ... } finally { f }], when [f]
    picks nothing. *)
Lemma finally_replay_picks (branch backupRef : string) (sequence : list string)
    (f : Promise unit) (w : W) :
  AllCalls (fun c => forall h, c <> Exec (CherryPick h)) f ->
  picks (calls handle (finally (replay branch backupRef sequence) f) w)
    `prefix_of` sequence
  /\ (outcome handle (finally (replay branch backupRef sequence) f) w = Resolved tt ->
      picks (calls handle (finally (replay branch backupRef sequence) f) w) = sequence).
Proof.
  intros Hf. destruct (replay_picks_in_order branch backupRef sequence w) as [Hpre Hall].
  unfold finally. rewrite calls_pbind, outcome_pbind.
  set (s := outcome handle (replay branch backupRef sequence) w) in *.
  set (w1 := final handle (replay branch backupRef sequence) w).
  rewrite calls_pbind, outcome_pbind.
  rewrite !picks_app.
  rewrite (picks_none (calls handle f w1)) by (apply AllCalls_calls, Hf).
  assert (Hend : forall t : Settled unit, calls handle
            (match t with
             | Resolved _ => Ret s
             | Rejected e => Ret (Rejected e)
             end) (final handle f w1) = []).
  { intros [u | e]; reflexivity. }
  rewrite Hend. simpl. rewrite !app_nil_r.
  split; [exact Hpre |].
  intros Hok. apply Hall.
  destruct (outcome handle f w1) as [u | e]; unfold outcome in Hok; simpl in Hok;
    [exact Hok | discriminate].
Qed.
End ReplayOrder.

Lemma reach_present (fuel : nat) (cs : gmap string Git.Commit) (h x : string) :
  In x (Git.reach fuel cs h) -> exists m, cs !! x = Some m.
Proof.
  revert h. induction fuel as [| fuel IH]; intros h; simpl; [tauto |].
  destruct (cs !! h) as [m |] eqn:Hm; simpl; [| tauto].
  intros [<- | Hin]; [eauto |].
  apply in_flat_map in Hin. destruct Hin as (p & _ & Hp). eapply IH, Hp.
Qed.

(** What git lists between two commits are tidy names. *)
Lemma since_tidy (r : Git.Repo) (a b : string) :
  Git.sane r = true -> Forall (fun s => Git.tidy s = true) (Git.since r a b).
Proof.
  intros Hsane. apply Forall_forall. intros x Hx.
  apply list_elem_of_In in Hx. unfold Git.since in Hx.
  apply in_rev, filter_In in Hx. destruct Hx as [Hx _].
  unfold Git.log in Hx. apply nodup_In, reach_present in Hx.
  destruct Hx as [m Hm].
  destruct (sane_lookup r x m Hsane Hm) as [Hn _].
  apply (commit_name_facts r x Hn).
Qed.

Lemma handle_since (r : Git.Repo) (parent p t : string) :
  Git.rev_parse r parent = Some p -> Git.tip r (Git.HEAD r) = Some t ->
  Git.handle (Exec (RevListReverseSince parent)) r
  = (ok (Git.unlines (Git.since r p t)), r).
Proof.
  intros H1 H2. simpl. unfold Git.git_rev_list_since. rewrite H1, H2. reflexivity.
Qed.

(** The sequence of the code is the sequence of the specification. *)
Lemma move_last_is_target_last (commit : string) (hashes : list string) :
  move_last commit hashes = target_last commit hashes.
Proof.
  unfold move_last, target_last. f_equal.
  induction hashes as [| h rest IH]; [reflexivity |].
  cbn [List.filter List.remove]. unfold differs_from at 1.
  destruct (string_dec commit h) as [<- | Hne].
  - rewrite String.eqb_refl. exact IH.
  - replace (String.eqb h commit) with false
      by (symmetry; apply String.eqb_neq; congruence).
    cbn [negb]. f_equal. exact IH.
Qed.

Section RepositionInAnyEnvironment.
Context {W : Type} (handle : Call -> W -> Reply * W).

Lemma wp_mono {A : Type} (p : Prog A) (w : W)
    (Q1 Q2 : A -> W -> list (Call * Reply) -> Prop) :
  wp handle p w Q1 -> (forall a w' log, Q1 a w' log -> Q2 a w' log) ->
  wp handle p w Q2.
Proof.
  unfold wp. destruct (run handle p w) as [[a w'] log]. auto.
Qed.

Lemma replay_observes_nothing (branch backupRef : string) (sequence : list string) :
  AllCalls (fun c => observes c = false) (replay branch backupRef sequence).
Proof.
  induction sequence as [| h rest IH]; cbn [replay]; [exact I |].
  footprint; first [exact IH | reflexivity].
Qed.

(** The loop and the restoring of the checkout after it: nothing is read,
    and the commits picked are the sequence, or a prefix of it when the
    run fails. *)
Lemma replay_then_restore (branch backupRef : string) (sequence : list string)
    (restore : Promise unit) (w : W) :
  AllCalls (fun c => observes c = false /\ forall h, c <> Exec (CherryPick h)) restore ->
  wp handle (finally (replay branch backupRef sequence) restore) w (fun a _ log =>
    List.Forall (fun cr => observes (fst cr) = false) log
    /\ picks (map fst log) `prefix_of` sequence
    /\ (a = Resolved tt -> picks (map fst log) = sequence)).
Proof.
  intros Hrestore. apply wp_intro. split; [| apply finally_replay_picks].
  - apply (proj1 (List.Forall_map fst (fun c => observes c = false) _)).
    apply (AllCalls_calls handle (fun c => observes c = false)).
    apply AllCalls_finally; [apply replay_observes_nothing |].
    eapply AllCalls_weaken; [| exact Hrestore]. intros c [Hc _]. exact Hc.
  - eapply AllCalls_weaken; [| exact Hrestore]. intros c [_ Hc]. exact Hc.
Qed.
End RepositionInAnyEnvironment.

Section RepositionCalls.
Context {W : Type} (handle : Call -> W -> Reply * W).

(** The one-parent path in an arbitrary environment. *)
Lemma makeHead_linear_calls (branch commit : string) (w : W) :
  wp handle (makeHead branch commit) w (fun a _ log =>
    forall (listed ranged : Reply) (parent : string),
      In (Exec (RevListParents1 commit), listed) log ->
      error listed = None ->
      JS.split_spaces (JS.trim (stdout listed)) = [commit; parent] ->
      In (Exec (RevListReverseSince parent), ranged) log ->
      error ranged = None ->
      exists (now headRead : Reply) (after : list Call),
        map fst log =
          [ Exec (MergeBaseIsAncestor commit branch); Exec DiffQuiet;
            Exec DiffCachedQuiet; Exec InProgressProbe; DateNow;
            Exec (UpdateRef (backup_name branch (stdout now)) branch);
            Exec RevParseAbbrevRefHead ]
          ++ (if String.eqb (JS.trim (stdout headRead)) branch
              then [] else [Exec (Checkout branch)])
          ++ [ Exec (RevListParents1 commit);
               Exec (RevListReverseSince parent);
               Exec (ResetHard parent) ] ++ after
        /\ In (Exec RevParseAbbrevRefHead, headRead) log
        /\ picks after `prefix_of` target_last commit (JS.lines (stdout ranged))
        /\ (a = Resolved tt ->
            picks after = target_last commit (JS.lines (stdout ranged)))).
Proof.
  unfold makeHead. apply wp_checks.
  { intros e w' log Hlog listed ranged parent Hin. exfalso. in_log. }
  intros r1 r2 r3 r4 w1.
  head_normal. apply (wp_ask handle). intros now w5. settle.
  ask handle r6 w6.
  all: ask handle r7 w7; [stop; intros; in_log |].
  all: destruct (String.eqb (JS.trim (stdout r7)) branch) eqn:Hcur; cbn [negb]; settle.
  2, 4: ask handle r8 w8; [stop; intros; in_log |].
  all: unfold makeHead_body.
  all: ask handle r9 w9;
    [ apply (wp_without handle (fun c => observes c = false));
      [footprint; reflexivity | intros; in_log; congruence] |].
  all: destruct (JS.split_spaces (JS.trim (stdout r9))) as [| x [| p [| y more]]] eqn:Hparts;
    cbn [length Nat.ltb Nat.leb nth].
  all: try (apply (wp_without handle (fun c => c <> Exec (RevListParents1 commit)));
            [ unfold hasMergesInHistory, rebase_root_with; footprint; discriminate
            | intros; in_log; congruence ]).
  all: ask handle r10 w10;
    [ apply (wp_without handle (fun c => observes c = false));
      [footprint; reflexivity | intros; in_log; congruence] |].
  all: ask handle r11 w11.
  all: try (try (ask handle r12 w12);
            (stop; intros; in_log;
             exists now, r7; eexists; rewrite Hcur;
             (split; [reflexivity |]); (split; [logged |]); simpl;
             (split; [apply prefix_nil | discriminate]))).
  all: try (first
    [ eapply wp_mono;
      [ apply (replay_then_restore handle branch _ _ (resolve tt)); exact I |]
    | eapply wp_mono;
      [ apply (replay_then_restore handle branch _ _
                 (do! execPromise (Checkout (JS.trim (stdout r7))) in resolve tt));
        footprint; (split; [reflexivity | discriminate]) |] ];
    intros a w' log (HF & Hpre & Hall); intros; in_log;
    exists now, r7; eexists; rewrite Hcur;
    (split; [reflexivity |]); (split; [logged |]);
    rewrite <- move_last_is_target_last; split; assumption).
Qed.
End RepositionCalls.

(** C1, for a target passed under the name git prints for it.  In every
    environment that answers the reading commands in ASCII: when [git rev-list --parents -n 1] lists [commit] under
    this very name with exactly one parent, [makeHead], after its checks,
    the backup and the switch to the branch unless [HEAD] is read as the
    branch, asks git for the commits after the parent up to the tip, oldest
    first ([git rev-list --reverse <parent>..HEAD]), then resets hard to
    the parent, and then cherry-picks, in order, the commits of that list
    with the target removed and the target appended last: the commits
    picked are a prefix of this sequence, and all of it when the operation
    succeeds.
    On the history A -> B -> C -> D of [feature], repositioning B resets to A
    and replays C, D, B, leaving A -> C' -> D' -> B', whose tip carries the
    change of B. *)
Theorem makeHead_replays_range_with_target_last :
  (forall (W : Type) (handle : Call -> W -> Reply * W) (w : W)
          (branch commit parent : string) (listed ranged : Reply),
      let log := snd (run handle (makeHead branch commit) w) in
      answers_in_ascii log = true ->
      In (Exec (RevListParents1 commit), listed) log -> error listed = None ->
      JS.split_spaces (JS.trim (stdout listed)) = [commit; parent] ->
      In (Exec (RevListReverseSince parent), ranged) log -> error ranged = None ->
      exists (now headRead : Reply) (after : list Call),
        calls handle (makeHead branch commit) w =
          [ Exec (MergeBaseIsAncestor commit branch); Exec DiffQuiet;
            Exec DiffCachedQuiet; Exec InProgressProbe; DateNow;
            Exec (UpdateRef (backup_name branch (stdout now)) branch);
            Exec RevParseAbbrevRefHead ]
          ++ (if String.eqb (JS.trim (stdout headRead)) branch
              then [] else [Exec (Checkout branch)])
          ++ [ Exec (RevListParents1 commit);
               Exec (RevListReverseSince parent);
               Exec (ResetHard parent) ] ++ after
        /\ In (Exec RevParseAbbrevRefHead, headRead) log
        /\ picks after `prefix_of` target_last commit (JS.lines (stdout ranged))
        /\ (outcome handle (makeHead branch commit) w = Resolved tt ->
            picks after = target_last commit (JS.lines (stdout ranged))))
  /\ (let r := Scenario.feature_repo "main" in
      let r' := final Git.handle (makeHead "feature" "B") r in
      Git.history r "feature" = [("A", "a"); ("B", "b"); ("C", "c"); ("D", "d")]
      /\ outcome Git.handle (makeHead "feature" "B") r = Resolved tt
      /\ calls Git.handle (makeHead "feature" "B") r =
         [ Exec (MergeBaseIsAncestor "B" "feature"); Exec DiffQuiet;
           Exec DiffCachedQuiet; Exec InProgressProbe; DateNow;
           Exec (UpdateRef "refs/backup/git-dnd/feature-2026-11-02T15-44-00-123Z"
                           "feature");
           Exec RevParseAbbrevRefHead; Exec (Checkout "feature");
           Exec (RevListParents1 "B"); Exec (RevListReverseSince "A");
           Exec (ResetHard "A"); Exec (CherryPick "C"); Exec (CherryPick "D");
           Exec (CherryPick "B"); Exec (Checkout "main") ]
      /\ Git.history r' "feature"
         = [("A", "a"); ("C'", "c"); ("D'", "d"); ("B'", "b")]
      /\ Git.refs r' !! "refs/backup/git-dnd/feature-2026-11-02T15-44-00-123Z"
         = Some "D").
Proof.
  split.
  - intros W handle w branch commit parent listed ranged log _ H1 H2 H3 H4 H5.
    exact (wp_elim _ _ _ _ (makeHead_linear_calls handle branch commit w)
             listed ranged parent H1 H2 H3 H4 H5).
  - vm_compute. repeat split.
Qed.

(** Repositioning B in the scenario with [feature] checked out: git lists
    B with the parent A, and B, C, D after A; the commits picked are C, D
    and B in this order. *)
Lemma makeHead_replays_witness :
  exists (now headRead : Reply) (after : list Call),
    calls Git.handle (makeHead "feature" "B") (Scenario.feature_repo "feature") =
      [ Exec (MergeBaseIsAncestor "B" "feature"); Exec DiffQuiet;
        Exec DiffCachedQuiet; Exec InProgressProbe; DateNow;
        Exec (UpdateRef (backup_name "feature" (stdout now)) "feature");
        Exec RevParseAbbrevRefHead ]
      ++ (if String.eqb (JS.trim (stdout headRead)) "feature"
          then [] else [Exec (Checkout "feature")])
      ++ [ Exec (RevListParents1 "B"); Exec (RevListReverseSince "A");
           Exec (ResetHard "A") ] ++ after
    /\ picks after = ["C"; "D"; "B"].
Proof.
  destruct (proj1 makeHead_replays_range_with_target_last Git.Repo Git.handle
              (Scenario.feature_repo "feature") "feature" "B" "A"
              (ok ("B A" +:+ Git.nl))
              (ok ("B" +:+ Git.nl +:+ "C" +:+ Git.nl +:+ "D" +:+ Git.nl)))
    as (now & headRead & after & Hcalls & _ & _ & Hall);
    try (vm_compute; first [reflexivity | logged]).
  exists now, headRead, after. split; [exact Hcalls |]. apply Hall.
  vm_compute. reflexivity.
Defined.

(** C1 as stated fails for a target that is passed under another name
    than the one git prints: [h !== commit] compares strings, so the
    target stays where it is in the sequence and its name is appended.
    In the scenario with a tag [vB] on B, the commit named is reachable
    from [feature] and has exactly one parent; [makeHead] picks B, C, D
    and then B once more, which is empty and skipped: it succeeds and
    leaves A -> B' -> C' -> D', the tip carrying the change of D.  For an
    abbreviated hash of B, as git answers it, the commits picked are
    likewise B, C, D and the abbreviation. *)
Lemma makeHead_keeps_target_in_place_under_another_name :
  (let r := Scenario.tagged_repo "feature" in
   let r' := final Git.handle (makeHead "feature" "refs/tags/vB") r in
   Git.rev_parse r "refs/tags/vB" = Some "B"
   /\ Git.reachable r "refs/tags/vB" "feature" = true
   /\ Git.commits r !! "B" = Some (Git.mkCommit ["A"] "b")
   /\ outcome Git.handle (makeHead "feature" "refs/tags/vB") r = Resolved tt
   /\ picks (calls Git.handle (makeHead "feature" "refs/tags/vB") r)
      = ["B"; "C"; "D"; "refs/tags/vB"]
   /\ Git.history r' "feature" = [("A", "a"); ("B'", "b"); ("C'", "c"); ("D'", "d")])
  /\ outcome scripted (makeHead "feature" Scenario.short_B)
             Scenario.abbreviated_reposition_replies = Resolved tt
  /\ picks (calls scripted (makeHead "feature" Scenario.short_B)
                  Scenario.abbreviated_reposition_replies)
     = [Scenario.hash_B; Scenario.hash_C; Scenario.hash_D; Scenario.short_B]
  /\ target_last Scenario.hash_B [Scenario.hash_B; Scenario.hash_C; Scenario.hash_D]
     = [Scenario.hash_C; Scenario.hash_D; Scenario.hash_B].
Proof.
  split; [| split; [| split]]; vm_compute; repeat split.
Qed.

(** * Further properties of the extension *)

(** ** The replay order *)

Lemma move_last_absent (commit : string) (hashes : list string) :
  ~ In commit hashes -> List.filter (differs_from commit) hashes = hashes.
Proof.
  induction hashes as [| h rest IH]; [reflexivity |].
  intros Hnot. simpl. unfold differs_from at 1.
  destruct (String.eqb_spec h commit) as [-> | Hne].
  - exfalso. apply Hnot. left. reflexivity.
  - simpl. f_equal. apply IH. intros Hin. apply Hnot. right. exact Hin.
Qed.

Lemma move_last_permutes (commit : string) (hashes : list string) :
  List.NoDup hashes -> In commit hashes ->
  Permutation hashes (move_last commit hashes).
Proof.
  unfold move_last. induction hashes as [| h rest IH]; [intros _ [] |].
  intros Hnd Hin. inversion Hnd as [| ? ? Hh Hrest]; subst. simpl.
  unfold differs_from at 1.
  destruct (String.eqb_spec h commit) as [-> | Hne]; simpl.
  - rewrite move_last_absent by exact Hh. apply Permutation_cons_append.
  - destruct Hin as [E | Hin]; [contradiction |].
    apply perm_skip. apply IH; assumption.
Qed.

(** X1: the sequence [makeHead] replays, [hashes.filter(h => h !==
    commit).concat([commit])], always ends with the commit and keeps the
    other hashes in their order; when the commit is listed exactly once
    (the hashes being distinct) it is a permutation of the list, so
    nothing is lost or added; when the commit is not listed literally (an
    abbreviated hash, say) the list is kept whole and the commit appended
    to it. *)
Theorem move_last_keeps_all_and_ends_with_target :
  forall (commit : string) (hashes : list string),
    List.last (move_last commit hashes) EmptyString = commit
    /\ removelast (move_last commit hashes) = List.filter (differs_from commit) hashes
    /\ (List.NoDup hashes -> In commit hashes ->
        Permutation hashes (move_last commit hashes)
        /\ List.NoDup (move_last commit hashes))
    /\ (~ In commit hashes -> move_last commit hashes = hashes ++ [commit]).
Proof.
  intros commit hashes. unfold move_last. split; [apply last_last |].
  split; [apply removelast_last |]. split.
  - intros Hnd Hin. pose proof (move_last_permutes commit hashes Hnd Hin) as Hp.
    split; [exact Hp |].
    apply NoDup_ListNoDup. rewrite <- Hp. apply NoDup_ListNoDup. exact Hnd.
  - intros Hnot. rewrite move_last_absent by exact Hnot. reflexivity.
Qed.

(** Moving B last in B, C, D gives C, D, B; moving an abbreviation of B
    appends it. *)
Lemma move_last_witness :
  Permutation ["B"; "C"; "D"] (move_last "B" ["B"; "C"; "D"])
  /\ move_last "B1" ["B1234"; "C5678"] = ["B1234"; "C5678"; "B1"].
Proof.
  destruct (move_last_keeps_all_and_ends_with_target "B" ["B"; "C"; "D"])
    as (_ & _ & Hperm & _).
  destruct (move_last_keeps_all_and_ends_with_target "B1" ["B1234"; "C5678"])
    as (_ & _ & _ & Habsent).
  split.
  - apply Hperm.
    + repeat constructor; simpl; intuition discriminate.
    + left. reflexivity.
  - apply Habsent. simpl. intuition discriminate.
Defined.

(** ** The precondition check *)

(** X2: what [ensureCleanState] answers, in every environment.  Both
    diffs are always run.  When one of them fails or prints DIRTY the
    promise rejects as dirty and the test for an operation in progress is
    not run; otherwise that test is run, and the promise resolves exactly
    when it succeeds without printing BUSY, and rejects as busy when it
    fails or prints BUSY. *)
Theorem ensureCleanState_passes_exactly_when_tests_are_silent :
  forall (W : Type) (handle : Call -> W -> Reply * W) (w : W),
    let log := snd (run handle ensureCleanState w) in
    exists wc idx : Reply,
      firstn 2 log = [(Exec DiffQuiet, wc); (Exec DiffCachedQuiet, idx)]
      /\ if silent "DIRTY" wc && silent "DIRTY" idx
         then exists probe : Reply,
                log = [ (Exec DiffQuiet, wc); (Exec DiffCachedQuiet, idx);
                        (Exec InProgressProbe, probe) ]
                /\ outcome handle ensureCleanState w
                   = if silent "BUSY" probe then Resolved tt else Rejected busy_message
         else log = [(Exec DiffQuiet, wc); (Exec DiffCachedQuiet, idx)]
              /\ outcome handle ensureCleanState w = Rejected dirty_message.
Proof.
  intros W handle w. unfold outcome, ensureCleanState. cbv zeta.
  repeat (simpl;
          match goal with
          | |- context [handle ?c ?v] => destruct (handle c v) as [? ?]
          | |- context [match error ?r with _ => _ end] => destruct (error r) eqn:?
          | |- context [(_ || true)%bool] => rewrite orb_true_r
          | |- context [JS.includes ?n ?s] => destruct (JS.includes n s) eqn:?
          end);
    simpl; eexists _, _; (split; [reflexivity |]); unfold silent;
    repeat match goal with
           | H : error _ = _ |- _ => rewrite H
           | H : JS.includes _ _ = _ |- _ => rewrite H
           end;
    simpl; rewrite ?andb_false_r; simpl;
    first [ split; reflexivity
          | eexists; (split; [reflexivity |]);
            repeat match goal with
                   | H : error _ = _ |- _ => rewrite H
                   | H : JS.includes _ _ = _ |- _ => rewrite H
                   end; reflexivity ].
Qed.

(** X3: [ensureCleanState] fails closed: in every environment, if any of
    the commands it runs fails, it rejects. *)
Theorem ensureCleanState_fails_closed :
  forall (W : Type) (handle : Call -> W -> Reply * W) (w : W),
    Exists (fun cr => error (snd cr) <> None) (snd (run handle ensureCleanState w)) ->
    exists e, outcome handle ensureCleanState w = Rejected e.
Proof.
  intros W handle w. unfold outcome.
  repeat (simpl;
          match goal with
          | |- context [handle ?c ?v] => destruct (handle c v) as [? ?]
          | |- context [match error ?r with _ => _ end] => destruct (error r) eqn:?
          | |- context [(_ || true)%bool] => rewrite orb_true_r
          | |- context [if ?b then _ else _] => destruct b
          end);
    simpl; eauto.
  intros H. exfalso.
  repeat match goal with
         | H : Exists _ (_ :: _) |- _ => apply Exists_cons in H; destruct H as [H | H]
         | H : Exists _ [] |- _ => apply Exists_nil in H; contradiction
         | H : error _ <> None |- _ => simpl in H; congruence
         end.
Qed.

(** When the diff command cannot run, the state counts as dirty. *)
Lemma ensureCleanState_fails_closed_witness :
  exists e, outcome scripted ensureCleanState
              [failed Git.command_failed "fatal: not a git repository"; ok EmptyString]
            = Rejected e.
Proof.
  apply ensureCleanState_fails_closed. left. discriminate.
Defined.

(** ** The merge scan *)

(** X4: [hasMergesInHistory] never rejects: in every environment it runs
    one [git rev-list --parents --reverse HEAD] and resolves; when that
    command fails the answer is that there are no merges. *)
Theorem hasMergesInHistory_never_rejects :
  forall (W : Type) (handle : Call -> W -> Reply * W) (w : W),
    calls handle hasMergesInHistory w = [Exec RevListParentsReverseHead]
    /\ (exists found, outcome handle hasMergesInHistory w = Resolved found)
    /\ (error (fst (handle (Exec RevListParentsReverseHead) w)) <> None ->
        outcome handle hasMergesInHistory w = Resolved false).
Proof.
  intros W handle w. unfold calls, outcome. simpl.
  destruct (handle (Exec RevListParentsReverseHead) w) as [r w1]. simpl.
  destruct (error r) as [m |]; simpl.
  - split; [reflexivity |]. split; [eauto | reflexivity].
  - split; [reflexivity |]. split; [eauto | congruence].
Qed.

(** A scan that cannot run finds no merge. *)
Lemma hasMergesInHistory_witness :
  outcome scripted hasMergesInHistory [failed Git.command_failed "fatal: bad revision"]
  = Resolved false.
Proof.
  apply (hasMergesInHistory_never_rejects (list Reply) scripted). discriminate.
Defined.

#[local] Arguments String.append : simpl nomatch.

Lemma spaceless_unbroken (s : string) : Git.spaceless s = true -> unbroken s = true.
Proof.
  induction s as [| a s IH]; [reflexivity |]. simpl.
  intros H. apply andb_prop in H. destruct H as [Ha Hs].
  apply negb_true_iff in Ha. destruct (not_space_not_newline a Ha) as [-> ->].
  simpl. apply IH, Hs.
Qed.

Lemma unbroken_app (a b : string) :
  unbroken a = true -> unbroken b = true -> unbroken (a +:+ b) = true.
Proof.
  intros Ha Hb. induction a as [| x a IH]; [exact Hb |]. simpl in *.
  apply andb_prop in Ha. destruct Ha as [Hx Ha]. rewrite Hx. simpl. apply IH, Ha.
Qed.

Lemma join_unbroken (xs : list string) :
  Forall (fun s => Git.tidy s = true) xs -> unbroken (JS.join " " xs) = true.
Proof.
  induction 1 as [| x xs Hx Hxs IH]; [reflexivity |].
  destruct xs as [| y ys].
  - simpl. apply spaceless_unbroken, tidy_spaceless, Hx.
  - change (JS.join " " (x :: y :: ys)) with (x +:+ " " +:+ JS.join " " (y :: ys)).
    apply unbroken_app; [apply spaceless_unbroken, tidy_spaceless, Hx |].
    apply (unbroken_app " "); [reflexivity | exact IH].
Qed.

(** A line without line breaks is split off whole. *)
Lemma split_lines_line (x s : string) :
  unbroken x = true ->
  JS.split_lines (x +:+ Git.nl +:+ s) = x :: JS.split_lines s.
Proof.
  induction x as [| a x IH]; intros H.
  - reflexivity.
  - simpl in H. apply andb_prop in H. destruct H as [Ha Hx].
    apply andb_prop in Ha. destruct Ha as [Hn Hr].
    apply negb_true_iff in Hn, Hr.
    change (String a x +:+ Git.nl +:+ s) with (String a (x +:+ Git.nl +:+ s)).
    remember (x +:+ Git.nl +:+ s) as rest eqn:Hrest.
    assert (Hstep : JS.split_lines (String a rest)
                    = JS.push_char a (JS.split_lines rest)).
    { simpl. rewrite Hn. destruct rest as [| b t]; [reflexivity |].
      rewrite Hr. reflexivity. }
    rewrite Hstep. subst rest. rewrite (IH Hx). reflexivity.
Qed.

Lemma trim_join (x : string) (xs : list string) :
  Forall (fun s => Git.tidy s = true) (x :: xs) ->
  JS.trim (JS.join " " (x :: xs)) = JS.join " " (x :: xs).
Proof.
  intros H. destruct (join_shape x xs H) as [[s Hs] (a & z & Hj & Hz)].
  unfold JS.trim.
  replace (JS.trimStart (JS.join " " (x :: xs))) with (JS.join " " (x :: xs)).
  - rewrite Hj. apply trimEnd_solid, Hz.
  - rewrite Hs. symmetry. apply trimStart_tidy. inversion H; assumption.
Qed.

(** A printed line [h p1 ... pn] counts as a merge exactly when [n] is at
    least two. *)
Lemma lists_two_parents_line (h : string) (ps : list string) :
  Forall (fun s => Git.tidy s = true) (h :: ps) ->
  lists_two_parents (JS.join " " (h :: ps)) = (2 <=? length ps)%nat.
Proof.
  intros H. unfold lists_two_parents.
  rewrite trim_join, split_spaces_join by exact H.
  destruct (join_shape h ps H) as [[s Hs] _]. rewrite Hs.
  inversion H as [| ? ? Hh _]; subst.
  destruct (tidy_inv h Hh) as (a & h' & -> & _). reflexivity.
Qed.

#[local] Arguments String.append : simpl never.

Lemma sane_line (r : Git.Repo) (h : string) (m : Git.Commit) :
  Git.sane r = true -> Git.commits r !! h = Some m ->
  Forall (fun s => Git.tidy s = true) (h :: Git.parents m).
Proof.
  intros Hsane Hm. destruct (sane_lookup r h m Hsane Hm) as [Hh Hps].
  constructor; [apply (commit_name_facts r h Hh) |].
  eapply Forall_impl; [exact Hps |]. intros p [Hp _].
  apply (commit_name_facts r p Hp).
Qed.

Lemma scan_of_lines (r : Git.Repo) (hs : list string) :
  Git.sane r = true ->
  Forall (fun h => exists m, Git.commits r !! h = Some m) hs ->
  existsb lists_two_parents
    (JS.split_lines (fold_right (fun h out => Git.line_of r h +:+ out) EmptyString hs))
  = existsb (fun h => match Git.commits r !! h with
                      | Some m => (2 <=? length (Git.parents m))%nat
                      | None => false
                      end) hs.
Proof.
  intros Hsane. induction 1 as [| h hs [m Hm] _ IH]; [reflexivity |].
  cbn [fold_right]. unfold Git.line_of at 1. rewrite Hm.
  pose proof (sane_line r h m Hsane Hm) as Htidy.
  rewrite append_assoc, split_lines_line by (apply join_unbroken, Htidy).
  cbn [existsb]. rewrite IH, lists_two_parents_line by exact Htidy.
  rewrite Hm. reflexivity.
Qed.


Lemma word_char_not_space (a : ascii) : word_char a = true -> JS.is_space a = false.
Proof.
  destruct a as [[] [] [] [] [] [] [] []]; intros H;
    first [reflexivity | discriminate H].
Qed.

Lemma word_chars_spaceless (s : string) : word_chars s = true -> Git.spaceless s = true.
Proof.
  induction s as [| a s IH]; [reflexivity |]. cbn [word_chars Git.spaceless].
  intros H. apply andb_prop in H. destruct H as [Ha Hs].
  rewrite (word_char_not_space a Ha). apply IH, Hs.
Qed.

(** A shell word is not empty and holds no white space. *)
Lemma shell_word_tidy (s : string) : shell_word s = true -> Git.tidy s = true.
Proof.
  destruct s as [| a s]; [discriminate |]. unfold shell_word, Git.tidy.
  intros H. apply andb_prop in H. destruct H as [_ H].
  rewrite (word_chars_spaceless _ H). reflexivity.
Qed.

Lemma scan_of_listing (entries : list (string * list string)) :
  Forall (fun e => Forall (fun s => Git.tidy s = true) (fst e :: snd e)) entries ->
  existsb lists_two_parents (JS.split_lines (parents_listing entries))
  = existsb (fun e => (2 <=? length (snd e))%nat) entries.
Proof.
  induction 1 as [| [h ps] entries Htidy _ IH]; [reflexivity |].
  cbn [parents_listing fold_right]. unfold parents_line at 1. cbn [fst snd] in *.
  rewrite append_assoc, split_lines_line by (apply join_unbroken, Htidy).
  cbn [existsb snd]. rewrite lists_two_parents_line by exact Htidy.
  f_equal. exact IH.
Qed.

(** X5: [hasMergesInHistory] reads the listing of [git rev-list --parents
    --reverse HEAD] as meant: in every environment, when the command
    succeeds and prints a line per commit with its hash followed by the
    hashes of its parents, the answer is whether some commit of the
    listing has two or more parents. *)
Theorem hasMergesInHistory_reads_the_listing :
  forall (W : Type) (handle : Call -> W -> Reply * W) (w : W)
         (entries : list (string * list string)),
    Forall (fun e => Forall (fun s => shell_word s = true) (fst e :: snd e)) entries ->
    error (fst (handle (Exec RevListParentsReverseHead) w)) = None ->
    stdout (fst (handle (Exec RevListParentsReverseHead) w)) = parents_listing entries ->
    outcome handle hasMergesInHistory w
    = Resolved (existsb (fun e => (2 <=? length (snd e))%nat) entries).
Proof.
  intros W handle w entries Hwords Hok Hout.
  unfold outcome, hasMergesInHistory. simpl.
  destruct (handle (Exec RevListParentsReverseHead) w) as [reply w1].
  cbn [fst] in Hok, Hout. rewrite Hok. simpl. rewrite Hout.
  rewrite scan_of_listing; [reflexivity |].
  eapply Forall_impl; [exact Hwords |]. intros e He.
  eapply Forall_impl; [exact He |]. intros s. apply shell_word_tidy.
Qed.

(** The listing of the merge scenario: M has two parents. *)
Lemma hasMergesInHistory_listing_witness :
  outcome scripted hasMergesInHistory
    [ok ("A" +:+ Git.nl +:+ "B A" +:+ Git.nl +:+ "X A" +:+ Git.nl
         +:+ "M B X" +:+ Git.nl)]
  = Resolved true.
Proof.
  apply (hasMergesInHistory_reads_the_listing (list Reply) scripted _
           [("A", []); ("B", ["A"]); ("X", ["A"]); ("M", ["B"; "X"])]).
  - repeat constructor.
  - reflexivity.
  - reflexivity.
Defined.

(** ** What the operations write, and when *)

Lemma replay_own_ref (branch backupRef : string) (sequence : list string) :
  AllCalls (own_ref branch) (replay branch backupRef sequence).
Proof.
  induction sequence as [| h rest IH]; cbn [replay]; [exact I |].
  footprint; try exact IH; intros ref value E; try discriminate;
    injection E as <- _; left; reflexivity.
Qed.

Lemma rebase_root_own_ref (branch backupRef : string) (picked : list string) :
  AllCalls (own_ref branch) (rebase_root_with branch backupRef picked).
Proof.
  unfold rebase_root_with.
  footprint; intros ref value E; try discriminate;
    injection E as <- _; left; reflexivity.
Qed.

Lemma makeHead_own_ref (branch commit : string) :
  AllCalls (own_ref branch) (makeHead branch commit).
Proof.
  unfold makeHead, makeHead_body, ensureCleanState, hasMergesInHistory.
  footprint;
    first [ apply replay_own_ref | apply rebase_root_own_ref
          | intros ref value E; try discriminate;
            injection E as <- _; first [left; reflexivity | right; eexists; reflexivity] ].
Qed.

Lemma deleteCommit_own_ref (branch commit : string) :
  AllCalls (own_ref branch) (deleteCommit branch commit).
Proof.
  unfold deleteCommit, deleteCommit_root, ensureCleanState, hasMergesInHistory.
  footprint;
    first [ apply rebase_root_own_ref
          | intros ref value E; try discriminate;
            first [ injection E as <- _;
                    first [left; reflexivity | right; eexists; reflexivity]
                  | destruct (String.eqb _ branch); discriminate ] ].
Qed.

(** X6: whatever the environment answers, the only references [makeHead]
    and [deleteCommit] ever pass to [git update-ref] as the reference to
    write are [refs/heads/<branch>] and a backup name of that branch,
    [refs/backup/git-dnd/<branch>-<timestamp>]. *)
Theorem operations_write_only_their_branch_and_its_backup :
  forall (W : Type) (handle : Call -> W -> Reply * W) (w : W)
         (o : Operation) (branch commit : string),
    Forall (own_ref branch) (calls handle (engine o branch commit) w).
Proof.
  intros W handle w o branch commit. apply AllCalls_calls.
  destruct o; [apply makeHead_own_ref | apply deleteCommit_own_ref].
Qed.

Lemma Until_mark {A : Type} (P M : Call -> Prop) (c : Call) (k : Reply -> Prog A) :
  M c -> Until P M (Vis c k).
Proof. intros H. left. exact H. Qed.

Lemma Until_pbind {A B : Type} (P M : Call -> Prop) (p : Prog A) (f : A -> Prog B) :
  AllCalls P p -> (forall a, Until P M (f a)) -> Until P M (pbind p f).
Proof.
  intros Hp Hf. induction p as [a | c k IH]; simpl; [apply Hf |].
  destruct Hp as [Hc Hk]. right. split; [exact Hc |]. intros r. apply IH, Hk.
Qed.

Lemma Until_andThen {A B : Type} (P M : Call -> Prop) (p : Promise A)
    (f : A -> Promise B) :
  AllCalls P p -> (forall a, Until P M (f a)) -> Until P M (andThen p f).
Proof.
  intros Hp Hf. apply Until_pbind; [exact Hp |]. intros [a | e]; [apply Hf | exact I].
Qed.

(** The calls of a run split into the calls before the first [M] call,
    which are [P] calls, and the rest, which starts with that [M] call. *)
Lemma Until_calls {W A : Type} (handle : Call -> W -> Reply * W)
    (P M : Call -> Prop) (p : Prog A) (w : W) :
  Until P M p ->
  exists before rest,
    calls handle p w = before ++ rest
    /\ Forall P before
    /\ (rest = [] \/ exists c rest', rest = c :: rest' /\ M c).
Proof.
  revert w. induction p as [a | c k IH]; intros w Hp.
  - exists [], []. repeat split; auto.
  - destruct Hp as [Hm | [Hc Hk]].
    + exists [], (calls handle (Vis c k) w). split; [reflexivity |].
      split; [constructor |]. right. unfold calls. simpl.
      destruct (handle c w) as [r w1].
      destruct (run handle (k r) w1) as [[a w2] l]. simpl. eauto.
    + unfold calls. simpl. destruct (handle c w) as [r w1].
      destruct (IH r w1 (Hk r)) as (before & rest & Hcalls & Hbefore & Hrest).
      unfold calls in Hcalls.
      destruct (run handle (k r) w1) as [[a w2] l]. simpl in *.
      exists (c :: before), rest. rewrite Hcalls. split; [reflexivity |].
      split; [constructor; assumption | exact Hrest].
Qed.

Lemma checks_harmless (branch commit : string) :
  AllCalls harmless
    (catch (execPromise (MergeBaseIsAncestor commit branch))
           (fun _ => reject (not_reachable_message commit branch))).
Proof. footprint. left. reflexivity. Qed.

Lemma ensureCleanState_harmless : AllCalls harmless ensureCleanState.
Proof.
  eapply AllCalls_weaken; [| apply ensureCleanState_observes].
  intros c Hc. left. exact Hc.
Qed.

Lemma operations_back_up_first (o : Operation) (branch commit : string) :
  Until harmless (backs_up branch) (engine o branch commit).
Proof.
  destruct o; unfold engine, makeHead, deleteCommit.
  - apply Until_andThen; [apply checks_harmless | intros _].
    apply Until_andThen; [apply ensureCleanState_harmless | intros _].
    right. split; [right; reflexivity |]. intros now.
    left. eexists. reflexivity.
  - apply Until_andThen; [apply checks_harmless | intros _].
    apply Until_andThen; [apply ensureCleanState_harmless | intros _].
    apply Until_andThen; [footprint; left; reflexivity | intros line].
    right. split; [right; reflexivity |]. intros now.
    left. eexists. reflexivity.
Qed.

(** X7: whatever the environment answers, [makeHead] and [deleteCommit]
    attempt the backup before anything that could change the repository:
    the calls of a run are read-only tests (and one reading of the clock)
    up to the first [git update-ref refs/backup/git-dnd/<branch>-<ts>
    <branch>], unless the run stops before it. *)
Theorem operations_back_up_before_any_mutation :
  forall (W : Type) (handle : Call -> W -> Reply * W) (w : W)
         (o : Operation) (branch commit : string),
    exists before rest,
      calls handle (engine o branch commit) w = before ++ rest
      /\ Forall harmless before
      /\ (rest = [] \/ exists c rest', rest = c :: rest' /\ backs_up branch c).
Proof.
  intros W handle w o branch commit.
  apply Until_calls, operations_back_up_first.
Qed.

(** ** The synthesized root rewrite *)

(** Runs a program in an arbitrary environment by cases on every reply. *)
Ltac run_by_cases handle :=
  repeat (simpl;
          match goal with
          | |- context [handle ?c ?v] => destruct (handle c v) as [? ?]
          | |- context [match error ?r with _ => _ end] => destruct (error r) eqn:?
          end).

(** X8: the root rewrite shared by [makeHead] and [deleteCommit], in every
    environment: once [git rebase -i --root] has been run, the temporary
    directory is removed as the last call, whether the rebase succeeded or
    not; a failed rebase is followed by [rebase --abort] and the restoring
    [update-ref]; and the outcome is that of the rebase alone, whatever
    the abort, the restoration and the removal answer. *)
Theorem root_rewrite_cleans_up_and_keeps_the_error :
  forall (W : Type) (handle : Call -> W -> Reply * W) (w : W)
         (branch backupRef editor : string) (picked : list string) (reply : Reply),
    In (Exec (RebaseInteractiveRoot editor), reply)
       (snd (run handle (rebase_root_with branch backupRef picked) w)) ->
    exists dir,
      editor = dir +:+ "/editor.sh"
      /\ calls handle (rebase_root_with branch backupRef picked) w =
         [ MkdtempSync "git-dnd-";
           WriteFileSync (dir +:+ "/todo.txt") (todo_of picked) false;
           WriteFileSync editor (editor_script (dir +:+ "/todo.txt")) true;
           Exec (RebaseInteractiveRoot editor) ]
         ++ (match error reply with
             | Some _ => [Exec RebaseAbort; Exec (UpdateRef (head_ref branch) backupRef)]
             | None => []
             end)
         ++ [RmSync dir]
      /\ outcome handle (rebase_root_with branch backupRef picked) w =
         match error reply with
         | Some message => Rejected (JS.or_else (stderr reply) message)
         | None => Resolved tt
         end.
Proof.
  intros W handle w branch backupRef editor picked reply.
  unfold calls, outcome, rebase_root_with.
  run_by_cases handle; intros Hin;
    repeat match goal with
           | H : _ \/ _ |- _ => destruct H as [H | H]
           | H : False |- _ => destruct H
           | H : (_, _) = (_, _) |- _ => first [discriminate H | injection H as ? ?]
           end;
    subst;
    match goal with
    | |- exists dir, stdout ?r0 +:+ _ = _ /\ _ => exists (stdout r0)
    end;
    repeat match goal with
           | H : error ?r = _ |- _ => rewrite H
           end;
    repeat split; congruence.
Qed.

(** A root rewrite whose rebase stops on a conflict: abort, restoration
    and removal follow, and the conflict is the error, even though the
    removal fails too. *)
Lemma root_rewrite_witness :
  outcome scripted (rebase_root_with "feature" "refs/backup/git-dnd/feature-x" ["B"; "C"])
    [ ok "/tmp/git-dnd-k3Xw9a"; ok EmptyString; ok EmptyString;
      failed Git.command_failed (Git.conflict_text "C");
      ok EmptyString; ok EmptyString; failed "EACCES" EmptyString ]
  = Rejected (Git.conflict_text "C").
Proof.
  destruct (root_rewrite_cleans_up_and_keeps_the_error (list Reply) scripted
              [ ok "/tmp/git-dnd-k3Xw9a"; ok EmptyString; ok EmptyString;
                failed Git.command_failed (Git.conflict_text "C");
                ok EmptyString; ok EmptyString; failed "EACCES" EmptyString ]
              "feature" "refs/backup/git-dnd/feature-x"
              "/tmp/git-dnd-k3Xw9a/editor.sh" ["B"; "C"]
              (failed Git.command_failed (Git.conflict_text "C")))
    as (dir & _ & _ & Hout).
  - right. right. right. left. reflexivity.
  - exact Hout.
Defined.

(** ** Reading back the listings *)

#[local] Arguments String.append : simpl nomatch.

Lemma trimEnd_space (a : string) (c : ascii) :
  JS.is_space c = true -> JS.trimEnd (a +:+ String c EmptyString) = JS.trimEnd a.
Proof.
  intros Hc. induction a as [| x a IH]; simpl.
  - rewrite Hc. reflexivity.
  - rewrite IH. reflexivity.
Qed.

Lemma split_bars_step (a : ascii) (s : string) :
  Ascii.eqb a "|" = false ->
  split_bars (String a s) = JS.push_char a (split_bars s).
Proof.
  intros Ha. destruct s as [| b rest]; [reflexivity |].
  cbn [split_bars]. rewrite Ha. reflexivity.
Qed.

(** A name without bars is split off at the first double bar. *)
Lemma split_bars_name (x s : string) :
  barless x = true -> split_bars (x +:+ "||" +:+ s) = x :: split_bars s.
Proof.
  induction x as [| a x IH]; intros H.
  - reflexivity.
  - simpl in H. apply andb_prop in H. destruct H as [Ha Hx].
    apply negb_true_iff in Ha.
    change (String a x +:+ "||" +:+ s) with (String a (x +:+ "||" +:+ s)).
    rewrite split_bars_step by exact Ha. rewrite (IH Hx). reflexivity.
Qed.

Lemma parse_branch_line (b : BranchInfo) :
  barless (name b) = true ->
  parse_branch (name b +:+ "||" +:+ (if current b then "*" else EmptyString)) = b.
Proof.
  intros H. unfold parse_branch. rewrite split_bars_name by exact H.
  destruct b as [n [|]]; reflexivity.
Qed.

Lemma trim_branch_line (b : BranchInfo) :
  Git.tidy (name b) = true ->
  JS.trim (name b +:+ "||" +:+ (if current b then "*" else " "))
  = name b +:+ "||" +:+ (if current b then "*" else EmptyString).
Proof.
  intros H. unfold JS.trim. rewrite trimStart_tidy by exact H.
  destruct (current b).
  - rewrite <- append_assoc. apply trimEnd_solid. reflexivity.
  - rewrite <- append_assoc. rewrite trimEnd_space by reflexivity.
    rewrite append_empty. apply trimEnd_solid. reflexivity.
Qed.

Lemma branch_line_unbroken (b : BranchInfo) :
  Git.tidy (name b) = true ->
  unbroken (name b +:+ "||" +:+ (if current b then "*" else " ")) = true.
Proof.
  intros H. apply unbroken_app; [apply spaceless_unbroken, tidy_spaceless, H |].
  destruct (current b); reflexivity.
Qed.

(** X9: [getLocalBranches] reads back what [git branch
    --format="%(refname:short)||%(HEAD)"] prints: for branches whose names
    are made of ASCII characters, without white space and without a
    vertical bar, the listing of the branches (a star marking the one
    checked out) is parsed into exactly these branches, in order, with
    their [current] flags. *)
Theorem getLocalBranches_reads_back_the_listing :
  forall bs : list BranchInfo,
    Forall (fun b => ascii_only (name b) = true /\ Git.tidy (name b) = true
                     /\ barless (name b) = true) bs ->
    getLocalBranches_settled (ok (branch_listing bs)) = Resolved bs.
Proof.
  intros bs H. unfold getLocalBranches_settled. cbn [error ok stdout]. f_equal.
  unfold JS.lines. induction H as [| b bs (_ & Ht & Hb) _ IH]; [reflexivity |].
  cbn [branch_listing fold_right]. unfold branch_line at 1.
  replace ((name b +:+ "||" +:+ (if current b then "*" else " ") +:+ Git.nl)
           +:+ fold_right (fun b0 out => branch_line b0 +:+ out) EmptyString bs)
    with ((name b +:+ "||" +:+ (if current b then "*" else " ")) +:+ Git.nl
          +:+ branch_listing bs)
    by (unfold branch_listing; rewrite !append_assoc; reflexivity).
  rewrite split_lines_line by (apply branch_line_unbroken, Ht).
  cbn [map List.filter]. rewrite trim_branch_line by exact Ht.
  replace (JS.truthy (name b +:+ "||" +:+ (if current b then "*" else EmptyString)))
    with true.
  - cbn [map]. rewrite parse_branch_line by exact Hb. f_equal. exact IH.
  - destruct (tidy_inv (name b) Ht) as (a & n' & -> & _). reflexivity.
Qed.

(** Two branches, the second being checked out. *)
Lemma getLocalBranches_witness :
  getLocalBranches_settled
    (ok ("main|| " +:+ Git.nl +:+ "feature||*" +:+ Git.nl))
  = Resolved [mkBranchInfo "main" false; mkBranchInfo "feature" true].
Proof.
  apply (getLocalBranches_reads_back_the_listing
           [mkBranchInfo "main" false; mkBranchInfo "feature" true]).
  repeat constructor.
Defined.

#[local] Arguments String.append : simpl never.

#[local] Arguments String.append : simpl nomatch.

Lemma plain_chars (a : ascii) (s : string) :
  plain (String a s) = true ->
  Ascii.eqb a "030" = false /\ Ascii.eqb a "031" = false /\ plain s = true.
Proof.
  simpl. intros H. apply andb_prop in H. destruct H as [H Hs].
  apply andb_prop in H. destruct H as [H1 H2].
  apply negb_true_iff in H1, H2. auto.
Qed.

Lemma split_unit_field (x s : string) :
  plain x = true ->
  JS.split_char "031" (x +:+ String "031" s) = x :: JS.split_char "031" s.
Proof.
  induction x as [| a x IH]; intros H; [reflexivity |].
  destruct (plain_chars a x H) as (_ & Ha & Hx).
  simpl. rewrite Ha, (IH Hx). reflexivity.
Qed.

Lemma split_unit_last (x : string) :
  plain x = true -> JS.split_char "031" x = [x].
Proof.
  induction x as [| a x IH]; intros H; [reflexivity |].
  destruct (plain_chars a x H) as (_ & Ha & Hx).
  simpl. rewrite Ha, (IH Hx). reflexivity.
Qed.

Lemma plain_app (a b : string) :
  plain a = true -> plain b = true -> plain (a +:+ b) = true.
Proof.
  intros Ha Hb. induction a as [| x a IH]; [exact Hb |].
  destruct (plain_chars x a Ha) as (H1 & H2 & Ha'). simpl.
  rewrite H1, H2. simpl. apply IH, Ha'.
Qed.

(** The four fields of a record, without the closing [\x1e]. *)
Lemma entry_shape (c : CommitInfo) :
  well_formed_entry c = true ->
  exists s a d,
    subject c = Some s /\ author c = Some a /\ date c = Some d
    /\ Git.tidy (fullHash c) = true /\ plain (fullHash c) = true
    /\ hash c = JS.take 7 (fullHash c)
    /\ plain s = true /\ plain a = true /\ plain d = true
    /\ Git.spaceless d = true.
Proof.
  unfold well_formed_entry. intros H.
  apply andb_prop in H. destruct H as [H Hf].
  apply andb_prop in H. destruct H as [H Hh].
  apply andb_prop in H. destruct H as [Ht Hp].
  apply String.eqb_eq in Hh.
  destruct (subject c) as [s |], (author c) as [a |], (date c) as [d |];
    try discriminate.
  apply andb_prop in Hf. destruct Hf as [Hf Hd].
  apply andb_prop in Hf. destruct Hf as [Hf Hpd].
  apply andb_prop in Hf. destruct Hf as [Hs Ha].
  exists s, a, d. repeat split; assumption.
Qed.

Lemma split_char_cons (c : ascii) (s : string) :
  exists f fs, JS.split_char c s = f :: fs.
Proof.
  induction s as [| a s (f & fs & IH)]; simpl; [eauto |].
  destruct (Ascii.eqb a c); [eauto |]. rewrite IH. simpl. eauto.
Qed.

(** A field and the [\x1f] after it stay in the current record. *)
Lemma split_record_through (x rest : string) :
  plain x = true ->
  JS.split_char "030" (x +:+ String "031" rest)
  = prepend (x +:+ String "031" EmptyString) (JS.split_char "030" rest).
Proof.
  induction x as [| a x IH]; intros H.
  - simpl. destruct (split_char_cons "030" rest) as (f & fs & ->). reflexivity.
  - destruct (plain_chars a x H) as (Ha & _ & Hx).
    simpl. rewrite Ha, (IH Hx).
    destruct (split_char_cons "030" rest) as (f & fs & ->). reflexivity.
Qed.

Lemma split_record_close (x rest : string) :
  plain x = true ->
  JS.split_char "030" (x +:+ String "030" rest) = x :: JS.split_char "030" rest.
Proof.
  induction x as [| a x IH]; intros H; [reflexivity |].
  destruct (plain_chars a x H) as (Ha & _ & Hx).
  simpl. rewrite Ha, (IH Hx). reflexivity.
Qed.

Lemma log_entry_body (c : CommitInfo) :
  log_entry c = entry_body c +:+ String "030" EmptyString.
Proof.
  unfold log_entry, entry_body.
  rewrite append_assoc. simpl. f_equal. f_equal.
  rewrite append_assoc. simpl. f_equal. f_equal.
  rewrite append_assoc. reflexivity.
Qed.

(** A record is split off at its closing [\x1e]. *)
Lemma split_entry (c : CommitInfo) (rest : string) :
  well_formed_entry c = true ->
  JS.split_char "030" (log_entry c +:+ rest)
  = entry_body c :: JS.split_char "030" rest.
Proof.
  intros H. destruct (entry_shape c H)
    as (s & a & d & Hs & Ha & Hd & _ & Hph & _ & Hps & Hpa & Hpd & _).
  unfold log_entry, entry_body. rewrite Hs, Ha, Hd. cbn [from_option id].
  rewrite append_assoc. cbn [String.append].
  rewrite split_record_through by exact Hph.
  rewrite append_assoc. cbn [String.append].
  rewrite split_record_through by exact Hps.
  rewrite append_assoc. cbn [String.append].
  rewrite split_record_through by exact Hpa.
  rewrite append_assoc. cbn [String.append].
  rewrite split_record_close by exact Hpd.
  cbn [prepend]. rewrite !append_assoc. reflexivity.
Qed.

Lemma parse_entry_body (c : CommitInfo) :
  well_formed_entry c = true -> parse_record (entry_body c) = c.
Proof.
  intros H. destruct (entry_shape c H)
    as (s & a & d & Hs & Ha & Hd & _ & Hph & Hh & Hps & Hpa & Hpd & _).
  unfold parse_record, entry_body. rewrite Hs, Ha, Hd. cbn [from_option id].
  rewrite split_unit_field by exact Hph.
  rewrite split_unit_field by exact Hps.
  rewrite split_unit_field by exact Hpa.
  rewrite split_unit_last by exact Hpd.
  destruct c as [h f su au da]. simpl in Hs, Ha, Hd, Hh. subst. reflexivity.
Qed.

Lemma trim_entry_body (c : CommitInfo) :
  well_formed_entry c = true ->
  JS.trim (entry_body c) = entry_body c
  /\ JS.trim (Git.nl +:+ entry_body c) = entry_body c
  /\ JS.truthy (entry_body c) = true.
Proof.
  intros H. destruct (entry_shape c H)
    as (s & a & d & Hs & Ha & Hd & Ht & _ & _ & _ & _ & _ & Hsd).
  assert (Hend : JS.trimEnd (entry_body c) = entry_body c).
  { unfold entry_body. rewrite Hs, Ha, Hd. cbn [from_option id].
    assert (E : fullHash c +:+ String "031" (s +:+ String "031" (a +:+ String "031" d))
                = (fullHash c +:+ String "031" (s +:+ String "031" a)) +:+ String "031" d).
    { rewrite append_assoc. cbn [String.append]. f_equal. f_equal.
      rewrite append_assoc. reflexivity. }
    rewrite E. apply trimEnd_solid. unfold Git.tidy. simpl. exact Hsd. }
  assert (Hstart : JS.trimStart (entry_body c) = entry_body c).
  { unfold entry_body. apply trimStart_tidy, Ht. }
  unfold JS.trim. split; [| split].
  - rewrite Hstart. exact Hend.
  - change (JS.trimStart (Git.nl +:+ entry_body c)) with (JS.trimStart (entry_body c)).
    rewrite Hstart. exact Hend.
  - unfold entry_body. destruct (tidy_inv (fullHash c) Ht) as (x & h' & -> & _).
    reflexivity.
Qed.

Lemma split_log_output (c : CommitInfo) (cs : list CommitInfo) :
  Forall (fun c => well_formed_entry c = true) (c :: cs) ->
  JS.split_char "030" (log_output (c :: cs))
  = entry_body c :: (List.map (fun c => Git.nl +:+ entry_body c) cs ++ [EmptyString]).
Proof.
  unfold log_output. revert c. induction cs as [| c2 cs IH]; intros c H.
  - inversion H as [| ? ? Hc _]; subst. cbn [List.map JS.join].
    rewrite <- (append_empty (log_entry c)). rewrite split_entry by exact Hc.
    reflexivity.
  - inversion H as [| ? ? Hc Hrest]; subst.
    change (JS.join Git.nl (List.map log_entry (c :: c2 :: cs)))
      with (log_entry c +:+ Git.nl +:+ JS.join Git.nl (List.map log_entry (c2 :: cs))).
    rewrite split_entry by exact Hc.
    change (Git.nl +:+ JS.join Git.nl (List.map log_entry (c2 :: cs)))
      with (String "010" (JS.join Git.nl (List.map log_entry (c2 :: cs)))).
    cbn [JS.split_char]. change (Ascii.eqb "010" "030") with false. cbv iota.
    rewrite (IH c2 Hrest). reflexivity.
Qed.

(** X10: [getCommits] reads back what [git log
    --pretty=format:'%H%x1f%s%x1f%an%x1f%ad%x1e'] prints: for entries with
    a tidy full hash, fields free of the two separators and a date
    without whitespace, the output for a list of commits is parsed into
    exactly these entries, the short hash being the first seven characters
    of the full hash; the empty output gives the empty list. *)
Theorem getCommits_reads_back_the_log :
  forall cs : list CommitInfo,
    Forall (fun c => well_formed_entry c = true) cs ->
    parse_log (log_output cs) = cs.
Proof.
  intros cs H. unfold parse_log. destruct cs as [| c cs]; [reflexivity |].
  rewrite split_log_output by exact H.
  inversion H as [| ? ? Hc Hrest]; subst.
  destruct (trim_entry_body c Hc) as (Htrim & _ & Htruthy).
  cbn [List.map List.filter]. rewrite Htrim, Htruthy. cbn [List.map].
  rewrite parse_entry_body by exact Hc. f_equal.
  clear H Hc Htrim Htruthy. induction Hrest as [| c2 cs Hc2 _ IH]; [reflexivity |].
  destruct (trim_entry_body c2 Hc2) as (_ & Htrim & Htruthy).
  cbn [List.map app List.filter]. rewrite Htrim, Htruthy. cbn [List.map].
  rewrite parse_entry_body by exact Hc2. f_equal. exact IH.
Qed.

(** Two commits of the feature scenario as [git log] prints them. *)
Lemma getCommits_reads_back_witness :
  parse_log (log_output
    [ mkCommitInfo "d1e2f3a" "d1e2f3a4b5c6" (Some "Add parser") (Some "Ada") (Some "2026-11-02");
      mkCommitInfo "c0ffee1" "c0ffee123456" (Some "Fix typo") (Some "Lin") (Some "2026-11-01") ])
  = [ mkCommitInfo "d1e2f3a" "d1e2f3a4b5c6" (Some "Add parser") (Some "Ada") (Some "2026-11-02");
      mkCommitInfo "c0ffee1" "c0ffee123456" (Some "Fix typo") (Some "Lin") (Some "2026-11-01") ].
Proof.
  apply getCommits_reads_back_the_log. repeat constructor.
Defined.

#[local] Arguments String.append : simpl never.

(** ** A branch with a single commit *)










(** ** Removing a buried commit *)




(** ** The comparison base of the commit listing *)

